(** * km-traversal: pattern compiler, condition evaluator, traversal engine
    and mutation surface of [traverseIn]

    A shallow embedding of the canonical revision of the library (the one
    with [remove], [removeNears], shortcuts and dot-separated condition
    specs) together with the properties its specification states.

    Conventions of the embedding.
    - A JavaScript string is a [string] of one-byte characters.
    - The data being traversed is JSON-shaped: [null], booleans, numbers,
      strings, arrays and plain objects.  Numbers are the integer-valued ones
      ([Z]).  An object is the list of its own enumerable entries in
      [Object.entries] order.  The [in] operator and property reads see own
      properties only (for an array: its indices and [length]); what a
      prototype would add is not part of the data.
    - A JavaScript exception is an [Err] result; the mutators thread the data
      tree as explicit state and keep it when they raise. *)

From Stdlib Require Import ZArith Ascii String List.
From stdpp Require Import base option list strings pretty.

Set Warnings "-register-all".

Local Open Scope string_scope.
Local Open Scope list_scope.

(** ** Errors and results *)

(** The errors the source throws by name, the [TypeError] the runtime raises
    on a value of the wrong kind, and [RecursionLimit], which only a model
    function that has run out of fuel returns. *)
Inductive Error : Type :=
| InvalidObjectCondition (content : string)
| InvalidArrayCondition (content : string)
| UnrecognizedToken (token : string)
| ConditionNotFound (cleanConditionName : string)
| LengthMismatch
| CannotRename
| TypeError (message : string)
| RecursionLimit.

Inductive Result (A : Type) : Type :=
| Ok (a : A)
| Err (e : Error).
Arguments Ok {A} a.
Arguments Err {A} e.

#[global] Instance Result_ret : MRet Result := fun A a => Ok a.
#[global] Instance Result_bind : MBind Result := fun A B f m =>
  match m with
  | Ok a => f a
  | Err e => Err e
  end.
#[global] Instance Result_fmap : FMap Result := fun A B f m =>
  match m with
  | Ok a => Ok (f a)
  | Err e => Err e
  end.

(** [Array.prototype.every] and [Array.prototype.some] over a callback that
    may raise: both stop at the first deciding element. *)
Fixpoint every {A : Type} (f : A -> Result bool) (l : list A) : Result bool :=
  match l with
  | [] => Ok true
  | x :: l' =>
      b ← f x;
      if b : bool then every f l' else Ok false
  end.

Fixpoint some {A : Type} (f : A -> Result bool) (l : list A) : Result bool :=
  match l with
  | [] => Ok false
  | x :: l' =>
      b ← f x;
      if b : bool then Ok true else some f l'
  end.

(** ** Strings *)

Module JS.

Fixpoint startsWith (s pre : string) {struct pre} : bool :=
  match pre with
  | "" => true
  | String p pre' =>
      match s with
      | String c s' => Ascii.eqb c p && startsWith s' pre'
      | "" => false
      end
  end.

Fixpoint endsWith (s suf : string) : bool :=
  match s with
  | "" => String.eqb "" suf
  | String _ s' => String.eqb s suf || endsWith s' suf
  end.

Definition isEmpty (s : string) : bool :=
  match s with
  | "" => true
  | _ => false
  end.

(** White space and line terminators that fit in one byte. *)
Definition isWhiteSpace (c : ascii) : bool :=
  let n := nat_of_ascii c in
  (Nat.leb 9 n && Nat.leb n 13) || Nat.eqb n 32 || Nat.eqb n 160.

Fixpoint trimStart (s : string) : string :=
  match s with
  | String c s' => if isWhiteSpace c then trimStart s' else s
  | "" => ""
  end.

Fixpoint trimEnd (s : string) : string :=
  match s with
  | "" => ""
  | String c s' =>
      match trimEnd s' with
      | "" => if isWhiteSpace c then "" else String c ""
      | t => String c t
      end
  end.

Definition trim (s : string) : string := trimEnd (trimStart s).

Fixpoint includes (s : string) (c : ascii) : bool :=
  match s with
  | "" => false
  | String d s' => Ascii.eqb c d || includes s' c
  end.

(** [s.replace(a, b)] for one-character strings: the first occurrence. *)
Fixpoint replace (s : string) (a b : ascii) : string :=
  match s with
  | "" => ""
  | String c s' => if Ascii.eqb c a then String b s' else String c (replace s' a b)
  end.

(** [s.split(sep)] for a one-character separator; never empty. *)
Fixpoint split (sep : ascii) (s : string) : list string :=
  match s with
  | "" => [""]
  | String c s' =>
      if Ascii.eqb c sep then "" :: split sep s'
      else match split sep s' with
           | h :: t => String c h :: t
           | [] => [String c ""]
           end
  end.

Fixpoint join (sep : string) (l : list string) : string :=
  match l with
  | [] => ""
  | [s] => s
  | s :: l' => s ++ sep ++ join sep l'
  end.

Fixpoint removeLast (s : string) : string :=
  match s with
  | "" => ""
  | String c s' =>
      match s' with
      | "" => ""
      | _ => String c (removeLast s')
      end
  end.

(** [s.slice(1, -1)]: empty when [s] has fewer than two characters. *)
Definition slice1 (s : string) : string :=
  match s with
  | String _ s' => removeLast s'
  | "" => ""
  end.

Definition isDigit (c : ascii) : bool :=
  let n := nat_of_ascii c in Nat.leb 48 n && Nat.leb n 57.

Fixpoint allDigits (s : string) : bool :=
  match s with
  | "" => true
  | String c s' => isDigit c && allDigits s'
  end.

Fixpoint parseDigits (acc : nat) (s : string) : nat :=
  match s with
  | "" => acc
  | String c s' => parseDigits (10 * acc + (nat_of_ascii c - 48)) s'
  end.

(** [parseInt] on a string of decimal digits. *)
Definition parseInt (s : string) : nat := parseDigits 0 s.

Fixpoint chars (s : string) : list string :=
  match s with
  | "" => []
  | String c s' => String c "" :: chars s'
  end.

End JS.

(** ** Data model *)

(** The nested data: [IEntryData] and everything reachable inside it. *)
Inductive Value : Type :=
| Null
| Bool (b : bool)
| Num (n : Z)
| Str (s : string)
| Arr (items : list Value)
| Obj (entries : list (string * Value)).

(** A key in a parent: [string | number]. *)
Inductive Key : Type :=
| KStr (s : string)
| KNum (i : nat).

#[global] Instance Key_eq_dec : EqDecision Key.
Proof. solve_decision. Defined.

(** The key as the JavaScript value a predicate receives. *)
Definition keyValue (k : Key) : Value :=
  match k with
  | KStr s => Str s
  | KNum i => Num (Z.of_nat i)
  end.

(** [String(key)], the property name a key denotes. *)
Definition keyName (k : Key) : string :=
  match k with
  | KStr s => s
  | KNum i => pretty i
  end.

Inductive PatternStep : Type :=
| Property (name : string)
| SingleStar
| DoubleStar (depth : option nat)
| SingleKey (key : string)
| MultiKey (keys : list string)
| ObjectCond (conditions : Value)
| ArrayCond (conditions : Value).

(** A registered condition.  [action] is a predicate that returns an
    answer on every input; a predicate that throws is not represented, so
    no statement here says that a step which calls predicates raises
    nothing. *)
Record IJsonPatternCondition : Type := {
  name : string;
  action : Key -> Value -> Value -> Value -> bool
}.

Record IPatternShortcust : Type := {
  singleStar : bool;
  doubleStar : bool;
  braketScope : bool
}.

Record TraversalNode : Type := {
  node : Value;
  parent : option Value;
  key : option Key;
  path : list Key
}.

(** A [TraversalNode] with the depth at which the double-star search met it. *)
Record DoubleStarNode : Type := {
  base : TraversalNode;
  depth : nat
}.

Definition isContainer (v : Value) : bool :=
  match v with
  | Arr _ | Obj _ => true
  | _ => false
  end.

(** Number of nodes of a value, itself included. *)
Fixpoint size (v : Value) : nat :=
  match v with
  | Arr items => S (list_sum (map size items))
  | Obj entries => S (list_sum (map (fun e => size (snd e)) entries))
  | _ => 1
  end.

(** Own entries are keyed uniquely, at every level. *)
Fixpoint uniqueKeys (v : Value) : Prop :=
  match v with
  | Arr items => fold_right (fun x P => uniqueKeys x /\ P) True items
  | Obj entries =>
      NoDup (map fst entries) /\
      fold_right (fun e P => uniqueKeys (snd e) /\ P) True entries
  | _ => True
  end.

(** [Object.entries(v)]: own enumerable string-keyed entries. *)
Definition objectEntries (v : Value) : Result (list (string * Value)) :=
  match v with
  | Null => Err (TypeError "Cannot convert undefined or null to object")
  | Bool _ | Num _ => Ok []
  | Str s => Ok (imap (fun i c => (pretty i, Str c)) (JS.chars s))
  | Arr items => Ok (imap (fun i x => (pretty i, x)) items)
  | Obj entries => Ok entries
  end.

Fixpoint lookupEntry (k : string) (entries : list (string * Value)) : option Value :=
  match entries with
  | [] => None
  | (k', v) :: rest => if String.eqb k k' then Some v else lookupEntry k rest
  end.

(** The index an array property name denotes: canonical decimal only. *)
Definition arrayIndex (k : string) : option nat :=
  if negb (JS.isEmpty k) && JS.allDigits k
     && String.eqb (pretty (JS.parseInt k)) k
     && (N.of_nat (JS.parseInt k) <? 4294967295)%N
  then Some (JS.parseInt k)
  else None.

(** [k in v] together with [v[k]], on a container: [Some] exactly when the
    container has the property as its own.  An array has its indices and
    [length].  The names a container inherits from its prototype are not
    represented; where a statement depends on a name being absent, it
    excludes those names (see [inherited]). *)
Definition getProperty (v : Value) (k : string) : option Value :=
  match v with
  | Obj entries => lookupEntry k entries
  | Arr items =>
      if String.eqb k "length" then Some (Num (Z.of_nat (length items)))
      else i ← arrayIndex k; items !! i
  | _ => None
  end.

(** ** Pattern compiler *)

(** The double-quote character and the one-character string holding it. *)
Definition dquote : ascii := ascii_of_nat 34.
Definition dquoteStr : string := String dquote "".

Record StringScope : Type := {
  isInDoubleQute : bool;
  isInSingleQute : bool
}.

(** The two flags carry the names the source gives them: [isInSingleQute]
    tests for double quotes and [isInDoubleQute] for single quotes. *)
Definition isInStringScope (value : string) : StringScope :=
  {| isInSingleQute :=
       JS.startsWith value dquoteStr && JS.endsWith value dquoteStr;
     isInDoubleQute :=
       JS.startsWith value "'" && JS.endsWith value "'" |}.

(** [content.match(regxOfNumberBetweenDubble)]: the whole content is a star,
    any number of decimal digits and a star; the result is the captured
    digits.  (The source also declares [regxOfNumberBeforeDubble], digits
    followed by two stars, and never matches against it.) *)
Definition regxOfNumberBetweenDubble (content : string) : option string :=
  match content with
  | String "*" rest =>
      if JS.endsWith rest "*" && JS.allDigits (JS.removeLast rest)
      then Some (JS.removeLast rest)
      else None
  | _ => None
  end.

(** Quoting of one key of a key list, before the surrounding pair of
    characters is sliced off. *)
Definition repairKey (scoped part : string) : string :=
  let stringScope := isInStringScope scoped in
  if isInDoubleQute stringScope then part
  else if isInSingleQute stringScope then JS.replace part "'" dquote
  else if negb (isInDoubleQute stringScope) && negb (isInSingleQute stringScope)
       then dquoteStr ++ part ++ dquoteStr
  else JS.replace part "'" dquote.

Section Compiler.

(** [JSON.parse(jsonrepair(content))] of the external [jsonrepair]
    package; [None] when either call throws. *)
Variable jsonParse : string -> option Value.

(** The parenthesized branch of [createStep]; [content] is already
    trimmed. *)
Definition createScopedStep (token content : string) : Result PatternStep :=
  if String.eqb content "*" then Ok SingleStar
  else
    match regxOfNumberBetweenDubble content with
    | Some digits =>
        if JS.isEmpty digits then Ok (DoubleStar None)
        else Ok (DoubleStar (Some (JS.parseInt digits)))
    | None =>
        if JS.startsWith content "{" then
          match jsonParse content with
          | Some conditions => Ok (ObjectCond conditions)
          | None => Err (InvalidObjectCondition content)
          end
        else if JS.startsWith content "[" then
          match jsonParse content with
          | Some conditions => Ok (ArrayCond conditions)
          | None => Err (InvalidArrayCondition content)
          end
        else if negb (JS.includes content ",")
                && negb (JS.startsWith content "[")
                && negb (JS.startsWith content "{") then
          Ok (SingleKey (JS.slice1 (repairKey content content)))
        else if JS.includes content ","
                && negb (JS.startsWith content "[")
                && negb (JS.startsWith content "{") then
          let repairedContent :=
            JS.join ","
              (map (fun part => repairKey (JS.trim part) part)
                   (JS.split "," content)) in
          Ok (MultiKey
                (map (fun s => JS.slice1 (JS.trim s))
                     (JS.split "," repairedContent)))
        else Err (UnrecognizedToken token)
    end.

(** [createStep] calls itself on a rewritten token; [fuel] bounds the
    nesting of those calls. *)
Fixpoint createStepFrom (fuel : nat) (token : string)
    (options : IPatternShortcust) : Result PatternStep :=
  match fuel with
  | O => Err RecursionLimit
  | S fuel' =>
      if JS.startsWith token "(" && JS.endsWith token ")" then
        createScopedStep token
          (JS.trim (substring 1 (String.length token - 2) token))
      else if singleStar options && String.eqb (JS.trim token) "*" then
        createStepFrom fuel' ("(" ++ token ++ ")") options
      else if doubleStar options && String.eqb (JS.trim token) "**" then
        createStepFrom fuel' ("(" ++ token ++ ")") options
      else if braketScope options
              && JS.startsWith (JS.trim token) "["
              && JS.endsWith (JS.trim token) "]" then
        createStepFrom fuel'
          (JS.replace (JS.replace (JS.trim token) "[" "(") "]" ")") options
      else Ok (Property token)
  end.

(** A rewritten token never triggers a second rewrite (see
    [createStep_fuel]), so two levels are all the source ever uses. *)
Definition createStep (token : string) (options : IPatternShortcust)
    : Result PatternStep :=
  createStepFrom 2 token options.

(** The loop variables of [parsePattern]. *)
Record ParseState : Type := {
  steps : list PatternStep;
  current : string;
  parenDepth : Z;
  inQuotes : bool
}.

(** [if (current) steps.push(createStep(current, options))]. *)
Definition pushCurrent (options : IPatternShortcust) (steps : list PatternStep)
    (current : string) : Result (list PatternStep) :=
  if JS.isEmpty current then Ok steps
  else step ← createStep current options; Ok (steps ++ [step]).

(** One iteration of the scanning loop; [prev] is [pattern[i - 1]], absent
    when [i = 0]. *)
Definition parseChar (options : IPatternShortcust) (prev : option ascii)
    (char : ascii) (st : ParseState) : Result ParseState :=
  let inQuotes' :=
    if Ascii.eqb char dquote
       && match prev with
          | None => true
          | Some p => negb (Ascii.eqb p "\")
          end
    then negb (inQuotes st) else inQuotes st in
  if negb inQuotes' then
    let depth1 := if Ascii.eqb char "(" then (parenDepth st + 1)%Z else parenDepth st in
    let depth2 := if Ascii.eqb char ")" then (depth1 - 1)%Z else depth1 in
    if Ascii.eqb char "." && Z.eqb depth2 0 then
      steps' ← pushCurrent options (steps st) (current st);
      Ok {| steps := steps'; current := ""; parenDepth := depth2;
            inQuotes := inQuotes' |}
    else
      Ok {| steps := steps st; current := current st ++ String char "";
            parenDepth := depth2; inQuotes := inQuotes' |}
  else
    Ok {| steps := steps st; current := current st ++ String char "";
          parenDepth := parenDepth st; inQuotes := inQuotes' |}.

Fixpoint parseLoop (options : IPatternShortcust) (prev : option ascii)
    (pattern : string) (st : ParseState) : Result ParseState :=
  match pattern with
  | "" => Ok st
  | String char rest =>
      st' ← parseChar options prev char st;
      parseLoop options (Some char) rest st'
  end.

Definition parseStart : ParseState :=
  {| steps := []; current := ""; parenDepth := 0; inQuotes := false |}.

Definition parsePattern (pattern : string) (options : IPatternShortcust)
    : Result (list PatternStep) :=
  st ← parseLoop options None pattern parseStart;
  pushCurrent options (steps st) (current st).

End Compiler.

(** ** Condition evaluator *)

(** [injectedConditions.find((c) => c.name === cleanConditionName)]. *)
Definition findCondition (cleanConditionName : string)
    (injectedConditions : list IJsonPatternCondition)
    : option IJsonPatternCondition :=
  List.find (fun c => String.eqb (name c) cleanConditionName) injectedConditions.

Definition evaluateCondition (cond : string) (condValue : Value) (key' : Key)
    (value : Value) (injectedConditions : list IJsonPatternCondition)
    : Result bool :=
  let parts := JS.split "." cond in
  let prefix := hd "" parts in
  let conditionName := tl parts !! 0%nat in
  let negate := JS.startsWith prefix "!" in
  let cleanConditionName := default prefix conditionName in
  match findCondition cleanConditionName injectedConditions with
  | None => Err (ConditionNotFound cleanConditionName)
  | Some condition =>
      let target := if JS.endsWith prefix "value" then value else keyValue key' in
      let result := action condition key' value target condValue in
      Ok (if negate then negb result else result)
  end.

(** ** Traversal engine *)

Definition rootNode (data : Value) : TraversalNode :=
  {| node := data; parent := None; key := None; path := [] |}.

(** The node pushed for the entry [k], [v] of the container held by [n]. *)
Definition child (n : TraversalNode) (k : Key) (v : Value) : TraversalNode :=
  {| node := v; parent := Some (node n); key := Some k; path := path n ++ [k] |}.

(** The children as the star steps enumerate them: [forEach] with a numeric
    index on an array, [Object.entries] on an object. *)
Definition children (n : TraversalNode) : list TraversalNode :=
  match node n with
  | Arr items => imap (fun i item => child n (KNum i) item) items
  | Obj entries => map (fun e => child n (KStr (fst e)) (snd e)) entries
  | _ => []
  end.

(** [step.depth !== undefined && d >= step.depth]. *)
Definition depthReached (limit : option nat) (d : nat) : bool :=
  match limit with
  | Some m => Nat.leb m d
  | None => false
  end.

Definition enqueue (q : DoubleStarNode) : list DoubleStarNode :=
  map (fun c => {| base := c; depth := S (depth q) |}) (children (base q)).

(** The [while (queue.length > 0)] loop of the double-star case; every turn
    shifts one node off the queue and spends one unit of [fuel]. *)
Fixpoint searchQueue (limit : option nat) (fuel : nat)
    (queue : list DoubleStarNode) : list TraversalNode :=
  match fuel with
  | O => []
  | S fuel' =>
      match queue with
      | [] => []
      | q :: rest =>
          base q ::
            searchQueue limit fuel'
              (if depthReached limit (depth q) then rest else rest ++ enqueue q)
      end
  end.

(** The loop visits each node below the anchor at most once, so [size] turns
    are enough (see [searchQueue_fuel]). *)
Definition doubleStarFrom (limit : option nat) (n : TraversalNode)
    : list TraversalNode :=
  searchQueue limit (size (node n)) [{| base := n; depth := 0 |}].

Section Engine.

Variable injectedConditions : list IJsonPatternCondition.

(** The [every] over [Object.entries] of one condition set. *)
Definition satisfiesAll (conditionSet : Value) (childKey : string)
    (childValue : Value) : Result bool :=
  conds ← objectEntries conditionSet;
  every (fun e => evaluateCondition (fst e) (snd e) (KStr childKey) childValue
                    injectedConditions) conds.

(** [step.conditions.some(...)] of the array-cond case. *)
Definition satisfiesSome (conditions : Value) (childKey : string)
    (childValue : Value) : Result bool :=
  match conditions with
  | Arr sets =>
      some (fun conditionSet => satisfiesAll conditionSet childKey childValue) sets
  | _ => Err (TypeError "step.conditions.some is not a function")
  end.

(** [Object.entries(node).forEach]: push the entries that satisfy [test]. *)
Fixpoint selectEntries (test : string -> Value -> Result bool)
    (n : TraversalNode) (entries : list (string * Value))
    : Result (list TraversalNode) :=
  match entries with
  | [] => Ok []
  | (childKey, childValue) :: rest =>
      satisfies ← test childKey childValue;
      out ← selectEntries test n rest;
      Ok (if satisfies : bool then child n (KStr childKey) childValue :: out
          else out)
  end.

Definition lookupStep (n : TraversalNode) (k : string) : list TraversalNode :=
  match getProperty (node n) k with
  | Some v => [child n (KStr k) v]
  | None => []
  end.

(** The body of the loop over [currentNodes]: what one frontier member
    pushes onto [nextNodes]. *)
Definition visit (step : PatternStep) (n : TraversalNode)
    : Result (list TraversalNode) :=
  if negb (isContainer (node n)) then Ok []
  else
    match step with
    | Property name' => Ok (lookupStep n name')
    | SingleStar => Ok (children n)
    | DoubleStar limit => Ok (doubleStarFrom limit n)
    | SingleKey k => Ok (lookupStep n k)
    | MultiKey ks => Ok (flat_map (lookupStep n) ks)
    | ObjectCond conditions =>
        entries ← objectEntries (node n);
        selectEntries (satisfiesAll conditions) n entries
    | ArrayCond conditions =>
        entries ← objectEntries (node n);
        selectEntries (satisfiesSome conditions) n entries
    end.

Fixpoint visitAll (step : PatternStep) (currentNodes : list TraversalNode)
    : Result (list TraversalNode) :=
  match currentNodes with
  | [] => Ok []
  | n :: rest =>
      pushed ← visit step n;
      nextNodes ← visitAll step rest;
      Ok (pushed ++ nextNodes)
  end.

(** [for (const step of steps)]: the final [currentNodes]. *)
Fixpoint runSteps (steps : list PatternStep) (currentNodes : list TraversalNode)
    : Result (list TraversalNode) :=
  match steps with
  | [] => Ok currentNodes
  | step :: rest =>
      nextNodes ← visitAll step currentNodes;
      runSteps rest nextNodes
  end.

End Engine.

(** ** Mutation surface *)

(** The data tree is the state.  A node keeps [parent] as a reference; in a
    tree a container is identified by where it sits, so the mutators act on
    the container found at the parent's path, which is the referenced object
    when the frontier has just been computed (see [frontier_attached]) and
    as long as no earlier callback has detached or replaced it.  [node] and
    [parent] hold the contents seen when the frontier was computed.
    The [setValue] mutator is not embedded: writing past the end of an array
    leaves holes, which JSON-shaped data does not have. *)
Definition Mut (A : Type) : Type := Value -> Result A * Value.

Definition parentPath (n : TraversalNode) : list Key := removelast (path n).

(** [String(key)] where [key] may still be [null]. *)
Definition keyString (k : option Key) : string :=
  match k with
  | Some k' => keyName k'
  | None => "null"
  end.

(** The array index a key denotes: a number is one, a string when it is a
    canonical index. *)
Definition indexOf (k : Key) : option nat :=
  match k with
  | KNum i => Some i
  | KStr s => arrayIndex s
  end.

(** [v[k]] for a key of a path. *)
Definition getMember (v : Value) (k : Key) : option Value :=
  match v, k with
  | Arr items, KNum i => items !! i
  | _, _ => getProperty v (keyName k)
  end.

(** The value found by following the path [p] from [v]. *)
Fixpoint valueAt (p : list Key) (v : Value) : option Value :=
  match p with
  | [] => Some v
  | k :: p' => v' ← getMember v k; valueAt p' v'
  end.

(** The tree [v] with [f] applied to the value at the path [p]. *)
Fixpoint updateAt (p : list Key) (f : Value -> Value) (v : Value) : Value :=
  match p with
  | [] => f v
  | k :: p' =>
      match v with
      | Obj entries =>
          Obj (map (fun e => if String.eqb (fst e) (keyName k)
                             then (fst e, updateAt p' f (snd e)) else e) entries)
      | Arr items =>
          match indexOf k with
          | Some i => Arr (alter (updateAt p' f) i items)
          | None => v
          end
      | _ => v
      end
  end.

Fixpoint hasEntry (k : string) (entries : list (string * Value)) : bool :=
  match entries with
  | [] => false
  | e :: rest => String.eqb (fst e) k || hasEntry k rest
  end.

(** Own keys are listed with the array indices first, in ascending order. *)
Fixpoint insertIndexed (i : nat) (k : string) (v : Value)
    (entries : list (string * Value)) : list (string * Value) :=
  match entries with
  | [] => [(k, v)]
  | e :: rest =>
      match arrayIndex (fst e) with
      | Some j => if Nat.ltb j i then e :: insertIndexed i k v rest
                  else (k, v) :: entries
      | None => (k, v) :: entries
      end
  end.

(** [object[k] = v]: the own entry is replaced, or added when there is
    none.  The one name for which the runtime does otherwise is
    [__proto__] without an own entry, where the inherited setter runs and
    no entry is added; the statements about a new key exclude it. *)
Definition assignEntry (k : string) (v : Value) (entries : list (string * Value))
    : list (string * Value) :=
  if hasEntry k entries then
    map (fun e => if String.eqb (fst e) k then (k, v) else e) entries
  else
    match arrayIndex k with
    | Some i => insertIndexed i k v entries
    | None => entries ++ [(k, v)]
    end.

(** [delete object[k]]. *)
Definition deleteEntry (k : string) (entries : list (string * Value))
    : list (string * Value) :=
  List.filter (fun e => negb (String.eqb (fst e) k)) entries.

(** [if (parent && !Array.isArray(parent)) { ... } else throw]: a parent is
    [null] or a container. *)
Definition onObjectParent (n : TraversalNode)
    (f : list (string * Value) -> list (string * Value)) : Mut unit :=
  fun data =>
    match parent n with
    | Some (Obj _) =>
        (Ok tt,
         updateAt (parentPath n)
           (fun v => match v with
                     | Obj entries => Obj (f entries)
                     | _ => v
                     end) data)
    | _ => (Err CannotRename, data)
    end.

Definition setKey (n : TraversalNode) (newKey : string) : Mut unit :=
  onObjectParent n
    (fun entries => deleteEntry (keyString (key n)) (assignEntry newKey (node n) entries)).

Definition remove (n : TraversalNode) : Mut unit :=
  onObjectParent n (deleteEntry (keyString (key n))).

(** [item !== key] holds for every own key when [key] is not a string. *)
Definition isNear (k : option Key) (item : string) : bool :=
  match k with
  | Some (KStr s) => negb (String.eqb item s)
  | _ => true
  end.

Definition removeNears (n : TraversalNode) : Mut unit :=
  onObjectParent n
    (fun entries =>
       fold_left (fun es nearKey => deleteEntry nearKey es)
         (List.filter (isNear (key n)) (map fst entries)) entries).

(** ** The entry point *)

Inductive PatternSource : Type :=
| PatternString (pattern : string)
| PatternSegments (segments : list string)
| PatternBuilder (build : (string -> string) -> string).

Definition patternText (p : PatternSource) : string :=
  match p with
  | PatternString pattern => pattern
  | PatternSegments segments => JS.join "." segments
  | PatternBuilder build => build (fun v => v)
  end.

Record ICustomEachOptions : Type := {
  injectedConditions : list IJsonPatternCondition;
  shortcuts : option IPatternShortcust
}.

Definition defaultShortcuts (options : ICustomEachOptions) : IPatternShortcust :=
  default {| singleStar := true; doubleStar := true; braketScope := false |}
          (shortcuts options).

(** A callback receives the node ([key], [value], [objectPath], [parent])
    and reaches the mutators as [setKey n], [remove n], [removeNears n]. *)
Definition Callback : Type := TraversalNode -> Mut unit.

(** [currentNodes.forEach]: the root node is skipped. *)
Fixpoint deliver (callback : Callback) (nodes : list TraversalNode) : Mut unit :=
  fun data =>
    match nodes with
    | [] => (Ok tt, data)
    | n :: rest =>
        match key n with
        | None => deliver callback rest data
        | Some _ =>
            match callback n data with
            | (Ok _, data') => deliver callback rest data'
            | (Err e, data') => (Err e, data')
            end
        end
    end.

Section EntryPoint.

Variable jsonParse : string -> option Value.

(** The final frontier of one pattern on the current data. *)
Definition matchPattern (options : ICustomEachOptions) (pattern : PatternSource)
    (data : Value) : Result (list TraversalNode) :=
  steps ← parsePattern jsonParse (patternText pattern) (defaultShortcuts options);
  runSteps (injectedConditions options) steps [rootNode data].

Fixpoint eachPattern (options : ICustomEachOptions)
    (patterns : list PatternSource) (callbacks : list Callback) : Mut unit :=
  fun data =>
    match patterns, callbacks with
    | pattern :: patterns', callback :: callbacks' =>
        match matchPattern options pattern data with
        | Err e => (Err e, data)
        | Ok currentNodes =>
            match deliver callback currentNodes data with
            | (Ok _, data') => eachPattern options patterns' callbacks' data'
            | (Err e, data') => (Err e, data')
            end
        end
    | _, _ => (Ok tt, data)
    end.

Definition traverseIn (data : Value) (options : ICustomEachOptions)
    (patterns : list PatternSource) (callbacks : list Callback)
    : Result unit * Value :=
  if negb (Nat.eqb (length patterns) (length callbacks))
  then (Err LengthMismatch, data)
  else eachPattern options patterns callbacks data.

End EntryPoint.

(** [adapter().register(conditions).traverseIn]: the entry point with the
    registered conditions and no shortcut settings. *)
Definition adapterTraverseIn (jsonParse : string -> option Value)
    (conditions : list IJsonPatternCondition) (data : Value)
    (patterns : list PatternSource) (callbacks : list Callback)
    : Result unit * Value :=
  traverseIn jsonParse data
    {| injectedConditions := conditions; shortcuts := None |}
    patterns callbacks.

(** ** Default conditions

    The members of [defaultConditions] whose action needs no coercion of its
    operands: the type checks, the strict comparisons and the array checks. *)
Module DefaultConditions.

(** [a === b].  Two containers are the same only when they are one object,
    and the operands here never are: the condition argument is parsed
    afresh from the pattern text. *)
Definition strictEquals (a b : Value) : bool :=
  match a, b with
  | Null, Null => true
  | Bool x, Bool y => Bool.eqb x y
  | Num x, Num y => Z.eqb x y
  | Str x, Str y => String.eqb x y
  | _, _ => false
  end.

Definition equalWith : IJsonPatternCondition :=
  {| name := "equalWith";
     action := fun _ _ target conditionValue => strictEquals target conditionValue |}.

Definition notEqual : IJsonPatternCondition :=
  {| name := "notEqual";
     action := fun _ _ target conditionValue =>
                 negb (strictEquals target conditionValue) |}.

Definition isString : IJsonPatternCondition :=
  {| name := "isString";
     action := fun _ _ target _ =>
                 match target with Str _ => true | _ => false end |}.

Definition isNumber : IJsonPatternCondition :=
  {| name := "isNumber";
     action := fun _ _ target _ =>
                 match target with Num _ => true | _ => false end |}.

Definition isArray : IJsonPatternCondition :=
  {| name := "isArray";
     action := fun _ _ target _ =>
                 match target with Arr _ => true | _ => false end |}.

Definition isObject : IJsonPatternCondition :=
  {| name := "isObject";
     action := fun _ _ target _ =>
                 match target with Obj _ => true | _ => false end |}.

Definition arrayIncludes : IJsonPatternCondition :=
  {| name := "arrayIncludes";
     action := fun _ _ target conditionValue =>
                 match target with
                 | Arr items => existsb (fun x => strictEquals x conditionValue) items
                 | _ => false
                 end |}.

Definition length : IJsonPatternCondition :=
  {| name := "length";
     action := fun _ _ target conditionValue =>
                 match target, conditionValue with
                 | Arr items, Num n => Z.eqb (Z.of_nat (List.length items)) n
                 | _, _ => false
                 end |}.

(** The embedded members, in the order of the source; [startsWith],
    [endsWith], [includes], [matches], [greaterThan], [lessThan] and
    [between], which come before them there, are the ones left out. *)
Definition all : list IJsonPatternCondition :=
  [equalWith; notEqual; isString; isNumber; isArray; isObject; arrayIncludes; length].

End DefaultConditions.

(** ** Notions used by the statements *)

(** What [evaluateCondition] returns once the condition is chosen. *)
Definition applied (negate : bool) (condition : IJsonPatternCondition)
    (key' : Key) (value target condValue : Value) : bool :=
  let result := action condition key' value target condValue in
  if negate then negb result else result.

(** The name under which [evaluateCondition] looks a spec up. *)
Definition lookupName (cond : string) : string :=
  default (hd "" (JS.split "." cond)) (tl (JS.split "." cond) !! 0%nat).

(** The part of a spec before its first dot. *)
Definition selectorOf (cond : string) : string := hd "" (JS.split "." cond).

(** A spec of a condition set that can hold of no string key: it hands the
    key to its predicate and does not complement the answer, and the
    predicate it names is registered and false on every string target for
    the argument of the spec. *)
Definition rejectsStringKeys (injectedConditions : list IJsonPatternCondition)
    (c : string * Value) : Prop :=
  JS.startsWith (selectorOf (fst c)) "!" = false /\
  JS.endsWith (selectorOf (fst c)) "value" = false /\
  exists condition,
    findCondition (lookupName (fst c)) injectedConditions = Some condition /\
    forall key' value s, action condition key' value (Str s) (snd c) = false.

(** Every spec of the condition set evaluates to true on the entry [k], [v]. *)
Definition holds (injectedConditions : list IJsonPatternCondition)
    (k : string) (v : Value) (conds : list (string * Value)) : Prop :=
  Forall (fun c => evaluateCondition (fst c) (snd c) (KStr k) v injectedConditions
                   = Ok true) conds.

(** The evaluation ran to the end and said yes. *)
Definition isOkTrue (r : Result bool) : bool :=
  match r with
  | Ok true => true
  | _ => false
  end.

(** The token that wraps [content] in parentheses. *)
Definition scoped (content : string) : string := "(" ++ content ++ ")".

(** The character before position [length p] of [p ++ _]. *)
Fixpoint lastChar (prev : option ascii) (p : string) : option ascii :=
  match p with
  | "" => prev
  | String c p' => lastChar (Some c) p'
  end.

(** The name a fixed step looks up; the other steps have none. *)
Definition fixedName (step : PatternStep) : option string :=
  match step with
  | Property name' => Some name'
  | SingleKey k => Some k
  | _ => None
  end.

(** The child of [n] under the key [k]: an array is entered by index, an
    object by name. *)
Definition childAt (n : TraversalNode) (k : Key) : option TraversalNode :=
  match node n, k with
  | Arr items, KNum i => child n k <$> items !! i
  | Obj entries, KStr s => child n k <$> lookupEntry s entries
  | _, _ => None
  end.

(** The node reached from [n] by descending along the keys [ks]. *)
Fixpoint descend (n : TraversalNode) (ks : list Key) : option TraversalNode :=
  match ks with
  | [] => Some n
  | k :: ks' => c ← childAt n k; descend c ks'
  end.

(** The depth [d] is allowed by the bound of a double-star step. *)
Definition withinLimit (limit : option nat) (d : nat) : Prop :=
  match limit with
  | Some m => d <= m
  | None => True
  end.

(** What the queue still holds: the nodes of all its subtrees. *)
Definition weight (queue : list DoubleStarNode) : nat :=
  list_sum (map (fun q => size (node (base q))) queue).

(** Neither path extends the other. *)
Definition incomparable (p q : list Key) : Prop :=
  ~ p `prefix_of` q /\ ~ q `prefix_of` p.

(** No path of the list extends another one. *)
Fixpoint apart (ps : list (list Key)) : Prop :=
  match ps with
  | [] => True
  | p :: ps' => Forall (incomparable p) ps' /\ apart ps'
  end.

(** The keys under which [children] lists the entries of a node. *)
Definition childKeys (n : TraversalNode) : list Key :=
  match node n with
  | Arr items => imap (fun i _ => KNum i) items
  | Obj entries => map (fun e => KStr (fst e)) entries
  | _ => []
  end.

(** The queue after one turn of the loop. *)
Definition afterShift (limit : option nat) (q : DoubleStarNode)
    (rest : list DoubleStarNode) : list DoubleStarNode :=
  if depthReached limit (depth q) then rest else rest ++ enqueue q.

(** What the loop maintains: fuel for everything still on the queue, every
    queued node within the depth bound and keyed uniquely, and no queued
    path extending another. *)
Definition queueOk (limit : option nat) (fuel : nat)
    (queue : list DoubleStarNode) : Prop :=
  weight queue <= fuel /\
  Forall (fun q => withinLimit limit (depth q) /\ uniqueKeys (node (base q)))
         queue /\
  apart (map (fun q => path (base q)) queue).

(** A queued node reaches the nodes of its subtree that lie at most [limit]
    levels below the anchor. *)
Definition reaches (limit : option nat) (q : DoubleStarNode)
    (m : TraversalNode) : Prop :=
  exists ks,
    withinLimit limit (depth q + length ks) /\ descend (base q) ks = Some m.

(** Arrays are no longer than an array can be, at every level. *)
Fixpoint boundedArrays (v : Value) : Prop :=
  match v with
  | Arr items =>
      (N.of_nat (length items) <= 4294967295)%N /\
      fold_right (fun x P => boundedArrays x /\ P) True items
  | Obj entries => fold_right (fun e P => boundedArrays (snd e) /\ P) True entries
  | _ => True
  end.

(** Data as the runtime can hold it. *)
Definition wellFormed (v : Value) : Prop := uniqueKeys v /\ boundedArrays v.

(** The node sits in [data] where its path says, below the parent it
    records. *)
Definition attached (data : Value) (n : TraversalNode) : Prop :=
  valueAt (path n) data = Some (node n) /\
  forall pv, parent n = Some pv -> valueAt (parentPath n) data = Some pv.

(** ** Notions used by the further properties *)

(** A key that the compiler takes as written: no surrounding white space,
    no comma or quote character, and not opening like a wildcard or a
    condition payload. *)
Definition plainKey (k : string) : bool :=
  String.eqb (JS.trim k) k
  && negb (JS.includes k ",")
  && negb (JS.includes k "'")
  && negb (JS.includes k dquote)
  && negb (JS.startsWith k "*")
  && negb (JS.startsWith k "{")
  && negb (JS.startsWith k "[").

(** The two quoted spellings of a key. *)
Definition singleQuoted (k : string) : string := "'" ++ k ++ "'".
Definition doubleQuoted (k : string) : string := dquoteStr ++ k ++ dquoteStr.

(** The deep wildcard written with its bound between the stars. *)
Definition deepWildcard (n : nat) : string := "*" ++ pretty n ++ "*".

(** The errors of the compiler that come from a condition payload the
    external parser rejects. *)
Definition payloadError (jsonParse : string -> option Value) (e : Error)
    : Prop :=
  exists content,
    jsonParse content = None /\
    ((JS.startsWith content "{" = true /\ e = InvalidObjectCondition content) \/
     (JS.startsWith content "[" = true /\ e = InvalidArrayCondition content)).

(** A scanner state with [ss] put before its steps. *)
Definition withSteps (ss : list PatternStep) (st : ParseState) : ParseState :=
  {| steps := ss ++ steps st; current := current st;
     parenDepth := parenDepth st; inQuotes := inQuotes st |}.

(** A segment free of every character the compiler gives a meaning to. *)
Definition plainSegment (t : string) : bool :=
  negb (JS.includes t ".")
  && negb (JS.includes t "(")
  && negb (JS.includes t ")")
  && negb (JS.includes t dquote)
  && negb (JS.includes t "*")
  && negb (JS.includes t "[").

(** The fewest and the most keys a step adds to the path of a node; a
    double-star step without a bound has no most. *)
Definition minGain (step : PatternStep) : nat :=
  match step with
  | DoubleStar _ => 0
  | _ => 1
  end.

Definition maxGain (step : PatternStep) : option nat :=
  match step with
  | DoubleStar limit => limit
  | _ => Some 1
  end.

Definition minLength (steps : list PatternStep) : nat :=
  list_sum (map minGain steps).

Fixpoint maxLength (steps : list PatternStep) : option nat :=
  match steps with
  | [] => Some 0
  | step :: rest => a ← maxGain step; b ← maxLength rest; Some (a + b)
  end.

(** The node is the root, or it records the key and the parent under
    which the data holds it. *)
Definition linked (data : Value) (n : TraversalNode) : Prop :=
  n = rootNode data \/
  exists k pv,
    key n = Some k /\ parent n = Some pv /\
    path n = parentPath n ++ [k] /\
    valueAt (parentPath n) data = Some pv /\
    getMember pv k = Some (node n).


(** No node of the list has a shorter path than one before it. *)
Fixpoint shallowFirst (l : list TraversalNode) : Prop :=
  match l with
  | [] => True
  | n :: l' =>
      Forall (fun m => length (path n) <= length (path m)) l' /\ shallowFirst l'
  end.

(** The names every object inherits from [Object.prototype].  [k in o]
    holds for them whether or not [o] has an entry of its own under [k];
    [getProperty] reads own entries, so it agrees with the runtime on every
    other name. *)
Definition objectPrototypeNames : list string :=
  ["constructor"; "__defineGetter__"; "__defineSetter__"; "hasOwnProperty";
   "__lookupGetter__"; "__lookupSetter__"; "isPrototypeOf";
   "propertyIsEnumerable"; "toString"; "valueOf"; "__proto__";
   "toLocaleString"].

Definition inherited (k : string) : bool :=
  existsb (String.eqb k) objectPrototypeNames.

(** The node has a key, which the root has not. *)
Definition hasKey (n : TraversalNode) : bool :=
  match key n with
  | Some _ => true
  | None => false
  end.

(** Running [next] on the data a first run leaves, unless that run
    raised. *)
Definition andThen (first : Result unit * Value) (next : Mut unit)
    : Result unit * Value :=
  match first with
  | (Ok _, data') => next data'
  | (Err e, data') => (Err e, data')
  end.

(** * Properties *)

(** ** The result monad *)

Lemma bind_Ok {A B : Type} (m : Result A) (f : A -> Result B) (b : B) :
  m ≫= f = Ok b <-> exists a, m = Ok a /\ f a = Ok b.
Proof.
  destruct m as [a|e]; simpl; split.
  - intros H. exists a. split; [reflexivity | exact H].
  - intros (a' & Ha & Hf). congruence.
  - discriminate.
  - intros (a' & Ha & _). discriminate.
Qed.

(** Well-formedness of a value that is written out. *)
Ltac solve_wellFormed :=
  cbn;
  repeat match goal with
         | |- _ /\ _ => split
         | |- True => exact I
         | |- NoDup _ => apply (bool_decide_unpack _); vm_compute; exact I
         | |- (_ <= _)%N => vm_compute; discriminate
         end.

Ltac inv_bind H :=
  let a := fresh "a" in
  let Ha := fresh "Ha" in
  apply bind_Ok in H; destruct H as (a & Ha & H).

(** ** Strings *)

Lemma split_no_separator (sep : ascii) (s : string) :
  JS.includes s sep = false -> JS.split sep s = [s].
Proof.
  induction s as [|c s IH]; simpl; [reflexivity|].
  intros H. apply orb_false_iff in H as [Hc Hs].
  rewrite Ascii.eqb_sym in Hc. rewrite Hc, (IH Hs). reflexivity.
Qed.

Lemma split_at_separator (sep : ascii) (s t : string) :
  JS.includes s sep = false ->
  JS.split sep (s ++ String sep t) = s :: JS.split sep t.
Proof.
  induction s as [|c s IH]; simpl.
  - intros _. rewrite Ascii.eqb_refl. reflexivity.
  - intros H. apply orb_false_iff in H as [Hc Hs].
    rewrite Ascii.eqb_sym in Hc. rewrite Hc, (IH Hs). reflexivity.
Qed.

Lemma split_nonempty (sep : ascii) (s : string) :
  exists h t, JS.split sep s = h :: t.
Proof.
  induction s as [|c s (h & t & IH)]; simpl; [eauto|].
  destruct (Ascii.eqb c sep); [eauto|]. rewrite IH. eauto.
Qed.

Lemma append_empty (s : string) : (s ++ "")%string = s.
Proof.
  induction s as [|c s IH]; [reflexivity|].
  change (String c s ++ "")%string with (String c (s ++ "")).
  rewrite IH. reflexivity.
Qed.

Lemma append_snoc (s u : string) (c : ascii) :
  ((s ++ String c "") ++ u)%string = (s ++ String c u)%string.
Proof.
  induction s as [|d s IH]; [reflexivity|].
  change ((String d s ++ String c "") ++ u)%string
    with (String d ((s ++ String c "") ++ u)).
  rewrite IH. reflexivity.
Qed.

Lemma includes_endsWith (s : string) (c : ascii) :
  JS.includes s c = false -> JS.endsWith s (String c "") = false.
Proof.
  induction s as [|d s IH]; [reflexivity|].
  cbn [JS.includes JS.endsWith]. intros H.
  apply orb_false_iff in H as [Hd Hs]. rewrite (IH Hs), orb_false_r.
  destruct s as [|e s]; cbn [String.eqb].
  - rewrite Ascii.eqb_sym, Hd. reflexivity.
  - apply andb_false_r.
Qed.

(** ** Condition evaluator *)

(** C1, as amended: for a bare condition name, that is a spec without a
    dot that neither starts with "!" nor ends in "value", the predicate
    registered under that name receives the child's key, not its value, as
    its target, and its answer is the result. *)
Theorem bare_condition_targets_key
    (cond : string) (condValue : Value) (key' : Key) (value : Value)
    (injectedConditions : list IJsonPatternCondition)
    (condition : IJsonPatternCondition) :
  JS.includes cond "." = false ->
  JS.startsWith cond "!" = false ->
  JS.endsWith cond "value" = false ->
  findCondition cond injectedConditions = Some condition ->
  evaluateCondition cond condValue key' value injectedConditions =
    Ok (action condition key' value (keyValue key') condValue).
Proof.
  intros Hdot Hbang Hvalue Hfind. unfold evaluateCondition.
  rewrite (split_no_separator _ _ Hdot). cbn [hd tl].
  change (default cond (@nil string !! 0%nat)) with cond.
  rewrite Hfind, Hbang, Hvalue. reflexivity.
Qed.

Lemma bare_condition_targets_key_witness :
  JS.includes "isNumber" "." = false /\
  JS.startsWith "isNumber" "!" = false /\
  JS.endsWith "isNumber" "value" = false /\
  findCondition "isNumber" DefaultConditions.all = Some DefaultConditions.isNumber /\
  evaluateCondition "isNumber" Null (KStr "a") (Num 5) DefaultConditions.all =
    Ok (action DefaultConditions.isNumber (KStr "a") (Num 5) (Str "a") Null).
Proof.
  split; [reflexivity|]. split; [reflexivity|]. split; [reflexivity|].
  split; [reflexivity|].
  exact (bare_condition_targets_key "isNumber" Null (KStr "a") (Num 5)
           DefaultConditions.all DefaultConditions.isNumber
           eq_refl eq_refl eq_refl eq_refl).
Defined.

(** C1, as first stated, fails: the bare spec "isNumber" on the entry
    ["a", 5] is false, although the value 5 is a number; the predicate was
    given the key. *)
Lemma bare_condition_value_target_fails :
  JS.includes "isNumber" "." = false /\
  evaluateCondition "isNumber" Null (KStr "a") (Num 5) [DefaultConditions.isNumber]
    = Ok false /\
  action DefaultConditions.isNumber (KStr "a") (Num 5) (Num 5) Null = true /\
  action DefaultConditions.isNumber (KStr "a") (Num 5) (keyValue (KStr "a")) Null
    = false.
Proof. repeat split; reflexivity. Qed.

(** In the two-part form a leading "!" complements the result. *)
Lemma negation_two_part
    (selector conditionName : string) (condValue : Value) (key' : Key)
    (value : Value) (injectedConditions : list IJsonPatternCondition) :
  JS.includes selector "." = false ->
  JS.startsWith selector "!" = false ->
  evaluateCondition ("!" ++ selector ++ "." ++ conditionName) condValue key' value
    injectedConditions =
  negb <$> evaluateCondition (selector ++ "." ++ conditionName) condValue key' value
    injectedConditions.
Proof.
  intros Hdot Hbang. unfold evaluateCondition.
  change ("!" ++ selector ++ "." ++ conditionName)%string
    with (String "!" selector ++ String "." conditionName)%string.
  change (selector ++ "." ++ conditionName)%string
    with (selector ++ String "." conditionName)%string.
  rewrite !split_at_separator by (simpl; auto).
  simpl hd. simpl tl. rewrite Hbang.
  replace (JS.endsWith (String "!" selector) "value")
    with (JS.endsWith selector "value") by reflexivity.
  replace (JS.startsWith (String "!" selector) "!") with true by reflexivity.
  destruct (split_nonempty "." conditionName) as (nm & rest & ->). simpl.
  destruct (findCondition nm injectedConditions); reflexivity.
Qed.

(** C5: the bare negated form is not evaluated as a complement.  With
    "isNumber" registered, "isNumber" evaluates while "!isNumber" raises: the
    "!" stays in the name that is looked up. *)
Theorem negated_bare_condition_not_found :
  evaluateCondition "isNumber" Null (KStr "a") (Num 5) DefaultConditions.all
    = Ok false /\
  evaluateCondition "!isNumber" Null (KStr "a") (Num 5) DefaultConditions.all
    = Err (ConditionNotFound "!isNumber") /\
  evaluateCondition "!key.isNumber" Null (KStr "a") (Num 5) DefaultConditions.all
    = Ok true.
Proof. repeat split; reflexivity. Qed.

(** ** Pattern compiler *)

Section CompilerFacts.

Variable jsonParse : string -> option Value.

Lemma trim_open_paren (r : string) :
  exists r', JS.trim (String "(" r) = String "(" r'.
Proof.
  unfold JS.trim. cbn [JS.trimStart].
  replace (JS.isWhiteSpace "(") with false by reflexivity.
  cbn [JS.trimEnd]. destruct (JS.trimEnd r); simpl; eauto.
Qed.

(** A token that opens with a parenthesis is compiled without any further
    rewriting. *)
Lemma createStepFrom_open_paren (fuel : nat) (r : string)
    (options : IPatternShortcust) :
  createStepFrom jsonParse (S fuel) (String "(" r) options =
  createStepFrom jsonParse 1 (String "(" r) options.
Proof.
  cbn [createStepFrom].
  destruct (JS.startsWith (String "(" r) "(" && JS.endsWith (String "(" r) ")");
    [reflexivity|].
  destruct (trim_open_paren r) as (r' & ->).
  replace (String.eqb (String "(" r') "*") with false by reflexivity.
  replace (String.eqb (String "(" r') "**") with false by reflexivity.
  replace (JS.startsWith (String "(" r') "[") with false by reflexivity.
  rewrite !andb_false_r. simpl. reflexivity.
Qed.

Lemma createStepFrom_unfold (fuel : nat) (token : string)
    (options : IPatternShortcust) :
  createStepFrom jsonParse (S fuel) token options =
  if JS.startsWith token "(" && JS.endsWith token ")" then
    createScopedStep jsonParse token
      (JS.trim (substring 1 (String.length token - 2) token))
  else if singleStar options && String.eqb (JS.trim token) "*" then
    createStepFrom jsonParse fuel (String "(" (token ++ ")")) options
  else if doubleStar options && String.eqb (JS.trim token) "**" then
    createStepFrom jsonParse fuel (String "(" (token ++ ")")) options
  else if braketScope options
          && JS.startsWith (JS.trim token) "["
          && JS.endsWith (JS.trim token) "]" then
    createStepFrom jsonParse fuel
      (JS.replace (JS.replace (JS.trim token) "[" "(") "]" ")") options
  else Ok (Property token).
Proof. reflexivity. Qed.

(** Two levels of [createStep] are all a token can need. *)
Lemma createStep_fuel (fuel : nat) (token : string) (options : IPatternShortcust) :
  createStepFrom jsonParse (2 + fuel) token options = createStep jsonParse token options.
Proof.
  unfold createStep. change (2 + fuel) with (S (S fuel)).
  rewrite (createStepFrom_unfold (S fuel)), (createStepFrom_unfold 1).
  destruct (JS.startsWith token "(" && JS.endsWith token ")"); [reflexivity|].
  destruct (singleStar options && String.eqb (JS.trim token) "*");
    [apply createStepFrom_open_paren|].
  destruct (doubleStar options && String.eqb (JS.trim token) "**");
    [apply createStepFrom_open_paren|].
  destruct (braketScope options); [|reflexivity]. cbn [andb].
  destruct (JS.trim token) as [|c t]; [reflexivity|].
  destruct (Ascii.eqb c "[") eqn:Hc.
  - apply Ascii.eqb_eq in Hc as ->.
    destruct (JS.startsWith (String "[" t) "[" && JS.endsWith (String "[" t) "]");
      [|reflexivity].
    replace (JS.replace (JS.replace (String "[" t) "[" "(") "]" ")")
      with (String "(" (JS.replace t "]" ")")) by reflexivity.
    apply createStepFrom_open_paren.
  - replace (JS.startsWith (String c t) "[") with false; [reflexivity|].
    cbn [JS.startsWith]. rewrite Hc. reflexivity.
Qed.

(** C3, as amended: the depth-bounded deep wildcard is written with the
    digit between the two stars; that parenthesized token yields a
    double-star step of depth [N], and the token with the digit before the
    two stars yields the single-key step whose key is the digit followed by
    the two stars. *)
Theorem digit_between_stars (N : nat) (options : IPatternShortcust) :
  N < 10 ->
  createStep jsonParse (scoped ("*" ++ pretty N ++ "*")) options
    = Ok (DoubleStar (Some N)) /\
  createStep jsonParse (scoped (pretty N ++ "**")) options
    = Ok (SingleKey (pretty N ++ "**")).
Proof.
  intros HN.
  do 10 (destruct N as [|N]; [split; vm_compute; reflexivity|]).
  lia.
Qed.

End CompilerFacts.

Lemma digit_between_stars_witness :
  7 < 10 /\
  createStep (fun _ => None) (scoped "*7*")
    {| singleStar := true; doubleStar := true; braketScope := false |}
    = Ok (DoubleStar (Some 7)) /\
  createStep (fun _ => None) (scoped "7**")
    {| singleStar := true; doubleStar := true; braketScope := false |}
    = Ok (SingleKey "7**").
Proof.
  split; [lia|].
  exact (digit_between_stars (fun _ => None) 7
           {| singleStar := true; doubleStar := true; braketScope := false |}
           ltac:(lia)).
Defined.

(** C3, as first stated, fails: the token with 2 before the two stars is
    not compiled to a double-star step of depth 2 but to a single-key
    step. *)
Lemma digit_before_stars_is_single_key :
  createStep (fun _ => None) (scoped "2**")
    {| singleStar := true; doubleStar := true; braketScope := false |}
    = Ok (SingleKey "2**") /\
  Ok (SingleKey "2**") <> Ok (DoubleStar (Some 2)).
Proof. split; [reflexivity | discriminate]. Qed.

Section ParserFacts.

Variable jsonParse : string -> option Value.
Variable options : IPatternShortcust.

Lemma parseLoop_append (p q : string) (prev : option ascii) (st : ParseState) :
  parseLoop jsonParse options prev (p ++ q) st =
  st' ← parseLoop jsonParse options prev p st;
  parseLoop jsonParse options (lastChar prev p) q st'.
Proof.
  revert prev st. induction p as [|c p IH]; intros prev st.
  - reflexivity.
  - change (String c p ++ q)%string with (String c (p ++ q)).
    cbn [parseLoop lastChar].
    destruct (parseChar jsonParse options prev c st) as [st1|e]; simpl.
    + apply IH.
    + reflexivity.
Qed.

(** A dot met outside quotes and parentheses closes the current token. *)
Lemma parseChar_separator (prev : option ascii) (st : ParseState) :
  parenDepth st = 0%Z ->
  inQuotes st = false ->
  parseChar jsonParse options prev "." st =
    steps' ← pushCurrent jsonParse options (steps st) (current st);
    Ok {| steps := steps'; current := ""; parenDepth := 0; inQuotes := false |}.
Proof.
  intros Hdepth Hquotes. unfold parseChar. rewrite Hquotes, Hdepth.
  reflexivity.
Qed.

(** Inside an open parenthesis, characters other than the closing
    parenthesis and the quote only extend the current token. *)
Lemma parseLoop_open_paren (u : string) (prev : option ascii) (st : ParseState) :
  inQuotes st = false ->
  (0 < parenDepth st)%Z ->
  JS.includes u ")" = false ->
  JS.includes u dquote = false ->
  exists d,
    (0 < d)%Z /\
    parseLoop jsonParse options prev u st
      = Ok {| steps := steps st; current := current st ++ u; parenDepth := d;
              inQuotes := false |}.
Proof.
  revert prev st. induction u as [|c u IH]; intros prev st Hq Hd Hclose Hquote.
  - exists (parenDepth st). split; [exact Hd|]. cbn [parseLoop].
    rewrite append_empty. destruct st; cbn in *. rewrite Hq. reflexivity.
  - cbn [JS.includes] in Hclose, Hquote.
    apply orb_false_iff in Hclose as [Hc1 Hclose].
    apply orb_false_iff in Hquote as [Hc2 Hquote].
    rewrite Ascii.eqb_sym in Hc1. rewrite Ascii.eqb_sym in Hc2.
    cbn [parseLoop]. unfold parseChar. rewrite Hc1, Hc2, Hq. cbn [andb negb].
    set (d1 := if Ascii.eqb c "(" then (parenDepth st + 1)%Z else parenDepth st).
    assert (Hd1 : (0 < d1)%Z) by (unfold d1; destruct (Ascii.eqb c "("); lia).
    replace (Z.eqb d1 0) with false by (symmetry; apply Z.eqb_neq; lia).
    rewrite andb_false_r. cbn [mbind Result_bind].
    destruct (IH (Some c)
                {| steps := steps st; current := current st ++ String c "";
                   parenDepth := d1; inQuotes := false |}
                eq_refl Hd1 Hclose Hquote) as (d & Hd' & ->).
    exists d. split; [exact Hd'|]. cbn [steps current].
    rewrite append_snoc. reflexivity.
Qed.

(** A token that opens a parenthesis and never closes it is a property
    name. *)
Lemma createStep_unclosed (u : string) :
  JS.includes u ")" = false ->
  createStep jsonParse (String "(" u) options = Ok (Property (String "(" u)).
Proof.
  intros Hclose. unfold createStep. rewrite createStepFrom_unfold.
  replace (JS.endsWith (String "(" u) ")") with false.
  2:{ symmetry. cbn [JS.endsWith].
      replace (String.eqb (String "(" u) ")") with false
        by (destruct u; reflexivity).
      apply includes_endsWith, Hclose. }
  rewrite andb_false_r.
  destruct (trim_open_paren u) as (r & ->).
  replace (String.eqb (String "(" r) "*") with false by reflexivity.
  replace (String.eqb (String "(" r) "**") with false by reflexivity.
  replace (JS.startsWith (String "(" r) "[") with false by reflexivity.
  rewrite !andb_false_r. reflexivity.
Qed.

(** C2, as amended: an unterminated parenthesis at the end of a pattern
    raises nothing.  When the text before it ends outside quotes and
    parentheses and no closing parenthesis or quote follows the opening one,
    the pattern compiles to the steps of that text followed by the property
    step named by the unterminated token, and it fails only where that text
    fails by itself. *)
Theorem unterminated_paren_is_property (p u : string) (st : ParseState) :
  parseLoop jsonParse options None p parseStart = Ok st ->
  parenDepth st = 0%Z ->
  inQuotes st = false ->
  JS.includes u ")" = false ->
  JS.includes u dquote = false ->
  parsePattern jsonParse (p ++ String "." (String "(" u)) options =
    steps' ← parsePattern jsonParse p options;
    Ok (steps' ++ [Property (String "(" u)]).
Proof.
  intros Hloop Hdepth Hquotes Hclose Hquote. unfold parsePattern.
  rewrite parseLoop_append, Hloop.
  cbn [mbind Result_bind parseLoop].
  rewrite (parseChar_separator _ _ Hdepth Hquotes).
  destruct (pushCurrent jsonParse options (steps st) (current st)) as [ss|e];
    [|reflexivity].
  cbn [mbind Result_bind].
  change (parseChar jsonParse options (Some "."%char) "("
            {| steps := ss; current := ""; parenDepth := 0; inQuotes := false |})
    with (Ok {| steps := ss; current := "("; parenDepth := 1;
                inQuotes := false |}).
  cbn [mbind Result_bind].
  destruct (parseLoop_open_paren u (Some "("%char)
              {| steps := ss; current := "("; parenDepth := 1; inQuotes := false |}
              eq_refl ltac:(cbn; lia) Hclose Hquote) as (d & _ & ->).
  cbn [mbind Result_bind steps current].
  change ("(" ++ u)%string with (String "(" u).
  unfold pushCurrent. cbn [JS.isEmpty]. rewrite (createStep_unclosed u Hclose).
  reflexivity.
Qed.

End ParserFacts.

Lemma unterminated_paren_is_property_witness :
  parseLoop (fun _ => None)
    {| singleStar := true; doubleStar := true; braketScope := false |}
    None "a" parseStart
    = Ok {| steps := []; current := "a"; parenDepth := 0; inQuotes := false |} /\
  JS.includes "" ")" = false /\
  JS.includes "" dquote = false /\
  parsePattern (fun _ => None) "a.("
    {| singleStar := true; doubleStar := true; braketScope := false |}
    = Ok [Property "a"; Property "("].
Proof.
  split; [reflexivity|]. split; [reflexivity|]. split; [reflexivity|].
  exact (unterminated_paren_is_property (fun _ => None)
           {| singleStar := true; doubleStar := true; braketScope := false |}
           "a" ""
           {| steps := []; current := "a"; parenDepth := 0; inQuotes := false |}
           eq_refl eq_refl eq_refl eq_refl eq_refl).
Defined.

(** C2, as first stated, fails: the pattern "a.(" compiles without error,
    the traversal runs, and the callback is invoked (here it removes the
    entry it is given). *)
Lemma unterminated_paren_compiles :
  parsePattern (fun _ => None) "a.("
    {| singleStar := true; doubleStar := true; braketScope := false |}
    = Ok [Property "a"; Property "("] /\
  traverseIn (fun _ => None)
    (Obj [("a", Obj [("(", Num 1); ("b", Num 2)])])
    {| injectedConditions := []; shortcuts := None |}
    [PatternString "a.("] [fun n => remove n]
    = (Ok tt, Obj [("a", Obj [("b", Num 2)])]).
Proof. split; reflexivity. Qed.

(** A compile error in a later pattern comes after the callbacks of the
    earlier patterns have run: here, with a parser that rejects the
    condition of the second pattern, the first pattern's callback has
    already removed [a]. *)
Lemma earlier_callbacks_run_before_parse_error :
  traverseIn (fun _ => None)
    (Obj [("a", Num 1); ("b", Num 2)])
    {| injectedConditions := []; shortcuts := None |}
    [PatternString "a"; PatternString "({b})"]
    [fun n => remove n; fun n => remove n]
    = (Err (InvalidObjectCondition "{b}"), Obj [("b", Num 2)]).
Proof. reflexivity. Qed.

(** ** Traversal engine: fixed paths *)

Section FixedPaths.

Variable injectedConditions : list IJsonPatternCondition.

Lemma lookupStep_length (n : TraversalNode) (k : string) :
  length (lookupStep n k) <= 1.
Proof. unfold lookupStep. destruct (getProperty (node n) k); simpl; lia. Qed.

Lemma lookupStep_path (n m : TraversalNode) (k : string) :
  m ∈ lookupStep n k -> path m = path n ++ [KStr k].
Proof.
  unfold lookupStep. destruct (getProperty (node n) k); intros H.
  - apply list_elem_of_singleton in H as ->. reflexivity.
  - apply not_elem_of_nil in H. contradiction.
Qed.

Lemma visit_fixed (step : PatternStep) (k : string) (n : TraversalNode) :
  fixedName step = Some k ->
  visit injectedConditions step n =
    Ok (if isContainer (node n) then lookupStep n k else []).
Proof.
  intros H. unfold visit.
  destruct step; try discriminate H; injection H as ->;
    destruct (isContainer (node n)); reflexivity.
Qed.

Lemma fixed_frontier (steps : list PatternStep) (currentNodes : list TraversalNode)
    (p : list Key) :
  Forall (fun step => is_Some (fixedName step)) steps ->
  length currentNodes <= 1 ->
  (forall n, n ∈ currentNodes -> path n = p) ->
  exists out,
    runSteps injectedConditions steps currentNodes = Ok out /\
    length out <= 1 /\
    forall n, n ∈ out -> path n = p ++ (KStr <$> omap fixedName steps).
Proof.
  intros Hfixed. revert currentNodes p.
  induction Hfixed as [|step steps [k Hk] _ IH]; intros currentNodes p Hlen Hpath.
  - exists currentNodes. simpl. rewrite app_nil_r. auto.
  - cbn [runSteps omap list_omap]. rewrite Hk. cbn [fmap list_fmap].
    destruct currentNodes as [|n [|n' rest]]; [| |simpl in Hlen; lia].
    + cbn [visitAll mbind Result_bind].
      destruct (IH [] (p ++ [KStr k])) as (out & Hrun & Hout & Hp);
        [simpl; lia | intros n Hn; apply not_elem_of_nil in Hn; contradiction |].
      exists out. rewrite <- app_assoc in Hp. auto.
    + cbn [visitAll]. rewrite (visit_fixed _ _ _ Hk).
      cbn [mbind Result_bind]. rewrite app_nil_r.
      destruct (IH (if isContainer (node n) then lookupStep n k else [])
                  (p ++ [KStr k])) as (out & Hrun & Hout & Hp).
      * destruct (isContainer (node n)); [apply lookupStep_length | simpl; lia].
      * intros m Hm. destruct (isContainer (node n)).
        -- rewrite (lookupStep_path _ _ _ Hm), (Hpath n); [reflexivity|].
           apply list_elem_of_here.
        -- apply not_elem_of_nil in Hm. contradiction.
      * exists out. rewrite <- app_assoc in Hp. auto.
Qed.

(** C7: a pattern made of property and single-key steps only ends with at
    most one node in the frontier, and the path of that node is the
    sequence of the step names. *)
Theorem fixed_path_single_match (data : Value) (steps : list PatternStep) :
  Forall (fun step => is_Some (fixedName step)) steps ->
  exists out,
    runSteps injectedConditions steps [rootNode data] = Ok out /\
    length out <= 1 /\
    forall n, n ∈ out -> path n = KStr <$> omap fixedName steps.
Proof.
  intros Hfixed.
  apply (fixed_frontier steps [rootNode data] [] Hfixed).
  - simpl. lia.
  - intros n Hn. apply list_elem_of_singleton in Hn as ->. reflexivity.
Qed.

End FixedPaths.

Lemma fixed_path_single_match_witness :
  Forall (fun step => is_Some (fixedName step)) [Property "profile"; SingleKey "firstName"] /\
  exists out,
    runSteps [] [Property "profile"; SingleKey "firstName"]
      [rootNode (Obj [("profile", Obj [("firstName", Str "Alice")])])] = Ok out /\
    length out <= 1 /\
    forall n, n ∈ out -> path n = [KStr "profile"; KStr "firstName"].
Proof.
  assert (H : Forall (fun step => is_Some (fixedName step))
                [Property "profile"; SingleKey "firstName"]).
  { repeat constructor; eexists; reflexivity. }
  split; [exact H|].
  exact (fixed_path_single_match []
           (Obj [("profile", Obj [("firstName", Str "Alice")])])
           [Property "profile"; SingleKey "firstName"] H).
Defined.

(** ** Traversal engine: condition steps *)

Lemma every_true {A : Type} (f : A -> Result bool) (l : list A) :
  every f l = Ok true <-> Forall (fun x => f x = Ok true) l.
Proof.
  induction l as [|x l IH]; simpl.
  - split; [constructor | reflexivity].
  - split.
    + intros H. inv_bind H. destruct a; [|discriminate H].
      constructor; [exact Ha | apply IH, H].
    + intros H. inversion H as [|? ? Hx Hl]; subst.
      rewrite Hx. simpl. apply IH, Hl.
Qed.

Lemma some_true {A : Type} (f : A -> Result bool) (l : list A) (b : bool) :
  some f l = Ok b -> (b = true <-> Exists (fun x => f x = Ok true) l).
Proof.
  induction l as [|x l IH]; simpl; intros H.
  - injection H as <-. split; [discriminate | intros HE; inversion HE].
  - inv_bind H. destruct a.
    + injection H as <-. split; [intros _; left; exact Ha | reflexivity].
    + destruct (IH H) as [IH1 IH2]. split.
      * intros Hb. right. apply IH1, Hb.
      * intros HE. inversion HE as [? ? Hx|? ? Hl]; subst;
          [congruence | apply IH2, Hl].
Qed.

Lemma isOkTrue_spec (r : Result bool) : isOkTrue r = true <-> r = Ok true.
Proof. destruct r as [[|]|]; simpl; split; congruence. Qed.

Lemma child_inj (n : TraversalNode) (k k' : Key) (v v' : Value) :
  child n k v = child n k' v' -> k = k' /\ v = v'.
Proof. unfold child. intros H. injection H as Hv Hk _. split; congruence. Qed.

Lemma selectEntries_Ok (test : string -> Value -> Result bool) (n : TraversalNode)
    (entries : list (string * Value)) (out : list TraversalNode) :
  selectEntries test n entries = Ok out ->
  Forall (fun e => exists b, test (fst e) (snd e) = Ok b) entries /\
  out = map (fun e => child n (KStr (fst e)) (snd e))
            (List.filter (fun e => isOkTrue (test (fst e) (snd e))) entries).
Proof.
  revert out. induction entries as [|[k v] entries IH]; intros out H.
  - simpl in H. injection H as <-. split; [constructor | reflexivity].
  - cbn [selectEntries] in H. inv_bind H. inv_bind H.
    destruct (IH _ Ha0) as [Hall ->]. split.
    + constructor; [exists a; exact Ha | exact Hall].
    + cbn [List.filter fst snd]. rewrite Ha. injection H as <-.
      destruct a; reflexivity.
Qed.

(** Which entries a condition step pushes, once it has run to the end. *)
Lemma selectEntries_elem (test : string -> Value -> Result bool) (n : TraversalNode)
    (entries : list (string * Value)) (out : list TraversalNode)
    (k : string) (v : Value) :
  selectEntries test n entries = Ok out ->
  (k, v) ∈ entries ->
  (child n (KStr k) v ∈ out <-> test k v = Ok true).
Proof.
  intros H Hin. destruct (selectEntries_Ok _ _ _ _ H) as [_ ->].
  rewrite list_elem_of_In, in_map_iff. split.
  - intros ([k' v'] & Heq & Hf). cbn [fst snd] in Heq.
    apply child_inj in Heq as [Hk Hv]. injection Hk as Hk. subst k' v'.
    apply filter_In in Hf as [_ Hf]. apply isOkTrue_spec, Hf.
  - intros Ht. exists (k, v). split; [reflexivity|].
    apply filter_In. split; [apply list_elem_of_In, Hin|].
    apply isOkTrue_spec, Ht.
Qed.

Section ConditionSteps.

Variable injectedConditions : list IJsonPatternCondition.

Lemma satisfiesAll_true (conds : list (string * Value)) (k : string) (v : Value) :
  satisfiesAll injectedConditions (Obj conds) k v = Ok true <-> holds injectedConditions k v conds.
Proof. unfold satisfiesAll, holds. cbn. apply every_true. Qed.

Lemma satisfiesSome_true (groups : list (list (string * Value))) (k : string)
    (v : Value) (b : bool) :
  satisfiesSome injectedConditions (Arr (map Obj groups)) k v = Ok b ->
  (b = true <-> Exists (holds injectedConditions k v) groups).
Proof.
  unfold satisfiesSome. intros H. apply some_true in H. rewrite H.
  clear H. induction groups as [|g groups IH]; cbn [map].
  - split; intros HE; inversion HE.
  - split; intros HE; inversion HE as [? ? Hg|? ? Hrest]; subst.
    + left. apply satisfiesAll_true, Hg.
    + right. apply IH, Hrest.
    + left. apply satisfiesAll_true, Hg.
    + right. apply IH, Hrest.
Qed.

Lemma selectEntries_all (test : string -> Value -> Result bool) (n : TraversalNode)
    (entries : list (string * Value)) :
  (forall k v, test k v = Ok true) ->
  selectEntries test n entries
    = Ok (map (fun e => child n (KStr (fst e)) (snd e)) entries).
Proof.
  intros Ht. induction entries as [|[k v] entries IH]; [reflexivity|].
  cbn [selectEntries]. rewrite Ht, IH. reflexivity.
Qed.

Lemma selectEntries_none (test : string -> Value -> Result bool) (n : TraversalNode)
    (entries : list (string * Value)) :
  (forall k v, (k, v) ∈ entries -> test k v = Ok false) ->
  selectEntries test n entries = Ok [].
Proof.
  induction entries as [|[k v] entries IH]; intros Ht; [reflexivity|].
  cbn [selectEntries]. rewrite Ht by apply list_elem_of_here.
  rewrite IH; [reflexivity|].
  intros k' v' Hin. apply Ht. apply list_elem_of_further, Hin.
Qed.

Lemma visit_ObjectCond (conditions : Value) (n : TraversalNode)
    (entries : list (string * Value)) :
  isContainer (node n) = true ->
  objectEntries (node n) = Ok entries ->
  visit injectedConditions (ObjectCond conditions) n
    = selectEntries (satisfiesAll injectedConditions conditions) n entries.
Proof. intros Hc He. unfold visit. rewrite Hc, He. reflexivity. Qed.

Lemma visit_ArrayCond (conditions : Value) (n : TraversalNode)
    (entries : list (string * Value)) :
  isContainer (node n) = true ->
  objectEntries (node n) = Ok entries ->
  visit injectedConditions (ArrayCond conditions) n
    = selectEntries (satisfiesSome injectedConditions conditions) n entries.
Proof. intros Hc He. unfold visit. rewrite Hc, He. reflexivity. Qed.

(** C6: on a container node, an object-cond step that runs to the end pushes
    an entry exactly when every spec of its mapping evaluates to true on it,
    and an array-cond step exactly when some group has all of its specs
    evaluate to true; the empty mapping pushes every entry and the empty
    group sequence pushes none. *)
Theorem condition_steps_match (n : TraversalNode) (entries : list (string * Value)) :
  isContainer (node n) = true ->
  objectEntries (node n) = Ok entries ->
  (forall conds out,
     visit injectedConditions (ObjectCond (Obj conds)) n = Ok out ->
     forall k v, (k, v) ∈ entries ->
       (child n (KStr k) v ∈ out <-> holds injectedConditions k v conds)) /\
  (forall groups out,
     visit injectedConditions (ArrayCond (Arr (map Obj groups))) n = Ok out ->
     forall k v, (k, v) ∈ entries ->
       (child n (KStr k) v ∈ out <-> Exists (holds injectedConditions k v) groups)) /\
  visit injectedConditions (ObjectCond (Obj [])) n
    = Ok (map (fun e => child n (KStr (fst e)) (snd e)) entries) /\
  visit injectedConditions (ArrayCond (Arr [])) n = Ok [].
Proof.
  intros Hc He. repeat split.
  - rewrite (visit_ObjectCond _ _ _ Hc He) in H.
    rewrite (selectEntries_elem _ _ _ _ _ _ H H0). apply satisfiesAll_true.
  - rewrite (visit_ObjectCond _ _ _ Hc He) in H.
    rewrite (selectEntries_elem _ _ _ _ _ _ H H0). apply satisfiesAll_true.
  - rewrite (visit_ArrayCond _ _ _ Hc He) in H.
    rewrite (selectEntries_elem _ _ _ _ _ _ H H0). intros Ht.
    apply (satisfiesSome_true _ _ _ _ Ht). reflexivity.
  - rewrite (visit_ArrayCond _ _ _ Hc He) in H. intros HE.
    rewrite (selectEntries_elem _ _ _ _ _ _ H H0).
    destruct (selectEntries_Ok _ _ _ _ H) as [Hall _].
    rewrite Forall_forall in Hall. destruct (Hall _ H0) as [b Hb].
    cbn [fst snd] in Hb. rewrite Hb. f_equal.
    apply (satisfiesSome_true _ _ _ _ Hb), HE.
  - rewrite (visit_ObjectCond _ _ _ Hc He). apply selectEntries_all.
    reflexivity.
  - rewrite (visit_ArrayCond _ _ _ Hc He). apply selectEntries_none.
    reflexivity.
Qed.

End ConditionSteps.

Lemma condition_steps_match_witness :
  let n := rootNode (Obj [("a", Num 1); ("b", Str "x")]) in
  let entries := [("a", Num 1); ("b", Str "x")] in
  isContainer (node n) = true /\
  objectEntries (node n) = Ok entries /\
  visit DefaultConditions.all
    (ObjectCond (Obj [("value.isNumber", Bool true); ("key.equalWith", Str "a")])) n
    = Ok [child n (KStr "a") (Num 1)] /\
  visit DefaultConditions.all
    (ArrayCond (Arr [Obj [("value.isNumber", Bool true)];
                     Obj [("key.equalWith", Str "b")]])) n
    = Ok [child n (KStr "a") (Num 1); child n (KStr "b") (Str "x")] /\
  (forall conds out,
     visit DefaultConditions.all (ObjectCond (Obj conds)) n = Ok out ->
     forall k v, (k, v) ∈ entries ->
       (child n (KStr k) v ∈ out <-> holds DefaultConditions.all k v conds)) /\
  (forall groups out,
     visit DefaultConditions.all (ArrayCond (Arr (map Obj groups))) n = Ok out ->
     forall k v, (k, v) ∈ entries ->
       (child n (KStr k) v ∈ out <-> Exists (holds DefaultConditions.all k v) groups)) /\
  visit DefaultConditions.all (ObjectCond (Obj [])) n
    = Ok (map (fun e => child n (KStr (fst e)) (snd e)) entries) /\
  visit DefaultConditions.all (ArrayCond (Arr [])) n = Ok [].
Proof.
  split; [reflexivity|]. split; [reflexivity|].
  split; [reflexivity|]. split; [reflexivity|].
  exact (condition_steps_match DefaultConditions.all
           (rootNode (Obj [("a", Num 1); ("b", Str "x")]))
           [("a", Num 1); ("b", Str "x")] eq_refl eq_refl).
Defined.

(** ** Traversal engine: keys of array entries *)

Section ArrayKeys.

Variable injectedConditions : list IJsonPatternCondition.

Lemma array_entries_elem (items : list Value) (k : string) (v : Value) :
  (k, v) ∈ imap (fun i x => (pretty i, x)) items <->
  exists i, items !! i = Some v /\ k = pretty i.
Proof.
  rewrite elem_of_lookup_imap. split.
  - intros (i & x & Heq & Hx). injection Heq as -> ->. eauto.
  - intros (i & Hx & ->). eauto.
Qed.

Lemma selectEntries_array (test : string -> Value -> Result bool)
    (n : TraversalNode) (items : list Value) (out : list TraversalNode)
    (m : TraversalNode) :
  selectEntries test n (imap (fun i x => (pretty i, x)) items) = Ok out ->
  (m ∈ out <->
   exists i x, items !! i = Some x /\ test (pretty i) x = Ok true /\
               m = child n (KStr (pretty i)) x).
Proof.
  intros H. destruct (selectEntries_Ok _ _ _ _ H) as [_ Hout]. split.
  - intros Hm. rewrite Hout in Hm.
    apply list_elem_of_In, in_map_iff in Hm as ([k v] & <- & Hf).
    apply filter_In in Hf as [Hin Hf]. cbn [fst snd] in *.
    apply list_elem_of_In, array_entries_elem in Hin as (i & Hx & ->).
    exists i, v. split; [exact Hx|]. split; [apply isOkTrue_spec, Hf | reflexivity].
  - intros (i & x & Hx & Ht & ->).
    apply (selectEntries_elem _ _ _ _ _ _ H); [|exact Ht].
    apply array_entries_elem. eauto.
Qed.

(** A spec that rejects string keys is false on every entry keyed by a
    string. *)
Lemma key_condition_rejecting_strings (c : string * Value) (k : string) (v : Value) :
  rejectsStringKeys injectedConditions c ->
  evaluateCondition (fst c) (snd c) (KStr k) v injectedConditions = Ok false.
Proof.
  intros (Hbang & Hvalue & condition & Hfind & Hrej).
  unfold selectorOf in Hbang, Hvalue. unfold lookupName in Hfind.
  unfold evaluateCondition. cbv zeta.
  rewrite Hfind, Hbang, Hvalue. cbn [keyValue]. rewrite Hrej. reflexivity.
Qed.

(** The strict comparison with a number rejects every string target. *)
Lemma equalWith_rejects_strings (key' : Key) (value : Value) (s : string) (z : Z) :
  action DefaultConditions.equalWith key' value (Str s) (Num z) = false.
Proof. reflexivity. Qed.

(** C10, as amended: on an array node a condition step evaluates its specs
    with, and records in every pushed node, the decimal string of the
    element's index as the key; a single-star step records the index
    itself; hence a spec that hands the key to its predicate, is not
    negated, and whose predicate is false on every string target (as the
    strict comparison with a number is) lets an object-cond step push no
    array entry, and an array-cond step none when every group holds such a
    spec. *)
Theorem array_keys_under_conditions (n : TraversalNode) (items : list Value) :
  node n = Arr items ->
  (forall conds out,
     visit injectedConditions (ObjectCond (Obj conds)) n = Ok out ->
     forall m, m ∈ out <->
       exists i x, items !! i = Some x /\
                   holds injectedConditions (pretty i) x conds /\
                   m = child n (KStr (pretty i)) x) /\
  (forall groups out,
     visit injectedConditions (ArrayCond (Arr (map Obj groups))) n = Ok out ->
     forall m, m ∈ out <->
       exists i x, items !! i = Some x /\
                   Exists (holds injectedConditions (pretty i) x) groups /\
                   m = child n (KStr (pretty i)) x) /\
  visit injectedConditions SingleStar n
    = Ok (imap (fun i x => child n (KNum i) x) items) /\
  (forall conds out,
     Exists (rejectsStringKeys injectedConditions) conds ->
     visit injectedConditions (ObjectCond (Obj conds)) n = Ok out -> out = []) /\
  (forall groups out,
     Forall (Exists (rejectsStringKeys injectedConditions)) groups ->
     visit injectedConditions (ArrayCond (Arr (map Obj groups))) n = Ok out ->
     out = []) /\
  (findCondition "equalWith" injectedConditions = Some DefaultConditions.equalWith ->
   forall z, rejectsStringKeys injectedConditions ("key.equalWith", Num z)).
Proof.
  intros Hn.
  assert (Hc : isContainer (node n) = true) by (rewrite Hn; reflexivity).
  assert (He : objectEntries (node n) = Ok (imap (fun i x => (pretty i, x)) items))
    by (rewrite Hn; reflexivity).
  assert (Hobj : forall conds out,
     visit injectedConditions (ObjectCond (Obj conds)) n = Ok out ->
     forall m, m ∈ out <->
       exists i x, items !! i = Some x /\
                   holds injectedConditions (pretty i) x conds /\
                   m = child n (KStr (pretty i)) x).
  { intros conds out Hv m. rewrite (visit_ObjectCond _ _ _ _ Hc He) in Hv.
    rewrite (selectEntries_array _ _ _ _ m Hv).
    split; intros (i & x & Hx & Ht & Hm); exists i, x;
      (split; [exact Hx|]); (split; [|exact Hm]); apply satisfiesAll_true, Ht. }
  assert (Harr : forall groups out,
     visit injectedConditions (ArrayCond (Arr (map Obj groups))) n = Ok out ->
     forall m, m ∈ out <->
       exists i x, items !! i = Some x /\
                   Exists (holds injectedConditions (pretty i) x) groups /\
                   m = child n (KStr (pretty i)) x).
  { intros groups out Hv m. rewrite (visit_ArrayCond _ _ _ _ Hc He) in Hv.
    rewrite (selectEntries_array _ _ _ _ m Hv).
    destruct (selectEntries_Ok _ _ _ _ Hv) as [Hall _].
    rewrite Forall_forall in Hall.
    split; intros (i & x & Hx & Ht & Hm); exists i, x;
      (split; [exact Hx|]); (split; [|exact Hm]).
    - apply (satisfiesSome_true _ _ _ _ _ Ht). reflexivity.
    - destruct (Hall (pretty i, x)) as [b Hb].
      { apply array_entries_elem. eauto. }
      cbn [fst snd] in Hb. rewrite Hb. f_equal.
      apply (satisfiesSome_true _ _ _ _ _ Hb), Ht. }
  split; [exact Hobj|]. split; [exact Harr|]. split.
  { unfold visit. rewrite Hc. unfold children. rewrite Hn. reflexivity. }
  split; [|split].
  - intros conds out Hex Hv. destruct out as [|m out]; [reflexivity|].
    destruct (proj1 (Hobj conds _ Hv m)) as (i & x & _ & Hholds & _);
      [apply list_elem_of_here|].
    apply Exists_exists in Hex as (c & Hin & Hrej).
    unfold holds in Hholds. rewrite Forall_forall in Hholds.
    specialize (Hholds _ Hin).
    rewrite (key_condition_rejecting_strings _ _ _ Hrej) in Hholds.
    discriminate Hholds.
  - intros groups out Hall Hv. destruct out as [|m out]; [reflexivity|].
    destruct (proj1 (Harr groups _ Hv m)) as (i & x & _ & Hex & _);
      [apply list_elem_of_here|].
    apply Exists_exists in Hex as (conds & Hg & Hholds).
    rewrite Forall_forall in Hall. specialize (Hall _ Hg).
    apply Exists_exists in Hall as (c & Hin & Hrej).
    unfold holds in Hholds. rewrite Forall_forall in Hholds.
    specialize (Hholds _ Hin).
    rewrite (key_condition_rejecting_strings _ _ _ Hrej) in Hholds.
    discriminate Hholds.
  - intros Hfind z. split; [reflexivity|]. split; [reflexivity|].
    exists DefaultConditions.equalWith. split; [exact Hfind|].
    intros key' value s'. reflexivity.
Qed.

End ArrayKeys.

Lemma array_keys_under_conditions_witness :
  let n := child (rootNode (Obj [("scores", Arr [Num 45; Num 78])]))
             (KStr "scores") (Arr [Num 45; Num 78]) in
  node n = Arr [Num 45; Num 78] /\
  visit DefaultConditions.all (ObjectCond (Obj [("key.equalWith", Str "1")])) n
    = Ok [child n (KStr "1") (Num 78)] /\
  visit DefaultConditions.all (ObjectCond (Obj [("key.equalWith", Num 1)])) n
    = Ok [] /\
  visit DefaultConditions.all SingleStar n
    = Ok [child n (KNum 0) (Num 45); child n (KNum 1) (Num 78)] /\
  (forall conds out,
     visit DefaultConditions.all (ObjectCond (Obj conds)) n = Ok out ->
     forall m, m ∈ out <->
       exists i x, [Num 45; Num 78] !! i = Some x /\
                   holds DefaultConditions.all (pretty i) x conds /\
                   m = child n (KStr (pretty i)) x) /\
  (forall groups out,
     visit DefaultConditions.all (ArrayCond (Arr (map Obj groups))) n = Ok out ->
     forall m, m ∈ out <->
       exists i x, [Num 45; Num 78] !! i = Some x /\
                   Exists (holds DefaultConditions.all (pretty i) x) groups /\
                   m = child n (KStr (pretty i)) x) /\
  visit DefaultConditions.all SingleStar n
    = Ok (imap (fun i x => child n (KNum i) x) [Num 45; Num 78]) /\
  (forall conds out,
     Exists (rejectsStringKeys DefaultConditions.all) conds ->
     visit DefaultConditions.all (ObjectCond (Obj conds)) n = Ok out -> out = []) /\
  (forall groups out,
     Forall (Exists (rejectsStringKeys DefaultConditions.all)) groups ->
     visit DefaultConditions.all (ArrayCond (Arr (map Obj groups))) n = Ok out ->
     out = []) /\
  (findCondition "equalWith" DefaultConditions.all = Some DefaultConditions.equalWith ->
   forall z, rejectsStringKeys DefaultConditions.all ("key.equalWith", Num z)).
Proof.
  split; [reflexivity|]. split; [reflexivity|]. split; [reflexivity|].
  split; [reflexivity|].
  exact (array_keys_under_conditions DefaultConditions.all
           (child (rootNode (Obj [("scores", Arr [Num 45; Num 78])]))
              (KStr "scores") (Arr [Num 45; Num 78]))
           [Num 45; Num 78] eq_refl).
Defined.

(** C10, as first stated, fails: a condition that targets the key and
    compares it with a number can match array entries.  The comparison
    for inequality with 1, and the negated comparison for equality with 1,
    each match every entry of a two-element array. *)
Lemma key_comparison_with_number_matches :
  let n := child (rootNode (Obj [("scores", Arr [Num 45; Num 78])]))
             (KStr "scores") (Arr [Num 45; Num 78]) in
  visit DefaultConditions.all (ObjectCond (Obj [("key.notEqual", Num 1)])) n
    = Ok [child n (KStr "0") (Num 45); child n (KStr "1") (Num 78)] /\
  visit DefaultConditions.all (ObjectCond (Obj [("!key.equalWith", Num 1)])) n
    = Ok [child n (KStr "0") (Num 45); child n (KStr "1") (Num 78)].
Proof. split; reflexivity. Qed.

(** ** Traversal engine: the double-star search *)

Lemma size_pos (v : Value) : 1 <= size v.
Proof. destruct v; simpl; lia. Qed.

Lemma uniqueKeys_Arr (items : list Value) :
  uniqueKeys (Arr items) <-> Forall uniqueKeys items.
Proof.
  cbn [uniqueKeys]. induction items as [|x items IH]; cbn [fold_right].
  - split; [constructor | trivial].
  - rewrite Forall_cons, IH. reflexivity.
Qed.

Lemma uniqueKeys_Obj (entries : list (string * Value)) :
  uniqueKeys (Obj entries) <->
  NoDup (map fst entries) /\ Forall (fun e => uniqueKeys (snd e)) entries.
Proof.
  cbn [uniqueKeys].
  assert (H : fold_right (fun e P => uniqueKeys (snd e) /\ P) True entries
              <-> Forall (fun e => uniqueKeys (snd e)) entries).
  { induction entries as [|e entries IH]; cbn [fold_right].
    - split; [constructor | trivial].
    - rewrite Forall_cons, IH. reflexivity. }
  rewrite H. reflexivity.
Qed.

Lemma lookupEntry_elem (k : string) (v : Value) (entries : list (string * Value)) :
  NoDup (map fst entries) ->
  (lookupEntry k entries = Some v <-> (k, v) ∈ entries).
Proof.
  induction entries as [|[k' v'] entries IH]; cbn [map fst lookupEntry]; intros Hnd.
  - split; [discriminate | intros H; apply not_elem_of_nil in H; contradiction].
  - apply NoDup_cons in Hnd as [Hk' Hnd]. rewrite elem_of_cons.
    destruct (String.eqb k k') eqn:Hk.
    + apply String.eqb_eq in Hk as ->. split.
      * intros H. injection H as ->. left. reflexivity.
      * intros [H|H]; [congruence|]. exfalso. apply Hk'.
        apply list_elem_of_In, in_map_iff. exists (k', v).
        split; [reflexivity | apply list_elem_of_In, H].
    + apply String.eqb_neq in Hk. rewrite (IH Hnd). split.
      * intros H. right. exact H.
      * intros [H|H]; [congruence | exact H].
Qed.

Lemma map_imap {A B C : Type} (f : B -> C) (g : nat -> A -> B) (l : list A) :
  map f (imap g l) = imap (fun i x => f (g i x)) l.
Proof.
  revert g. induction l as [|x l IH]; intros g; [reflexivity|].
  cbn [imap map]. rewrite IH. reflexivity.
Qed.

Lemma list_sum_imap {A : Type} (f : A -> nat) (g : nat -> A -> nat) (l : list A) :
  (forall i x, g i x = f x) ->
  list_sum (imap g l) = list_sum (map f l).
Proof.
  revert g. induction l as [|x l IH]; intros g Hg; [reflexivity|].
  cbn [imap map]. rewrite Hg. unfold list_sum. cbn [fold_right]. f_equal.
  apply (IH (g ∘ S)). intros i y. apply Hg.
Qed.

Lemma children_childAt (n c : TraversalNode) :
  uniqueKeys (node n) ->
  (c ∈ children n <-> exists k, childAt n k = Some c).
Proof.
  unfold children, childAt. destruct (node n) as [| | | |items|entries] eqn:Hn;
    intros Hu.
  1-4: split; [intros H; apply not_elem_of_nil in H; contradiction
              | intros [k H]; discriminate H].
  - rewrite elem_of_lookup_imap. split.
    + intros (i & x & -> & Hx). exists (KNum i). rewrite Hx. reflexivity.
    + intros ([s|i] & H); [discriminate H|].
      destruct (items !! i) as [x|] eqn:Hx; [|discriminate H].
      injection H as <-. eauto.
  - apply uniqueKeys_Obj in Hu as [Hnd _].
    rewrite list_elem_of_In, in_map_iff. split.
    + intros ([s x] & <- & Hin). exists (KStr s). cbn [fst snd].
      apply list_elem_of_In, (lookupEntry_elem _ _ _ Hnd) in Hin.
      rewrite Hin. reflexivity.
    + intros ([s|i] & H); [|discriminate H].
      destruct (lookupEntry s entries) as [x|] eqn:Hx; [|discriminate H].
      injection H as <-. exists (s, x). split; [reflexivity|].
      apply list_elem_of_In, (lookupEntry_elem _ _ _ Hnd), Hx.
Qed.

Lemma children_uniqueKeys (n c : TraversalNode) :
  uniqueKeys (node n) -> c ∈ children n -> uniqueKeys (node c).
Proof.
  unfold children. destruct (node n) as [| | | |items|entries]; intros Hu Hc.
  1-4: apply not_elem_of_nil in Hc; contradiction.
  - apply uniqueKeys_Arr in Hu. rewrite Forall_forall in Hu.
    apply elem_of_lookup_imap in Hc as (i & x & -> & Hx).
    apply Hu. apply list_elem_of_lookup_2 in Hx. exact Hx.
  - apply uniqueKeys_Obj in Hu as [_ Hu]. rewrite Forall_forall in Hu.
    apply list_elem_of_In, in_map_iff in Hc as (e & <- & Hin).
    apply (Hu e), list_elem_of_In, Hin.
Qed.

Lemma children_paths (n : TraversalNode) :
  map path (children n) = map (fun k => path n ++ [k]) (childKeys n).
Proof.
  unfold children, childKeys. destruct (node n) as [| | | |items|entries];
    try reflexivity.
  - rewrite !map_imap. reflexivity.
  - rewrite !map_map. reflexivity.
Qed.

#[local] Instance KStr_inj : Inj (=) (=) KStr.
Proof. intros s1 s2 H. injection H as ->. reflexivity. Qed.

Lemma childKeys_NoDup (n : TraversalNode) :
  uniqueKeys (node n) -> NoDup (childKeys n).
Proof.
  unfold childKeys. destruct (node n) as [| | | |items|entries]; intros Hu;
    try apply NoDup_nil_2.
  - apply NoDup_alt. intros i j k Hi Hj.
    rewrite list_lookup_imap in Hi, Hj.
    destruct (items !! i); [|discriminate Hi].
    destruct (items !! j); [|discriminate Hj].
    simpl in Hi, Hj. congruence.
  - apply uniqueKeys_Obj in Hu as [Hnd _].
    rewrite <- (map_map fst KStr).
    apply (NoDup_fmap_2 KStr). exact Hnd.
Qed.

Lemma weight_enqueue (q : DoubleStarNode) :
  S (weight (enqueue q)) = size (node (base q)).
Proof.
  unfold weight, enqueue, children. rewrite map_map. cbn [base].
  destruct (node (base q)) as [| | | |items|entries]; try reflexivity.
  - cbn [size]. f_equal. rewrite map_imap. cbn [child node].
    apply list_sum_imap. reflexivity.
  - cbn [size]. f_equal. rewrite map_map. reflexivity.
Qed.

Lemma weight_app (q1 q2 : list DoubleStarNode) :
  weight (q1 ++ q2) = weight q1 + weight q2.
Proof. unfold weight. rewrite map_app, list_sum_app. reflexivity. Qed.

Lemma childAt_path (n c : TraversalNode) (k : Key) :
  childAt n k = Some c -> path c = path n ++ [k].
Proof.
  unfold childAt. destruct (node n) as [| | | |items|entries]; try discriminate;
    destruct k as [s|i]; try discriminate.
  - destruct (items !! i); [|discriminate].
    intros H. injection H as <-. reflexivity.
  - destruct (lookupEntry s entries); [|discriminate].
    intros H. injection H as <-. reflexivity.
Qed.

Lemma descend_path (ks : list Key) (n m : TraversalNode) :
  descend n ks = Some m -> path m = path n ++ ks.
Proof.
  revert n. induction ks as [|k ks IH]; intros n H.
  - injection H as <-. rewrite app_nil_r. reflexivity.
  - cbn [descend] in H. destruct (childAt n k) as [c|] eqn:Hc; [|discriminate H].
    cbn [mbind option_bind] in H. rewrite (IH _ H), (childAt_path _ _ _ Hc).
    rewrite <- app_assoc. reflexivity.
Qed.

Lemma apart_app (l1 l2 : list (list Key)) :
  apart l1 -> apart l2 ->
  (forall a b, a ∈ l1 -> b ∈ l2 -> incomparable a b) ->
  apart (l1 ++ l2).
Proof.
  induction l1 as [|p l1 IH]; intros H1 H2 Hcross; [exact H2|].
  destruct H1 as [Hp H1]. cbn [app apart]. split.
  - apply Forall_app. split; [exact Hp|].
    apply Forall_forall. intros b Hb. apply Hcross; [apply list_elem_of_here | exact Hb].
  - apply IH; [exact H1 | exact H2 |].
    intros a b Ha Hb. apply Hcross; [apply list_elem_of_further, Ha | exact Hb].
Qed.

Lemma apart_extensions (p : list Key) (keys : list Key) :
  NoDup keys -> apart (map (fun k => p ++ [k]) keys).
Proof.
  induction keys as [|k keys IH]; intros Hnd; [exact I|].
  apply NoDup_cons in Hnd as [Hk Hnd]. cbn [map apart]. split; [|apply IH, Hnd].
  apply Forall_forall. intros q Hq.
  apply list_elem_of_In, in_map_iff in Hq as (k' & <- & Hk').
  assert (Hne : k <> k').
  { intros ->. apply Hk, list_elem_of_In, Hk'. }
  split; intros Hpre; apply prefix_app_inv, prefix_cons_inv_1 in Hpre; congruence.
Qed.

Section DoubleStarSearch.

Variable limit : option nat.

Lemma searchQueue_unfold (fuel : nat) (q : DoubleStarNode)
    (rest : list DoubleStarNode) :
  searchQueue limit (S fuel) (q :: rest)
    = base q :: searchQueue limit fuel (afterShift limit q rest).
Proof. reflexivity. Qed.

Lemma weight_afterShift (q : DoubleStarNode) (rest : list DoubleStarNode) :
  S (weight (afterShift limit q rest)) <= weight (q :: rest).
Proof.
  unfold afterShift. change (weight (q :: rest))
    with (size (node (base q)) + weight rest).
  destruct (depthReached limit (depth q)).
  - pose proof (size_pos (node (base q))). lia.
  - rewrite weight_app, <- (weight_enqueue q). lia.
Qed.

(** Enough fuel: any amount that covers the weight of the queue gives the
    same result. *)
Lemma searchQueue_fuel (fuel1 fuel2 : nat) (queue : list DoubleStarNode) :
  weight queue <= fuel1 -> weight queue <= fuel2 ->
  searchQueue limit fuel1 queue = searchQueue limit fuel2 queue.
Proof.
  revert fuel2 queue. induction fuel1 as [|fuel1 IH]; intros fuel2 queue H1 H2.
  - destruct queue as [|q rest]; [destruct fuel2; reflexivity|].
    change (weight (q :: rest)) with (size (node (base q)) + weight rest) in H1.
    pose proof (size_pos (node (base q))). lia.
  - destruct queue as [|q rest]; [destruct fuel2; reflexivity|].
    pose proof (weight_afterShift q rest) as Hw.
    destruct fuel2 as [|fuel2]; [lia|].
    rewrite !searchQueue_unfold. f_equal. apply IH; lia.
Qed.

Lemma depthReached_false (d : nat) :
  depthReached limit d = false -> withinLimit limit (S d).
Proof.
  unfold depthReached, withinLimit. destruct limit as [m|]; [|trivial].
  intros H. apply Nat.leb_gt in H. lia.
Qed.

Lemma enqueue_elem (q c : DoubleStarNode) :
  c ∈ enqueue q <-> base c ∈ children (base q) /\ depth c = S (depth q).
Proof.
  unfold enqueue. rewrite list_elem_of_In, in_map_iff. split.
  - intros (x & <- & Hx). split; [apply list_elem_of_In, Hx | reflexivity].
  - intros [Hc Hd]. exists (base c). split; [|apply list_elem_of_In, Hc].
    destruct c as [b d]. cbn [base depth] in *. rewrite Hd. reflexivity.
Qed.

Lemma queueOk_afterShift (fuel : nat) (q : DoubleStarNode)
    (rest : list DoubleStarNode) :
  queueOk limit (S fuel) (q :: rest) -> queueOk limit fuel (afterShift limit q rest).
Proof.
  intros (Hw & Hall & Hapart).
  apply Forall_cons in Hall as [[Hq Hu] Hall].
  cbn [map apart] in Hapart. destruct Hapart as [Hinc Hapart].
  split; [pose proof (weight_afterShift q rest); lia|].
  unfold afterShift. destruct (depthReached limit (depth q)) eqn:Hd;
    [split; assumption|].
  split.
  - apply Forall_app. split; [exact Hall|].
    apply Forall_forall. intros c Hc. apply enqueue_elem in Hc as [Hc Hdc].
    split; [rewrite Hdc; apply depthReached_false, Hd|].
    apply (children_uniqueKeys _ _ Hu Hc).
  - rewrite map_app. apply apart_app; [exact Hapart | |].
    + unfold enqueue. rewrite map_map. cbn [base].
      change (map (fun x => path x) (children (base q)))
        with (map path (children (base q))).
      rewrite children_paths. apply apart_extensions, childKeys_NoDup, Hu.
    + intros a b Ha Hb. rewrite Forall_forall in Hinc. specialize (Hinc _ Ha).
      destruct Hinc as [Hqa Haq].
      unfold enqueue in Hb. rewrite map_map in Hb. cbn [base] in Hb.
      change (map (fun x => path x) (children (base q)))
        with (map path (children (base q))) in Hb.
      rewrite children_paths in Hb.
      apply list_elem_of_In, in_map_iff in Hb as (k & <- & _).
      split.
      * intros Hpre.
        destruct (prefix_weak_total a (path (base q)) (path (base q) ++ [k]))
          as [H|H]; [exact Hpre | apply prefix_app_r; reflexivity | | ];
          contradiction.
      * intros Hpre. apply prefix_app_l in Hpre. contradiction.
Qed.

Lemma reaches_unfold (q : DoubleStarNode) (m : TraversalNode) :
  withinLimit limit (depth q) ->
  uniqueKeys (node (base q)) ->
  (reaches limit q m <->
   m = base q \/
   (depthReached limit (depth q) = false /\ Exists (fun c => reaches limit c m) (enqueue q))).
Proof.
  intros Hq Hu. split.
  - intros ([|k ks] & Hlim & Hdesc).
    + left. injection Hdesc as <-. reflexivity.
    + right. cbn [descend] in Hdesc.
      destruct (childAt (base q) k) as [c|] eqn:Hc; [|discriminate Hdesc].
      cbn [mbind option_bind] in Hdesc. split.
      * unfold depthReached, withinLimit in *. destruct limit as [mx|]; [|reflexivity].
        apply Nat.leb_gt. cbn [length] in Hlim. lia.
      * apply Exists_exists. exists {| base := c; depth := S (depth q) |}. split.
        -- apply enqueue_elem. split; [|reflexivity].
           apply (children_childAt _ _ Hu). eauto.
        -- exists ks. split; [|exact Hdesc].
           cbn [depth length] in *.
           replace (S (depth q) + length ks) with (depth q + S (length ks)) by lia.
           exact Hlim.
  - intros [->|[Hd Hex]].
    + exists []. split; [|reflexivity]. cbn [length].
      rewrite Nat.add_0_r. exact Hq.
    + apply Exists_exists in Hex as (c & Hc & ks & Hlim & Hdesc).
      apply enqueue_elem in Hc as [Hc Hdc].
      apply (children_childAt _ _ Hu) in Hc as [k Hk].
      exists (k :: ks). split.
      * cbn [length]. rewrite Hdc in Hlim.
        replace (depth q + S (length ks)) with (S (depth q) + length ks) by lia.
        exact Hlim.
      * cbn [descend]. rewrite Hk. exact Hdesc.
Qed.

Lemma queueOk_nil (queue : list DoubleStarNode) : queueOk limit 0 queue -> queue = [].
Proof.
  intros (Hw & _). destruct queue as [|q rest]; [reflexivity|].
  change (weight (q :: rest)) with (size (node (base q)) + weight rest) in Hw.
  pose proof (size_pos (node (base q))). lia.
Qed.

(** The nodes the loop pushes are those the queued nodes reach. *)
Lemma searchQueue_elem (fuel : nat) (queue : list DoubleStarNode)
    (m : TraversalNode) :
  queueOk limit fuel queue ->
  (m ∈ searchQueue limit fuel queue <-> Exists (fun q => reaches limit q m) queue).
Proof.
  revert queue. induction fuel as [|fuel IH]; intros queue Hok.
  - rewrite (queueOk_nil _ Hok). cbn [searchQueue]. split.
    + intros H. apply not_elem_of_nil in H. contradiction.
    + intros H. inversion H.
  - destruct queue as [|q rest].
    { cbn [searchQueue]. split.
      + intros H. apply not_elem_of_nil in H. contradiction.
      + intros H. inversion H. }
    pose proof (queueOk_afterShift _ _ _ Hok) as Hnext.
    destruct Hok as (_ & Hall & _).
    apply Forall_cons in Hall as [[Hq Hu] _].
    rewrite searchQueue_unfold, elem_of_cons, (IH _ Hnext), Exists_cons.
    rewrite (reaches_unfold q m Hq Hu). unfold afterShift.
    destruct (depthReached limit (depth q)).
    + split; [intros [H|H]; auto | intros [[H|[H _]]|H]; auto; discriminate H].
    + rewrite Exists_app. split.
      * intros [H|[H|H]]; auto.
      * intros [[H|[_ H]]|H]; auto.
Qed.

(** No node is pushed twice. *)
Lemma searchQueue_NoDup (fuel : nat) (queue : list DoubleStarNode) :
  queueOk limit fuel queue -> NoDup (searchQueue limit fuel queue).
Proof.
  revert queue. induction fuel as [|fuel IH]; intros queue Hok.
  - apply NoDup_nil_2.
  - destruct queue as [|q rest]; [apply NoDup_nil_2|].
    pose proof (queueOk_afterShift _ _ _ Hok) as Hnext.
    rewrite searchQueue_unfold. apply NoDup_cons. split; [|apply IH, Hnext].
    rewrite (searchQueue_elem _ _ _ Hnext). intros Hex.
    apply Exists_exists in Hex as (y & Hy & ks & _ & Hdesc).
    apply descend_path in Hdesc.
    assert (Hpre : path (base y) `prefix_of` path (base q)).
    { exists ks. exact Hdesc. }
    destruct Hok as (_ & _ & Hapart). cbn [map apart] in Hapart.
    destruct Hapart as [Hinc _]. rewrite Forall_forall in Hinc.
    assert (Hrest : y ∈ rest -> False).
    { intros Hin. destruct (Hinc (path (base y))) as [_ Hno]; [|contradiction].
      apply list_elem_of_In, in_map_iff. exists y.
      split; [reflexivity | apply list_elem_of_In, Hin]. }
    unfold afterShift in Hy. destruct (depthReached limit (depth q)); [auto|].
    apply elem_of_app in Hy as [Hy|Hy]; [auto|].
    apply enqueue_elem in Hy as [Hy _].
    assert (Hp : path (base y) ∈ map path (children (base q))).
    { apply list_elem_of_In, in_map. apply list_elem_of_In, Hy. }
    rewrite children_paths in Hp.
    apply list_elem_of_In, in_map_iff in Hp as (k & Hk & _).
    rewrite <- Hk in Hpre. apply prefix_snoc_not in Hpre. exact Hpre.
Qed.

End DoubleStarSearch.

(** C4: a double-star step anchored at a container pushes the anchor and the
    nodes reached from it by descending at most [limit] levels (any number of
    levels without a limit), each of them once, and nothing else. *)
Theorem double_star_emits (injectedConditions : list IJsonPatternCondition)
    (limit : option nat) (n : TraversalNode) :
  isContainer (node n) = true ->
  uniqueKeys (node n) ->
  exists out,
    visit injectedConditions (DoubleStar limit) n = Ok out /\
    NoDup out /\
    forall m, m ∈ out <->
      exists ks, withinLimit limit (length ks) /\ descend n ks = Some m.
Proof.
  intros Hc Hu. unfold visit. rewrite Hc. cbn [negb].
  exists (doubleStarFrom limit n). split; [reflexivity|].
  assert (Hok : queueOk limit (size (node n)) [{| base := n; depth := 0 |}]).
  { split; [|split].
    - unfold weight. cbn. lia.
    - constructor; [|constructor]. cbn [base depth]. split; [|exact Hu].
      unfold withinLimit. destruct limit; [lia | trivial].
    - cbn. split; [constructor | trivial]. }
  split.
  - apply (searchQueue_NoDup _ _ _ Hok).
  - intros m. unfold doubleStarFrom.
    rewrite (searchQueue_elem _ _ _ m Hok), Exists_cons, Exists_nil.
    unfold reaches. cbn [base depth]. split.
    + intros [H|[]]. exact H.
    + intros H. left. exact H.
Qed.

Lemma double_star_emits_witness :
  let data := Obj [("a", Obj [("b", Obj [("c", Num 1)]); ("d", Arr [Num 2])])] in
  isContainer (node (rootNode data)) = true /\
  uniqueKeys (node (rootNode data)) /\
  map path (doubleStarFrom (Some 1) (rootNode data))
    = [[]; [KStr "a"]] /\
  map path (doubleStarFrom (Some 2) (rootNode data))
    = [[]; [KStr "a"]; [KStr "a"; KStr "b"]; [KStr "a"; KStr "d"]] /\
  exists out,
    visit [] (DoubleStar (Some 2)) (rootNode data) = Ok out /\
    NoDup out /\
    forall m, m ∈ out <->
      exists ks, withinLimit (Some 2) (length ks) /\ descend (rootNode data) ks = Some m.
Proof.
  assert (Hu : uniqueKeys
                 (Obj [("a", Obj [("b", Obj [("c", Num 1)]); ("d", Arr [Num 2])])])).
  { solve_wellFormed. }
  split; [reflexivity|]. split; [exact Hu|].
  split; [reflexivity|]. split; [reflexivity|].
  exact (double_star_emits [] (Some 2)
           (rootNode (Obj [("a", Obj [("b", Obj [("c", Num 1)]); ("d", Arr [Num 2])])]))
           eq_refl Hu).
Defined.

(** ** Decimal index names *)

Lemma parseDigits_append (s1 s2 : string) (acc : nat) :
  JS.parseDigits acc (s1 ++ s2) = JS.parseDigits (JS.parseDigits acc s1) s2.
Proof.
  revert acc. induction s1 as [|c s1 IH]; intros acc; [reflexivity|].
  change (String c s1 ++ s2)%string with (String c (s1 ++ s2)).
  cbn [JS.parseDigits]. apply IH.
Qed.

Lemma allDigits_append (s1 s2 : string) :
  JS.allDigits (s1 ++ s2) = JS.allDigits s1 && JS.allDigits s2.
Proof.
  induction s1 as [|c s1 IH]; [reflexivity|].
  change (String c s1 ++ s2)%string with (String c (s1 ++ s2)).
  cbn [JS.allDigits]. rewrite IH, andb_assoc. reflexivity.
Qed.

Lemma pretty_N_char_digit (d : N) :
  (d < 10)%N ->
  JS.isDigit (pretty_N_char d) = true /\
  nat_of_ascii (pretty_N_char d) - 48 = N.to_nat d.
Proof.
  intros Hd. assert (H : exists n, n < 10 /\ d = N.of_nat n).
  { exists (N.to_nat d). split; [lia | rewrite N2Nat.id; reflexivity]. }
  destruct H as (n & Hn & ->).
  do 10 (destruct n as [|n]; [split; reflexivity|]). lia.
Qed.

Lemma pretty_N_go_append (x : N) (s : string) :
  pretty_N_go x s = (pretty_N_go x "" ++ s)%string.
Proof.
  revert s. induction (N.lt_wf_0 x) as [x _ IH]; intros s.
  destruct (decide (0 < x)%N) as [Hx|Hx].
  - rewrite !(pretty_N_go_step x) by exact Hx.
    rewrite (IH (x `div` 10)%N) by (apply N.div_lt; lia).
    rewrite (IH (x `div` 10)%N ltac:(apply N.div_lt; lia) (String _ "")).
    rewrite append_snoc. reflexivity.
  - replace x with 0%N by lia. rewrite !pretty_N_go_0. reflexivity.
Qed.

Lemma pretty_N_go_digits (x : N) :
  JS.parseDigits 0 (pretty_N_go x "") = N.to_nat x /\
  JS.allDigits (pretty_N_go x "") = true /\
  ((0 < x)%N -> JS.isEmpty (pretty_N_go x "") = false).
Proof.
  induction (N.lt_wf_0 x) as [x _ IH].
  destruct (decide (0 < x)%N) as [Hx|Hx].
  - rewrite (pretty_N_go_step x) by exact Hx. rewrite pretty_N_go_append.
    destruct (IH (x `div` 10)%N) as (Hp & Ha & _); [apply N.div_lt; lia|].
    destruct (pretty_N_char_digit (x `mod` 10)) as [Hd Hv];
      [apply N.mod_lt; lia|].
    rewrite parseDigits_append, allDigits_append, Hp, Ha.
    cbn [JS.parseDigits JS.allDigits]. rewrite Hd, Hv. repeat split.
    + pose proof (N.div_mod x 10 ltac:(lia)). lia.
    + intros _. destruct (pretty_N_go (x `div` 10) ""); reflexivity.
  - replace x with 0%N by lia. rewrite pretty_N_go_0. repeat split. lia.
Qed.

Lemma arrayIndex_pretty (i : nat) :
  (N.of_nat i < 4294967295)%N -> arrayIndex (pretty i) = Some i.
Proof.
  intros Hi.
  assert (H : JS.parseInt (pretty i) = i /\ JS.allDigits (pretty i) = true /\
              JS.isEmpty (pretty i) = false).
  { unfold pretty, pretty_nat, pretty, pretty_N, JS.parseInt.
    destruct (decide (N.of_nat i = 0)%N) as [H0|H0].
    - assert (i = 0) as -> by lia. repeat split; reflexivity.
    - destruct (pretty_N_go_digits (N.of_nat i)) as (Hp & Ha & He).
      rewrite Hp, Ha, He by lia. rewrite Nat2N.id. repeat split. }
  destruct H as (Hp & Ha & He). unfold arrayIndex.
  rewrite Hp, Ha, He, String.eqb_refl. cbn [negb andb].
  apply N.ltb_lt in Hi. rewrite Hi. reflexivity.
Qed.

Lemma pretty_allDigits (i : nat) : JS.allDigits (pretty i) = true.
Proof.
  unfold pretty, pretty_nat, pretty, pretty_N.
  destruct (decide (N.of_nat i = 0)%N); [reflexivity|].
  apply pretty_N_go_digits.
Qed.

(** ** Traversal engine: the nodes of a frontier are attached to the data *)

Lemma boundedArrays_Arr (items : list Value) :
  boundedArrays (Arr items) <->
  (N.of_nat (length items) <= 4294967295)%N /\ Forall boundedArrays items.
Proof.
  cbn [boundedArrays].
  assert (H : fold_right (fun x P => boundedArrays x /\ P) True items
              <-> Forall boundedArrays items).
  { induction items as [|x items IH]; cbn [fold_right].
    - split; [constructor | trivial].
    - rewrite Forall_cons, IH. reflexivity. }
  rewrite H. reflexivity.
Qed.

Lemma boundedArrays_Obj (entries : list (string * Value)) :
  boundedArrays (Obj entries) <-> Forall (fun e => boundedArrays (snd e)) entries.
Proof.
  cbn [boundedArrays]. induction entries as [|e entries IH]; cbn [fold_right].
  - split; [constructor | trivial].
  - rewrite Forall_cons, IH. reflexivity.
Qed.

Lemma lookupEntry_Some (k : string) (v : Value) (entries : list (string * Value)) :
  lookupEntry k entries = Some v -> (k, v) ∈ entries.
Proof.
  induction entries as [|[k' v'] entries IH]; cbn [lookupEntry]; [discriminate|].
  destruct (String.eqb k k') eqn:Hk.
  - apply String.eqb_eq in Hk as ->. intros H. injection H as ->.
    apply list_elem_of_here.
  - intros H. apply list_elem_of_further, IH, H.
Qed.

Lemma getMember_KStr (v : Value) (s : string) :
  getMember v (KStr s) = getProperty v s.
Proof. destruct v; reflexivity. Qed.

Lemma wellFormed_member (v v' : Value) (k : Key) :
  wellFormed v -> getMember v k = Some v' -> wellFormed v'.
Proof.
  intros [Hu Hb] Hget. destruct v as [| | | |items|entries];
    try (destruct k; discriminate Hget).
  - apply uniqueKeys_Arr in Hu. apply boundedArrays_Arr in Hb as [_ Hb].
    rewrite Forall_forall in Hu, Hb.
    assert (Hcase : v' ∈ items \/ exists z, v' = Num z).
    { destruct k as [s|i]; cbn [getMember getProperty keyName] in Hget.
      - destruct (String.eqb s "length"); [injection Hget as <-; eauto|].
        destruct (arrayIndex s) as [i|]; [|discriminate Hget].
        left. apply (list_elem_of_lookup_2 _ i), Hget.
      - left. apply (list_elem_of_lookup_2 _ i), Hget. }
    destruct Hcase as [Hin|[z ->]]; [|split; exact I].
    split; [apply Hu, Hin | apply Hb, Hin].
  - apply uniqueKeys_Obj in Hu as [_ Hu]. apply boundedArrays_Obj in Hb.
    rewrite Forall_forall in Hu, Hb.
    assert (Hin : (keyName k, v') ∈ entries).
    { apply lookupEntry_Some. destruct k; exact Hget. }
    split; [apply (Hu _ Hin) | apply (Hb _ Hin)].
Qed.

Lemma wellFormed_valueAt (p : list Key) (v v' : Value) :
  wellFormed v -> valueAt p v = Some v' -> wellFormed v'.
Proof.
  revert v. induction p as [|k p IH]; intros v Hw H.
  - injection H as <-. exact Hw.
  - cbn [valueAt] in H. destruct (getMember v k) as [x|] eqn:Hx; [|discriminate H].
    apply (IH x); [apply (wellFormed_member _ _ _ Hw Hx) | exact H].
Qed.

Lemma valueAt_app (p q : list Key) (v : Value) :
  valueAt (p ++ q) v = v' ← valueAt p v; valueAt q v'.
Proof.
  revert v. induction p as [|k p IH]; intros v; [reflexivity|].
  cbn [app valueAt]. destruct (getMember v k); [apply IH | reflexivity].
Qed.

Lemma child_attached (data : Value) (n : TraversalNode) (k : Key) (v : Value) :
  attached data n -> getMember (node n) k = Some v -> attached data (child n k v).
Proof.
  intros [Hn _] Hget. unfold attached, child, parentPath. cbn [path node parent].
  split.
  - rewrite valueAt_app, Hn. cbn [mbind option_bind valueAt]. rewrite Hget.
    reflexivity.
  - intros pv Hpv. injection Hpv as <-. rewrite removelast_last. exact Hn.
Qed.

Lemma entries_member (v : Value) (entries : list (string * Value))
    (k : string) (x : Value) :
  wellFormed v -> isContainer v = true -> objectEntries v = Ok entries ->
  (k, x) ∈ entries -> getMember v (KStr k) = Some x.
Proof.
  intros [Hu Hb] Hc He Hin. rewrite getMember_KStr.
  destruct v as [| | | |items|es]; try discriminate Hc;
    cbn [objectEntries] in He; injection He as <-.
  - apply elem_of_lookup_imap in Hin as (i & y & Heq & Hy).
    injection Heq as -> ->. cbn [getProperty].
    replace (String.eqb (pretty i) "length") with false.
    2:{ symmetry. apply String.eqb_neq. intros Heq.
        pose proof (pretty_allDigits i) as Hd. rewrite Heq in Hd. discriminate Hd. }
    apply boundedArrays_Arr in Hb as [Hlen _].
    apply lookup_lt_Some in Hy as Hlt.
    rewrite arrayIndex_pretty by lia. exact Hy.
  - apply uniqueKeys_Obj in Hu as [Hnd _]. cbn [getProperty].
    apply (lookupEntry_elem _ _ _ Hnd), Hin.
Qed.

Lemma children_member (n c : TraversalNode) :
  wellFormed (node n) -> c ∈ children n ->
  exists k v, c = child n k v /\ getMember (node n) k = Some v.
Proof.
  intros [Hu _] Hc. apply (children_childAt _ _ Hu) in Hc as [k Hk].
  unfold childAt in Hk. destruct (node n) as [| | | |items|entries];
    try discriminate Hk; destruct k as [s|i]; try discriminate Hk.
  - destruct (items !! i) as [x|] eqn:Hx; [|discriminate Hk].
    injection Hk as <-. exists (KNum i), x. split; [reflexivity | exact Hx].
  - destruct (lookupEntry s entries) as [x|] eqn:Hx; [|discriminate Hk].
    injection Hk as <-. exists (KStr s), x. split; [reflexivity | exact Hx].
Qed.

Lemma lookupStep_member (n c : TraversalNode) (k : string) :
  c ∈ lookupStep n k ->
  exists v, c = child n (KStr k) v /\ getMember (node n) (KStr k) = Some v.
Proof.
  unfold lookupStep. rewrite getMember_KStr.
  destruct (getProperty (node n) k) as [v|]; intros H.
  - apply list_elem_of_singleton in H as ->. eauto.
  - apply not_elem_of_nil in H. contradiction.
Qed.

Section Attached.
Variable injectedConditions : list IJsonPatternCondition.
Variable data : Value.
Hypothesis data_wellFormed : wellFormed data.

Lemma attached_wellFormed (n : TraversalNode) :
  attached data n -> wellFormed (node n).
Proof. intros [Hn _]. apply (wellFormed_valueAt _ _ _ data_wellFormed Hn). Qed.

Lemma children_attached (n : TraversalNode) :
  attached data n -> Forall (attached data) (children n).
Proof.
  intros Hn. apply Forall_forall. intros c Hc.
  destruct (children_member _ _ (attached_wellFormed _ Hn) Hc) as (k & v & -> & Hget).
  apply (child_attached _ _ _ _ Hn Hget).
Qed.

Lemma searchQueue_attached (limit : option nat) (fuel : nat)
    (queue : list DoubleStarNode) :
  Forall (fun q => attached data (base q)) queue ->
  Forall (attached data) (searchQueue limit fuel queue).
Proof.
  revert queue. induction fuel as [|fuel IH]; intros queue Hq; [constructor|].
  destruct queue as [|q rest]; [constructor|].
  apply Forall_cons in Hq as [Hq Hrest]. cbn [searchQueue].
  constructor; [exact Hq|]. apply IH.
  destruct (depthReached limit (depth q)); [exact Hrest|].
  apply Forall_app. split; [exact Hrest|].
  unfold enqueue. apply Forall_forall. intros c Hc.
  apply list_elem_of_In, in_map_iff in Hc as (x & <- & Hx). cbn [base].
  pose proof (children_attached _ Hq) as Hall. rewrite Forall_forall in Hall.
  apply Hall, list_elem_of_In, Hx.
Qed.

Lemma selectEntries_attached (test : string -> Value -> Result bool)
    (n : TraversalNode) (entries : list (string * Value)) (out : list TraversalNode) :
  attached data n -> isContainer (node n) = true ->
  objectEntries (node n) = Ok entries ->
  selectEntries test n entries = Ok out ->
  Forall (attached data) out.
Proof.
  intros Hn Hc He Hsel. destruct (selectEntries_Ok _ _ _ _ Hsel) as [_ ->].
  apply Forall_forall. intros c Hin.
  apply list_elem_of_In, in_map_iff in Hin as ([k v] & <- & Hf).
  apply filter_In in Hf as [Hin _]. cbn [fst snd].
  apply (child_attached _ _ _ _ Hn).
  apply (entries_member _ _ _ _ (attached_wellFormed _ Hn) Hc He).
  apply list_elem_of_In, Hin.
Qed.

Lemma lookupStep_attached (n : TraversalNode) (k : string) :
  attached data n -> Forall (attached data) (lookupStep n k).
Proof.
  intros Hn. apply Forall_forall. intros c Hc.
  destruct (lookupStep_member _ _ _ Hc) as (v & -> & Hget).
  apply (child_attached _ _ _ _ Hn Hget).
Qed.

Lemma visit_attached (step : PatternStep) (n : TraversalNode)
    (out : list TraversalNode) :
  attached data n -> visit injectedConditions step n = Ok out ->
  Forall (attached data) out.
Proof.
  intros Hn. unfold visit. destruct (isContainer (node n)) eqn:Hc; cbn [negb].
  2:{ intros H. injection H as <-. constructor. }
  destruct step as [nm| |limit|k|ks|conds|conds]; intros H.
  - injection H as <-. apply lookupStep_attached, Hn.
  - injection H as <-. apply children_attached, Hn.
  - injection H as <-. apply searchQueue_attached.
    constructor; [exact Hn | constructor].
  - injection H as <-. apply lookupStep_attached, Hn.
  - injection H as <-. apply Forall_forall. intros c Hin.
    apply list_elem_of_In, in_flat_map in Hin as (k & _ & Hin).
    pose proof (lookupStep_attached n k Hn) as Hall.
    rewrite Forall_forall in Hall. apply Hall, list_elem_of_In, Hin.
  - inv_bind H. apply (selectEntries_attached _ _ _ _ Hn Hc Ha H).
  - inv_bind H. apply (selectEntries_attached _ _ _ _ Hn Hc Ha H).
Qed.

Lemma visitAll_attached (step : PatternStep) (currentNodes out : list TraversalNode) :
  Forall (attached data) currentNodes ->
  visitAll injectedConditions step currentNodes = Ok out ->
  Forall (attached data) out.
Proof.
  revert out. induction currentNodes as [|n rest IH]; intros out Hall H.
  - injection H as <-. constructor.
  - apply Forall_cons in Hall as [Hn Hrest]. cbn [visitAll] in H.
    inv_bind H. inv_bind H. injection H as <-. apply Forall_app. split.
    + apply (visit_attached _ _ _ Hn Ha).
    + apply (IH _ Hrest Ha0).
Qed.

Lemma runSteps_attached (steps : list PatternStep)
    (currentNodes out : list TraversalNode) :
  Forall (attached data) currentNodes ->
  runSteps injectedConditions steps currentNodes = Ok out ->
  Forall (attached data) out.
Proof.
  revert currentNodes. induction steps as [|step steps IH]; intros currentNodes Hall H.
  - injection H as <-. exact Hall.
  - cbn [runSteps] in H. inv_bind H.
    apply (IH a); [apply (visitAll_attached _ _ _ Hall Ha) | exact H].
Qed.

Lemma frontier_attached (steps : list PatternStep) (out : list TraversalNode) :
  runSteps injectedConditions steps [rootNode data] = Ok out ->
  Forall (attached data) out.
Proof.
  apply runSteps_attached. constructor; [|constructor].
  split; [reflexivity | discriminate].
Qed.
End Attached.

(** ** Mutation surface *)

Lemma lookupEntry_update (k : string) (g : Value -> Value)
    (entries : list (string * Value)) :
  lookupEntry k
    (map (fun e => if String.eqb (fst e) k then (fst e, g (snd e)) else e) entries)
  = g <$> lookupEntry k entries.
Proof.
  induction entries as [|[k' v] entries IH]; [reflexivity|].
  cbn [map fst snd]. rewrite (String.eqb_sym k' k).
  destruct (String.eqb k k') eqn:Hk; cbn [lookupEntry]; rewrite Hk;
    [reflexivity | exact IH].
Qed.

(** Reading back the container that [updateAt] rewrote. *)
Lemma valueAt_updateAt (p : list Key) (f : Value -> Value) (v : Value)
    (entries : list (string * Value)) :
  valueAt p v = Some (Obj entries) ->
  valueAt p (updateAt p f v) = Some (f (Obj entries)).
Proof.
  revert v. induction p as [|k p IH]; intros v H.
  - simpl in *. congruence.
  - cbn [valueAt updateAt] in *.
    destruct v as [| | | |items|es]; try (destruct k; discriminate H).
    + assert (Hi : exists i x, indexOf k = Some i /\ items !! i = Some x /\
                               getMember (Arr items) k = Some x).
      { destruct k as [s|i]; cbn [getMember getProperty keyName indexOf] in *.
        - destruct (String.eqb s "length").
          { destruct p; simpl in H; discriminate H. }
          destruct (arrayIndex s) as [i|]; [|discriminate H].
          cbn [mbind option_bind] in H.
          destruct (items !! i) as [x|] eqn:Hx; [|discriminate H]. eauto.
        - destruct (items !! i) as [x|] eqn:Hx; [|discriminate H]. eauto. }
      destruct Hi as (i & x & Hi & Hx & Hget). rewrite Hget in H.
      cbn [mbind option_bind] in H. rewrite Hi.
      assert (Hget' : getMember (Arr (alter (updateAt p f) i items)) k
                      = Some (updateAt p f x)).
      { assert (Hlk : alter (updateAt p f) i items !! i = Some (updateAt p f x)).
        { rewrite list_lookup_alter, Hx.
          destruct (decide (i = i)) as [_|Hne]; [reflexivity | contradiction]. }
        destruct k as [s|j]; cbn [getMember getProperty keyName indexOf] in *.
        - destruct (String.eqb s "length").
          { injection Hget as <-. destruct p; simpl in H; discriminate H. }
          rewrite Hi. cbn [mbind option_bind]. exact Hlk.
        - injection Hi as ->. exact Hlk. }
      rewrite Hget'. cbn [mbind option_bind]. apply IH, H.
    + assert (Hget : getMember (Obj es) k = lookupEntry (keyName k) es)
        by (destruct k; reflexivity).
      rewrite Hget in H.
      assert (Hget' : forall es', getMember (Obj es') k = lookupEntry (keyName k) es')
        by (intros es'; destruct k; reflexivity).
      rewrite Hget', lookupEntry_update.
      destruct (lookupEntry (keyName k) es) as [x|]; [|discriminate H].
      cbn [fmap option_fmap option_map mbind option_bind] in *.
      apply IH, H.
Qed.

Lemma deleteEntry_assignEntry (k : string) (v : Value)
    (entries : list (string * Value)) :
  deleteEntry k (assignEntry k v entries) = deleteEntry k entries.
Proof.
  unfold assignEntry, deleteEntry.
  assert (Hmap : List.filter (fun e => negb (String.eqb (fst e) k))
                   (map (fun e => if String.eqb (fst e) k then (k, v) else e) entries)
                 = List.filter (fun e => negb (String.eqb (fst e) k)) entries).
  { induction entries as [|[k' x] entries IH]; [reflexivity|].
    cbn [map List.filter fst]. destruct (String.eqb k' k) eqn:Hk.
    - cbn [fst]. rewrite String.eqb_refl. exact IH.
    - cbn [fst]. rewrite Hk. cbn [negb]. rewrite IH. reflexivity. }
  assert (Hins : forall i es,
             List.filter (fun e => negb (String.eqb (fst e) k))
               (insertIndexed i k v es)
             = List.filter (fun e => negb (String.eqb (fst e) k)) es).
  { intros i es. induction es as [|e es IH].
    - cbn [insertIndexed List.filter fst]. rewrite String.eqb_refl. reflexivity.
    - cbn [insertIndexed].
      destruct (arrayIndex (fst e)) as [j|];
        [destruct (Nat.ltb j i)|];
        cbn [List.filter fst]; rewrite ?String.eqb_refl, ?IH; reflexivity. }
  destruct (hasEntry k entries); [exact Hmap|].
  destruct (arrayIndex k) as [i|]; [apply Hins|].
  rewrite List.filter_app. cbn [List.filter fst].
  rewrite String.eqb_refl. cbn [negb]. apply app_nil_r.
Qed.

Lemma lookupEntry_deleteEntry (k k' : string) (entries : list (string * Value)) :
  lookupEntry k' (deleteEntry k entries) =
    if String.eqb k' k then None else lookupEntry k' entries.
Proof.
  unfold deleteEntry. induction entries as [|[k0 x] entries IH].
  - simpl. destruct (String.eqb k' k); reflexivity.
  - cbn [List.filter fst]. destruct (String.eqb k0 k) eqn:H0; cbn [negb lookupEntry].
    + apply String.eqb_eq in H0 as ->. rewrite IH.
      destruct (String.eqb k' k); reflexivity.
    + destruct (String.eqb k' k0) eqn:H1; [|exact IH].
      apply String.eqb_eq in H1 as ->. rewrite H0. reflexivity.
Qed.

(** C8: for a node whose parent is an array, matched or not, [setKey],
    [remove] and [removeNears] each raise the rename error and leave the
    whole data tree, the array included, as it was. *)
Theorem array_parent_mutators_raise (n : TraversalNode) (items : list Value)
    (newKey : string) (data : Value) :
  parent n = Some (Arr items) ->
  setKey n newKey data = (Err CannotRename, data) /\
  remove n data = (Err CannotRename, data) /\
  removeNears n data = (Err CannotRename, data).
Proof.
  intros Hparent. unfold setKey, remove, removeNears, onObjectParent.
  rewrite Hparent. repeat split; reflexivity.
Qed.

(** Renaming a node to the key it already has, when an object sits at its
    parent path. *)
Lemma setKey_same_key_at (n : TraversalNode) (k : string)
    (captured entries : list (string * Value)) (data : Value) :
  key n = Some (KStr k) ->
  parent n = Some (Obj captured) ->
  valueAt (parentPath n) data = Some (Obj entries) ->
  exists data',
    setKey n k data = (Ok tt, data') /\
    valueAt (parentPath n) data' = Some (Obj (deleteEntry k entries)) /\
    lookupEntry k (deleteEntry k entries) = None /\
    forall k', k' <> k ->
      lookupEntry k' (deleteEntry k entries) = lookupEntry k' entries.
Proof.
  intros Hkey Hparent Hat. unfold setKey, onObjectParent.
  rewrite Hparent, Hkey. cbn [keyString keyName].
  eexists. split; [reflexivity|]. split; [|split].
  - rewrite (valueAt_updateAt _ _ _ _ Hat), deleteEntry_assignEntry. reflexivity.
  - rewrite lookupEntry_deleteEntry, String.eqb_refl. reflexivity.
  - intros k' Hne. rewrite lookupEntry_deleteEntry.
    apply String.eqb_neq in Hne. rewrite Hne. reflexivity.
Qed.

Lemma array_parent_mutators_raise_witness :
  matchPattern (fun _ => None) {| injectedConditions := []; shortcuts := None |}
    (PatternString "users.*")
    (Obj [("users", Arr [Str "Alice"; Str "Bob"])])
  = Ok [ {| node := Str "Alice"; parent := Some (Arr [Str "Alice"; Str "Bob"]);
            key := Some (KNum 0); path := [KStr "users"; KNum 0] |};
         {| node := Str "Bob"; parent := Some (Arr [Str "Alice"; Str "Bob"]);
            key := Some (KNum 1); path := [KStr "users"; KNum 1] |} ] /\
  let n := {| node := Str "Alice"; parent := Some (Arr [Str "Alice"; Str "Bob"]);
              key := Some (KNum 0); path := [KStr "users"; KNum 0] |} in
  let data := Obj [("users", Arr [Str "Alice"; Str "Bob"])] in
  setKey n "first" data = (Err CannotRename, data) /\
  remove n data = (Err CannotRename, data) /\
  removeNears n data = (Err CannotRename, data).
Proof.
  split; [reflexivity|].
  exact (array_parent_mutators_raise
           {| node := Str "Alice"; parent := Some (Arr [Str "Alice"; Str "Bob"]);
              key := Some (KNum 0); path := [KStr "users"; KNum 0] |}
           [Str "Alice"; Str "Bob"] "first"
           (Obj [("users", Arr [Str "Alice"; Str "Bob"])]) eq_refl).
Defined.

(** C9: for a matched node whose parent is an object, renaming the node to
    the key it already has succeeds and leaves the parent, read back in the
    data, without that entry; the other entries are kept. *)
Theorem setKey_same_key_deletes (injectedConditions : list IJsonPatternCondition)
    (data : Value) (steps : list PatternStep) (out : list TraversalNode)
    (n : TraversalNode) (k : string) (entries : list (string * Value)) :
  wellFormed data ->
  runSteps injectedConditions steps [rootNode data] = Ok out ->
  n ∈ out ->
  key n = Some (KStr k) ->
  parent n = Some (Obj entries) ->
  exists data',
    setKey n k data = (Ok tt, data') /\
    valueAt (parentPath n) data' = Some (Obj (deleteEntry k entries)) /\
    lookupEntry k (deleteEntry k entries) = None /\
    forall k', k' <> k ->
      lookupEntry k' (deleteEntry k entries) = lookupEntry k' entries.
Proof.
  intros Hw Hrun Hin Hkey Hparent.
  pose proof (frontier_attached injectedConditions data Hw steps out Hrun) as Hall.
  rewrite Forall_forall in Hall. destruct (Hall n Hin) as [_ Hp].
  apply (setKey_same_key_at n k entries entries data Hkey Hparent).
  apply Hp, Hparent.
Qed.

Lemma setKey_same_key_deletes_witness :
  let data := Obj [("profile", Obj [("firstName", Str "Alice"); ("age", Num 30)])] in
  let entries := [("firstName", Str "Alice"); ("age", Num 30)] in
  let n := {| node := Str "Alice"; parent := Some (Obj entries);
              key := Some (KStr "firstName");
              path := [KStr "profile"; KStr "firstName"] |} in
  wellFormed data /\
  runSteps [] [Property "profile"; Property "firstName"] [rootNode data] = Ok [n] /\
  n ∈ [n] /\
  setKey n "firstName" data = (Ok tt, Obj [("profile", Obj [("age", Num 30)])]) /\
  exists data',
    setKey n "firstName" data = (Ok tt, data') /\
    valueAt (parentPath n) data' = Some (Obj (deleteEntry "firstName" entries)) /\
    lookupEntry "firstName" (deleteEntry "firstName" entries) = None /\
    forall k', k' <> "firstName" ->
      lookupEntry k' (deleteEntry "firstName" entries) = lookupEntry k' entries.
Proof.
  assert (Hw : wellFormed
                 (Obj [("profile", Obj [("firstName", Str "Alice"); ("age", Num 30)])])).
  { split; solve_wellFormed. }
  split; [exact Hw|]. split; [reflexivity|].
  split; [apply list_elem_of_here|]. split; [reflexivity|].
  exact (setKey_same_key_deletes []
           (Obj [("profile", Obj [("firstName", Str "Alice"); ("age", Num 30)])])
           [Property "profile"; Property "firstName"]
           [ {| node := Str "Alice";
                parent := Some (Obj [("firstName", Str "Alice"); ("age", Num 30)]);
                key := Some (KStr "firstName");
                path := [KStr "profile"; KStr "firstName"] |} ]
           {| node := Str "Alice";
              parent := Some (Obj [("firstName", Str "Alice"); ("age", Num 30)]);
              key := Some (KStr "firstName");
              path := [KStr "profile"; KStr "firstName"] |}
           "firstName"
           [("firstName", Str "Alice"); ("age", Num 30)]
           Hw eq_refl ltac:(apply list_elem_of_here) eq_refl eq_refl).
Defined.

(** * Further properties *)

(** ** Strings: trimming, splitting and joining *)

Lemma append_cons (c : ascii) (s t : string) :
  (String c s ++ t)%string = String c (s ++ t).
Proof. reflexivity. Qed.

Lemma length_append (s t : string) :
  String.length (s ++ t) = String.length s + String.length t.
Proof.
  induction s as [|c s IH]; [reflexivity|].
  rewrite append_cons. cbn [String.length]. rewrite IH. reflexivity.
Qed.

Lemma substring_prefix (s t : string) :
  substring 0 (String.length s) (s ++ t) = s.
Proof.
  induction s as [|c s IH].
  - destruct t; reflexivity.
  - rewrite append_cons. cbn [String.length substring]. rewrite IH. reflexivity.
Qed.

Lemma substring_scoped (content : string) :
  substring 1 (String.length (scoped content) - 2) (scoped content) = content.
Proof.
  change (scoped content) with (String "(" (content ++ ")")).
  cbn [String.length substring]. rewrite length_append. cbn [String.length].
  replace (S (String.length content + 1) - 2) with (String.length content) by lia.
  apply substring_prefix.
Qed.

Lemma endsWith_suffix (s suf : string) : JS.endsWith (s ++ suf) suf = true.
Proof.
  induction s as [|c s IH].
  - change (JS.endsWith suf suf = true).
    destruct suf as [|d suf]; cbn [JS.endsWith]; rewrite String.eqb_refl;
      reflexivity.
  - rewrite append_cons. cbn [JS.endsWith]. rewrite IH. apply orb_true_r.
Qed.

Lemma scoped_shape (content : string) :
  JS.startsWith (scoped content) "(" && JS.endsWith (scoped content) ")" = true.
Proof.
  change (scoped content) with (String "(" (content ++ ")")).
  cbn [JS.startsWith]. replace (Ascii.eqb "(" "(") with true by reflexivity.
  cbn [andb].
  change (String "(" (content ++ ")")) with ((String "(" content) ++ ")")%string.
  apply endsWith_suffix.
Qed.

Lemma removeLast_snoc (s : string) (c : ascii) :
  JS.removeLast (s ++ String c "") = s.
Proof.
  induction s as [|d s IH]; [reflexivity|].
  rewrite append_cons. cbn [JS.removeLast]. rewrite IH.
  destruct s; reflexivity.
Qed.

Lemma trimEnd_snoc (s : string) (c : ascii) :
  JS.isWhiteSpace c = false -> JS.trimEnd (s ++ String c "") = (s ++ String c "")%string.
Proof.
  intros Hc. induction s as [|d s IH].
  - change (JS.trimEnd (String c "") = String c ""). cbn [JS.trimEnd].
    rewrite Hc. reflexivity.
  - rewrite append_cons. cbn [JS.trimEnd]. rewrite IH.
    destruct s; reflexivity.
Qed.

Lemma trim_wrapped (a b : ascii) (s : string) :
  JS.isWhiteSpace a = false -> JS.isWhiteSpace b = false ->
  JS.trim (String a (s ++ String b "")) = String a (s ++ String b "").
Proof.
  intros Ha Hb. unfold JS.trim. cbn [JS.trimStart]. rewrite Ha.
  change (String a (s ++ String b "")) with ((String a s) ++ String b "")%string.
  apply trimEnd_snoc, Hb.
Qed.

Lemma includes_append (s t : string) (c : ascii) :
  JS.includes (s ++ t) c = JS.includes s c || JS.includes t c.
Proof.
  induction s as [|d s IH]; [reflexivity|].
  rewrite append_cons. cbn [JS.includes]. rewrite IH, orb_assoc. reflexivity.
Qed.

Lemma startsWith_includes (s : string) (c : ascii) :
  JS.includes s c = false -> JS.startsWith s (String c "") = false.
Proof.
  destruct s as [|d s]; [reflexivity|]. cbn [JS.includes JS.startsWith].
  intros H. apply orb_false_iff in H as [H _].
  rewrite Ascii.eqb_sym, H. reflexivity.
Qed.

Lemma replace_absent (s : string) (a b : ascii) :
  JS.includes s a = false -> JS.replace s a b = s.
Proof.
  induction s as [|d s IH]; [reflexivity|]. cbn [JS.includes JS.replace].
  intros H. apply orb_false_iff in H as [Hd Hs].
  rewrite Ascii.eqb_sym, Hd, (IH Hs). reflexivity.
Qed.

Lemma includes_trimStart (s : string) (c : ascii) :
  JS.includes s c = false -> JS.includes (JS.trimStart s) c = false.
Proof.
  induction s as [|d s IH]; [reflexivity|]. cbn [JS.includes JS.trimStart].
  intros H. destruct (JS.isWhiteSpace d); [|exact H].
  apply orb_false_iff in H as [_ Hs]. apply IH, Hs.
Qed.

Lemma includes_trimEnd (s : string) (c : ascii) :
  JS.includes s c = false -> JS.includes (JS.trimEnd s) c = false.
Proof.
  induction s as [|d s IH]; [reflexivity|]. cbn [JS.includes JS.trimEnd].
  intros H. apply orb_false_iff in H as [Hd Hs]. specialize (IH Hs).
  destruct (JS.trimEnd s) as [|e t].
  - destruct (JS.isWhiteSpace d); [reflexivity|].
    cbn [JS.includes]. rewrite Hd. reflexivity.
  - cbn [JS.includes] in *. rewrite Hd. exact IH.
Qed.

Lemma includes_trim (s : string) (c : ascii) :
  JS.includes s c = false -> JS.includes (JS.trim s) c = false.
Proof. intros H. apply includes_trimEnd, includes_trimStart, H. Qed.

Lemma join_cons (sep s s' : string) (l : list string) :
  JS.join sep (s :: s' :: l) = (s ++ sep ++ JS.join sep (s' :: l))%string.
Proof. reflexivity. Qed.

(** [split] and [join] are inverse to each other. *)
Lemma join_split (c : ascii) (s : string) :
  JS.join (String c "") (JS.split c s) = s.
Proof.
  induction s as [|d s IH]; [reflexivity|]. cbn [JS.split].
  destruct (split_nonempty c s) as (h & t & Hs). rewrite Hs in *.
  destruct (Ascii.eqb d c) eqn:Hd.
  - apply Ascii.eqb_eq in Hd as ->. rewrite join_cons, IH. reflexivity.
  - destruct t as [|h' t].
    + cbn [JS.join] in *. rewrite IH. reflexivity.
    + rewrite join_cons in *. rewrite append_cons, IH. reflexivity.
Qed.

Lemma split_join (c : ascii) (l : list string) :
  l <> [] ->
  Forall (fun s => JS.includes s c = false) l ->
  JS.split c (JS.join (String c "") l) = l.
Proof.
  intros Hne Hall. induction Hall as [|s l Hs Hall IH]; [contradiction|].
  destruct l as [|s' l].
  - cbn [JS.join]. apply split_no_separator, Hs.
  - rewrite join_cons.
    change (s ++ String c "" ++ JS.join (String c "") (s' :: l))%string
      with (s ++ String c (JS.join (String c "") (s' :: l)))%string.
    rewrite (split_at_separator _ _ _ Hs), IH; [reflexivity | discriminate].
Qed.

(** ** Pattern compiler: the spellings of keys *)

Lemma trimStart_length (s : string) :
  String.length (JS.trimStart s) <= String.length s.
Proof.
  induction s as [|c s IH]; [reflexivity|]. cbn [JS.trimStart].
  destruct (JS.isWhiteSpace c); cbn [String.length]; lia.
Qed.

Lemma trimEnd_length (s : string) :
  String.length (JS.trimEnd s) <= String.length s.
Proof.
  induction s as [|c s IH]; [reflexivity|]. cbn [JS.trimEnd].
  destruct (JS.trimEnd s); [destruct (JS.isWhiteSpace c)|];
    cbn [String.length] in *; lia.
Qed.

Lemma trim_fixed (s : string) :
  JS.trim s = s -> JS.trimStart s = s /\ JS.trimEnd s = s.
Proof.
  intros H. assert (Hs : JS.trimStart s = s).
  { pose proof (trimEnd_length (JS.trimStart s)) as H1.
    unfold JS.trim in H. rewrite H in H1.
    destruct s as [|c s]; [reflexivity|]. cbn [JS.trimStart] in *.
    destruct (JS.isWhiteSpace c); [|reflexivity].
    pose proof (trimStart_length s). cbn [String.length] in H1. lia. }
  split; [exact Hs|]. unfold JS.trim in H. rewrite Hs in H. exact H.
Qed.

Lemma trimStart_append (s t : string) :
  JS.trimStart s = s -> JS.trimStart t = t -> JS.trimStart (s ++ t) = (s ++ t)%string.
Proof.
  intros Hs Ht. destruct s as [|c s]; [exact Ht|].
  rewrite append_cons. cbn [JS.trimStart] in *.
  destruct (JS.isWhiteSpace c); [|reflexivity].
  pose proof (trimStart_length s) as H. rewrite Hs in H.
  cbn [String.length] in H. lia.
Qed.

Lemma trimEnd_append (s t : string) :
  JS.trimEnd t = t -> t <> "" -> JS.trimEnd (s ++ t) = (s ++ t)%string.
Proof.
  intros Ht Hne. induction s as [|c s IH]; [exact Ht|].
  rewrite append_cons. cbn [JS.trimEnd]. rewrite IH.
  destruct s; [|reflexivity]. destruct t; [contradiction | reflexivity].
Qed.

Lemma trimEnd_cons (c : ascii) (s : string) :
  JS.isWhiteSpace c = false -> JS.trimEnd s = s ->
  JS.trimEnd (String c s) = String c s.
Proof.
  intros Hc Hs. cbn [JS.trimEnd]. rewrite Hs, Hc. destruct s; reflexivity.
Qed.

Lemma startsWith_append (s t : string) (c : ascii) :
  JS.startsWith s (String c "") = false ->
  JS.startsWith t (String c "") = false ->
  JS.startsWith (s ++ t) (String c "") = false.
Proof. intros Hs Ht. destruct s; [exact Ht | exact Hs]. Qed.

Lemma startsWith_star (s : string) :
  JS.startsWith s "*" = false ->
  String.eqb s "*" = false /\ regxOfNumberBetweenDubble s = None.
Proof.
  destruct s as [|a s]; [split; reflexivity|].
  destruct a as [[] [] [] [] [] [] [] []]; cbn [JS.startsWith];
    try (intros _; split; reflexivity).
  replace (Ascii.eqb "*" "*") with true by reflexivity. discriminate.
Qed.

Lemma endsWith_wrapped (a b : ascii) (s : string) :
  JS.endsWith (String a (s ++ String b "")) (String b "") = true.
Proof. apply (endsWith_suffix (String a s) (String b "")). Qed.

(** *** Key lists joined by commas *)

Lemma join_trimEnd (ks : list string) :
  Forall (fun k => JS.trimEnd k = k) ks ->
  JS.trimEnd (JS.join "," ks) = JS.join "," ks.
Proof.
  induction 1 as [|k ks Hk Hks IH]; [reflexivity|].
  destruct ks as [|k' ks]; [exact Hk|]. rewrite join_cons.
  apply trimEnd_append; [|discriminate].
  apply (trimEnd_cons ","); [reflexivity | exact IH].
Qed.

Lemma join_includes (k k' : string) (ks : list string) :
  JS.includes (JS.join "," (k :: k' :: ks)) "," = true.
Proof.
  rewrite join_cons, includes_append.
  replace (JS.includes ("," ++ JS.join "," (k' :: ks)) ",") with true
    by reflexivity.
  apply orb_true_r.
Qed.

Lemma plainKey_spec (k : string) :
  plainKey k = true ->
  JS.trim k = k /\ JS.includes k "," = false /\ JS.includes k "'" = false /\
  JS.includes k dquote = false /\ JS.startsWith k "*" = false /\
  JS.startsWith k "{" = false /\ JS.startsWith k "[" = false.
Proof.
  unfold plainKey. rewrite !andb_true_iff, !negb_true_iff, String.eqb_eq.
  tauto.
Qed.

Lemma repairKey_plain (k part : string) :
  JS.includes k "'" = false -> JS.includes k dquote = false ->
  repairKey k part = doubleQuoted part.
Proof.
  intros Hs Hd. unfold repairKey, isInStringScope, dquoteStr.
  cbn [isInDoubleQute isInSingleQute].
  rewrite (startsWith_includes _ _ Hs), (startsWith_includes _ _ Hd).
  reflexivity.
Qed.

Lemma doubleQuoted_unwrap (k : string) :
  JS.slice1 (JS.trim (doubleQuoted k)) = k.
Proof.
  unfold doubleQuoted, dquoteStr.
  change (String dquote "" ++ k ++ String dquote "")%string
    with (String dquote (k ++ String dquote "")).
  rewrite trim_wrapped by reflexivity. cbn [JS.slice1].
  apply removeLast_snoc.
Qed.

Lemma doubleQuoted_includes (k : string) (c : ascii) :
  Ascii.eqb dquote c = false ->
  JS.includes (doubleQuoted k) c = JS.includes k c.
Proof.
  intros Hc. unfold doubleQuoted, dquoteStr.
  rewrite !includes_append. cbn [JS.includes]. rewrite Ascii.eqb_sym, Hc.
  destruct (JS.includes k c); reflexivity.
Qed.

(** *** Compiling one parenthesized token *)

Section KeyTokens.

Variable jsonParse : string -> option Value.
Variable options : IPatternShortcust.

Lemma createStep_scoped (content : string) :
  createStep jsonParse (scoped content) options =
  createScopedStep jsonParse (scoped content) (JS.trim content).
Proof.
  unfold createStep. rewrite createStepFrom_unfold, scoped_shape.
  rewrite substring_scoped. reflexivity.
Qed.

Lemma createScopedStep_single (token content : string) :
  JS.startsWith content "*" = false ->
  JS.startsWith content "{" = false ->
  JS.startsWith content "[" = false ->
  JS.includes content "," = false ->
  createScopedStep jsonParse token content =
  Ok (SingleKey (JS.slice1 (repairKey content content))).
Proof.
  intros Hstar Hobj Harr Hcomma. unfold createScopedStep.
  destruct (startsWith_star _ Hstar) as [-> ->].
  rewrite Hobj, Harr, Hcomma. reflexivity.
Qed.

Lemma createScopedStep_multi (token content : string) :
  JS.startsWith content "*" = false ->
  JS.startsWith content "{" = false ->
  JS.startsWith content "[" = false ->
  JS.includes content "," = true ->
  createScopedStep jsonParse token content =
  Ok (MultiKey
        (map (fun s => JS.slice1 (JS.trim s))
           (JS.split ","
              (JS.join ","
                 (map (fun part => repairKey (JS.trim part) part)
                    (JS.split "," content)))))).
Proof.
  intros Hstar Hobj Harr Hcomma. unfold createScopedStep.
  destruct (startsWith_star _ Hstar) as [-> ->].
  rewrite Hobj, Harr, Hcomma. reflexivity.
Qed.

(** X1: a plain key may be written bare, in single quotes or in double
    quotes inside the parentheses; the three spellings compile to the same
    single-key step. *)
Theorem key_spellings_agree (k : string) :
  plainKey k = true ->
  createStep jsonParse (scoped k) options = Ok (SingleKey k) /\
  createStep jsonParse (scoped (singleQuoted k)) options = Ok (SingleKey k) /\
  createStep jsonParse (scoped (doubleQuoted k)) options = Ok (SingleKey k).
Proof.
  intros Hk.
  destruct (plainKey_spec k Hk) as (Ht & Hc & Hs & Hd & Hstar & Hobj & Harr).
  repeat split; rewrite createStep_scoped.
  - rewrite Ht, createScopedStep_single by assumption.
    rewrite repairKey_plain by assumption.
    rewrite <- (doubleQuoted_unwrap k) at 2.
    unfold doubleQuoted, dquoteStr.
    change (String dquote "" ++ k ++ String dquote "")%string
      with (String dquote (k ++ String dquote "")).
    rewrite trim_wrapped by reflexivity. reflexivity.
  - unfold singleQuoted.
    change ("'" ++ k ++ "'")%string with (String "'" (k ++ "'")).
    rewrite trim_wrapped by reflexivity.
    rewrite createScopedStep_single; try reflexivity.
    + unfold repairKey, isInStringScope. cbn [isInDoubleQute].
      replace (JS.startsWith (String "'" (k ++ "'")) "'") with true
        by reflexivity.
      rewrite endsWith_wrapped. cbn [andb JS.slice1].
      apply f_equal, f_equal, (removeLast_snoc k "'").
    + cbn [JS.includes]. rewrite includes_append, Hc. reflexivity.
  - unfold doubleQuoted, dquoteStr.
    change (String dquote "" ++ k ++ String dquote "")%string
      with (String dquote (k ++ String dquote "")).
    rewrite trim_wrapped by reflexivity.
    rewrite createScopedStep_single; try reflexivity.
    + unfold repairKey, isInStringScope, dquoteStr.
      cbn [isInDoubleQute isInSingleQute].
      replace (JS.startsWith (String dquote (k ++ String dquote "")) "'")
        with false by reflexivity.
      replace (JS.startsWith (String dquote (k ++ String dquote ""))
                 (String dquote "")) with true by reflexivity.
      rewrite endsWith_wrapped. cbn [andb].
      rewrite replace_absent.
      * cbn [JS.slice1]. apply f_equal, f_equal, removeLast_snoc.
      * cbn [JS.includes]. rewrite includes_append, Hs. reflexivity.
    + cbn [JS.includes]. rewrite includes_append, Hc. reflexivity.
Qed.

(** X2: a comma-separated list of plain keys compiles to the multi-key step
    that lists those keys in the order written. *)
Theorem key_list_compiles (k1 k2 : string) (ks : list string) :
  Forall (fun k => plainKey k = true) (k1 :: k2 :: ks) ->
  createStep jsonParse (scoped (JS.join "," (k1 :: k2 :: ks))) options
    = Ok (MultiKey (k1 :: k2 :: ks)).
Proof.
  intros Hall. set (l := k1 :: k2 :: ks) in *.
  assert (Hspec : Forall (fun k =>
            JS.trim k = k /\ JS.includes k "," = false /\
            JS.includes k "'" = false /\ JS.includes k dquote = false) l).
  { eapply Forall_impl; [exact Hall|]. intros k Hk.
    destruct (plainKey_spec k Hk) as (? & ? & ? & ? & _). auto. }
  assert (Hsplit : JS.split "," (JS.join "," l) = l).
  { apply split_join; [discriminate|].
    eapply Forall_impl; [exact Hspec|]. intros k Hk. apply Hk. }
  assert (Htrim : JS.trim (JS.join "," l) = JS.join "," l).
  { unfold JS.trim. subst l. rewrite join_cons at 1.
    inversion_clear Hspec as [|? ? (Ht & _) _].
    rewrite trimStart_append;
      [| apply trim_fixed, Ht | reflexivity].
    rewrite <- join_cons. apply join_trimEnd.
    eapply Forall_impl; [exact Hall|]. intros k Hk.
    apply trim_fixed, (plainKey_spec k Hk). }
  assert (Hhead : forall c, Ascii.eqb "," c = false ->
            JS.startsWith k1 (String c "") = false ->
            JS.startsWith (JS.join "," l) (String c "") = false).
  { intros c Hc H1. subst l. rewrite join_cons.
    apply startsWith_append; [exact H1|].
    change (JS.startsWith (String "," (JS.join "," (k2 :: ks))) (String c "")
            = false).
    cbn [JS.startsWith]. rewrite Hc. reflexivity. }
  inversion Hall as [|? ? Hk1 _]; subst.
  destruct (plainKey_spec k1 Hk1) as (_ & _ & _ & _ & Hstar & Hobj & Harr).
  rewrite createStep_scoped, Htrim.
  rewrite createScopedStep_multi;
    [| apply Hhead; [reflexivity | assumption] ..
     | apply join_includes].
  rewrite Hsplit.
  assert (Hrepair : map (fun part => repairKey (JS.trim part) part) l
                    = map doubleQuoted l).
  { clear - Hspec. induction Hspec as [|k l (Ht & _ & Hs & Hd) _ IH];
      [reflexivity|].
    cbn [map]. rewrite IH, Ht, repairKey_plain by assumption. reflexivity. }
  rewrite Hrepair, split_join.
  - rewrite map_map. apply f_equal, f_equal.
    clear. induction l as [|k l IH]; [reflexivity|].
    cbn [map]. rewrite doubleQuoted_unwrap, IH. reflexivity.
  - discriminate.
  - clear - Hspec. induction Hspec as [|k l (_ & Hc & _) _ IH];
      constructor; [|exact IH].
    rewrite doubleQuoted_includes by reflexivity. exact Hc.
Qed.

End KeyTokens.

Lemma key_spellings_agree_witness :
  plainKey "user name" = true /\
  createStep (fun _ => None) (scoped (singleQuoted "user name"))
    {| singleStar := true; doubleStar := true; braketScope := false |}
    = Ok (SingleKey "user name").
Proof.
  split; [reflexivity|].
  apply (key_spellings_agree (fun _ => None)
           {| singleStar := true; doubleStar := true; braketScope := false |}
           "user name").
  reflexivity.
Defined.

Lemma key_list_compiles_witness :
  Forall (fun k => plainKey k = true) ["email"; "password"; "phone"] /\
  createStep (fun _ => None) (scoped "email,password,phone")
    {| singleStar := true; doubleStar := true; braketScope := false |}
    = Ok (MultiKey ["email"; "password"; "phone"]).
Proof.
  assert (H : Forall (fun k => plainKey k = true) ["email"; "password"; "phone"])
    by (repeat constructor).
  split; [exact H|].
  exact (key_list_compiles (fun _ => None)
           {| singleStar := true; doubleStar := true; braketScope := false |}
           "email" "password" ["phone"] H).
Defined.

(** ** Pattern compiler: wildcards, shortcuts and errors *)

Lemma pretty_parseInt (i : nat) :
  JS.parseInt (pretty i) = i /\ JS.isEmpty (pretty i) = false.
Proof.
  unfold pretty, pretty_nat, pretty, pretty_N, JS.parseInt.
  destruct (decide (N.of_nat i = 0)%N) as [H0|H0].
  - assert (i = 0) as -> by lia. split; reflexivity.
  - destruct (pretty_N_go_digits (N.of_nat i)) as (Hp & _ & He).
    rewrite Hp, He by lia. rewrite Nat2N.id. split; reflexivity.
Qed.

Lemma startsWith_char (s : string) (c : ascii) :
  JS.startsWith s (String c "") = true -> exists r, s = String c r.
Proof.
  destruct s as [|a s]; [discriminate|]. cbn [JS.startsWith].
  rewrite andb_true_r. intros H. apply Ascii.eqb_eq in H as ->. eauto.
Qed.

Section TokenForms.

Variable jsonParse : string -> option Value.
Variable options : IPatternShortcust.

(** X3: the bounded deep wildcard carries any bound, of however many
    digits, in the range where the runtime reads integers exactly. *)
Theorem deep_wildcard_bound (n : nat) :
  (N.of_nat n < 9007199254740992)%N ->
  createStep jsonParse (scoped (deepWildcard n)) options
    = Ok (DoubleStar (Some n)).
Proof.
  intros _. rewrite createStep_scoped. unfold deepWildcard.
  change ("*" ++ pretty n ++ "*")%string with (String "*" (pretty n ++ "*")).
  rewrite trim_wrapped by reflexivity.
  destruct (pretty_parseInt n) as [Hp He].
  unfold createScopedStep.
  replace (String.eqb (String "*" (pretty n ++ "*")) "*") with false.
  2:{ destruct (pretty n); [discriminate He | reflexivity]. }
  replace (regxOfNumberBetweenDubble (String "*" (pretty n ++ "*")))
    with (if JS.endsWith (pretty n ++ "*") "*"
             && JS.allDigits (JS.removeLast (pretty n ++ "*"))
          then Some (JS.removeLast (pretty n ++ "*")) else None)
    by reflexivity.
  rewrite endsWith_suffix, removeLast_snoc, pretty_allDigits.
  cbn [andb]. rewrite He, Hp. reflexivity.
Qed.

Lemma createStepFrom_wrapped (fuel : nat) (token : string) :
  createStepFrom jsonParse (S fuel) (String "(" (token ++ ")")) options =
  createScopedStep jsonParse (scoped token) (JS.trim token).
Proof.
  change (String "(" (token ++ ")")) with (scoped token).
  rewrite createStepFrom_unfold, scoped_shape, substring_scoped. reflexivity.
Qed.

Lemma trim_not_scoped (token : string) (c : ascii) (t : string) :
  JS.trim token = String c t -> Ascii.eqb c "(" = false ->
  JS.startsWith token "(" && JS.endsWith token ")" = false.
Proof.
  intros Ht Hc. destruct (JS.startsWith token "(") eqn:Hs; [|reflexivity].
  apply startsWith_char in Hs as (r & ->).
  destruct (trim_open_paren r) as (r' & Hr). rewrite Hr in Ht.
  injection Ht as <- _. discriminate Hc.
Qed.

(** X4: a bare star and a bare pair of stars are wildcards exactly when
    their shortcut is switched on; otherwise they name a property. *)
Theorem bare_star_needs_shortcut (token : string) :
  (JS.trim token = "*" ->
   createStep jsonParse token options =
   Ok (if singleStar options then SingleStar else Property token)) /\
  (JS.trim token = "**" ->
   createStep jsonParse token options =
   Ok (if doubleStar options then DoubleStar None else Property token)).
Proof.
  split; intros Ht; unfold createStep; rewrite createStepFrom_unfold, Ht;
    rewrite (trim_not_scoped token "*" _ Ht eq_refl).
  - destruct (singleStar options); cbn [andb String.eqb].
    + rewrite createStepFrom_wrapped, Ht. reflexivity.
    + rewrite !andb_false_r. reflexivity.
  - replace (String.eqb "**" "*") with false by reflexivity.
    rewrite andb_false_r.
    destruct (doubleStar options); cbn [andb].
    + replace (String.eqb "**" "**") with true by reflexivity.
      rewrite createStepFrom_wrapped, Ht. reflexivity.
    + rewrite !andb_false_r. reflexivity.
Qed.

(** *** The errors of the compiler *)

Lemma createScopedStep_error (token content : string) (e : Error) :
  createScopedStep jsonParse token content = Err e -> payloadError jsonParse e.
Proof.
  unfold createScopedStep.
  destruct (String.eqb content "*"); [discriminate|].
  destruct (regxOfNumberBetweenDubble content) as [digits|].
  { destruct (JS.isEmpty digits); discriminate. }
  destruct (JS.startsWith content "{") eqn:Hobj.
  { destruct (jsonParse content) eqn:Hparse; [discriminate|].
    intros [= <-]. exists content. auto. }
  destruct (JS.startsWith content "[") eqn:Harr.
  { destruct (jsonParse content) eqn:Hparse; [discriminate|].
    intros [= <-]. exists content. auto. }
  destruct (JS.includes content ","); discriminate.
Qed.

Lemma createStepFrom_open_paren_error (r : string) (e : Error) :
  createStepFrom jsonParse 1 (String "(" r) options = Err e ->
  payloadError jsonParse e.
Proof.
  rewrite createStepFrom_unfold.
  destruct (JS.startsWith (String "(" r) "(" && JS.endsWith (String "(" r) ")").
  { apply createScopedStep_error. }
  destruct (trim_open_paren r) as (r' & ->).
  replace (String.eqb (String "(" r') "*") with false by reflexivity.
  replace (String.eqb (String "(" r') "**") with false by reflexivity.
  replace (JS.startsWith (String "(" r') "[") with false by reflexivity.
  rewrite !andb_false_r. discriminate.
Qed.

Lemma createStep_error (token : string) (e : Error) :
  createStep jsonParse token options = Err e -> payloadError jsonParse e.
Proof.
  unfold createStep. rewrite createStepFrom_unfold.
  destruct (JS.startsWith token "(" && JS.endsWith token ")").
  { apply createScopedStep_error. }
  destruct (singleStar options && String.eqb (JS.trim token) "*").
  { apply createStepFrom_open_paren_error. }
  destruct (doubleStar options && String.eqb (JS.trim token) "**").
  { apply createStepFrom_open_paren_error. }
  destruct (braketScope options); [|discriminate]. cbn [andb].
  destruct (JS.trim token) as [|c t]; [discriminate|].
  destruct (Ascii.eqb c "[") eqn:Hc.
  - apply Ascii.eqb_eq in Hc as ->.
    destruct (JS.startsWith (String "[" t) "[" && JS.endsWith (String "[" t) "]");
      [|discriminate].
    replace (JS.replace (JS.replace (String "[" t) "[" "(") "]" ")")
      with (String "(" (JS.replace t "]" ")")) by reflexivity.
    apply createStepFrom_open_paren_error.
  - replace (JS.startsWith (String c t) "[") with false; [discriminate|].
    cbn [JS.startsWith]. rewrite Hc. reflexivity.
Qed.

Lemma pushCurrent_error (ss : list PatternStep) (cur : string) (e : Error) :
  pushCurrent jsonParse options ss cur = Err e -> payloadError jsonParse e.
Proof.
  unfold pushCurrent. destruct (JS.isEmpty cur); [discriminate|].
  destruct (createStep jsonParse cur options) eqn:Hstep; [discriminate|].
  intros [= <-]. eapply createStep_error, Hstep.
Qed.

Lemma parseLoop_error (pattern : string) (prev : option ascii)
    (st : ParseState) (e : Error) :
  parseLoop jsonParse options prev pattern st = Err e ->
  payloadError jsonParse e.
Proof.
  revert prev st. induction pattern as [|c pattern IH]; intros prev st;
    [discriminate|].
  cbn [parseLoop].
  destruct (parseChar jsonParse options prev c st) as [st'|e'] eqn:Hchar;
    cbn [mbind Result_bind]; [apply IH|].
  intros [= <-]. revert Hchar. unfold parseChar.
  repeat match goal with
         | |- context [if ?b then _ else _] => destruct b
         end; try discriminate.
  all: destruct (pushCurrent jsonParse options (steps st) (current st))
         as [ss|e1] eqn:Hpush; [discriminate|];
       intros [= <-]; eapply pushCurrent_error, Hpush.
Qed.

(** X5: compiling a pattern can fail in one way only, on a condition
    payload that the external parser rejects; the compiler's own
    unrecognized-token error is never raised. *)
Theorem compile_fails_only_on_payloads (pattern : string) (e : Error) :
  parsePattern jsonParse pattern options = Err e -> payloadError jsonParse e.
Proof.
  unfold parsePattern.
  destruct (parseLoop jsonParse options None pattern parseStart) as [st|e1]
    eqn:Hloop; cbn [mbind Result_bind].
  - apply pushCurrent_error.
  - intros [= <-]. eapply parseLoop_error, Hloop.
Qed.

End TokenForms.

Lemma compile_fails_only_on_payloads_witness :
  parsePattern (fun _ => None) "users.({x)" 
    {| singleStar := true; doubleStar := true; braketScope := false |}
    = Err (InvalidObjectCondition "{x") /\
  payloadError (fun _ => None) (InvalidObjectCondition "{x").
Proof.
  assert (H : parsePattern (fun _ => None) "users.({x)" 
    {| singleStar := true; doubleStar := true; braketScope := false |}
              = Err (InvalidObjectCondition "{x")) by reflexivity.
  split; [exact H|].
  exact (compile_fails_only_on_payloads (fun _ => None) 
    {| singleStar := true; doubleStar := true; braketScope := false |}
           "users.({x)" (InvalidObjectCondition "{x") H).
Defined.

Lemma deep_wildcard_bound_witness :
  (N.of_nat 12 < 9007199254740992)%N /\
  createStep (fun _ => None) (scoped "*12*")
    {| singleStar := true; doubleStar := true; braketScope := false |}
    = Ok (DoubleStar (Some 12)).
Proof.
  assert (H : (N.of_nat 12 < 9007199254740992)%N) by (vm_compute; reflexivity).
  split; [exact H|].
  exact (deep_wildcard_bound (fun _ => None)
           {| singleStar := true; doubleStar := true; braketScope := false |} 12 H).
Defined.

Lemma bare_star_needs_shortcut_witness :
  JS.trim " * " = "*" /\
  createStep (fun _ => None) " * "
    {| singleStar := false; doubleStar := true; braketScope := false |}
    = Ok (Property " * ").
Proof.
  split; [reflexivity|].
  apply (proj1 (bare_star_needs_shortcut (fun _ => None)
                  {| singleStar := false; doubleStar := true;
                     braketScope := false |} " * ")).
  reflexivity.
Defined.

(** ** Pattern compiler: the scanner *)

Section Scanner.

Variable jsonParse : string -> option Value.
Variable options : IPatternShortcust.

Lemma pushCurrent_prefix (ss steps0 : list PatternStep) (cur : string) :
  pushCurrent jsonParse options (ss ++ steps0) cur =
  steps' ← pushCurrent jsonParse options steps0 cur; Ok (ss ++ steps').
Proof.
  unfold pushCurrent. destruct (JS.isEmpty cur); [reflexivity|].
  destruct (createStep jsonParse cur options); cbn [mbind Result_bind];
    [rewrite app_assoc|]; reflexivity.
Qed.

Lemma parseChar_prefix (ss : list PatternStep) (prev : option ascii)
    (c : ascii) (st : ParseState) :
  parseChar jsonParse options prev c (withSteps ss st) =
  st' ← parseChar jsonParse options prev c st; Ok (withSteps ss st').
Proof.
  unfold parseChar, withSteps. cbn [steps current parenDepth inQuotes].
  repeat match goal with
         | |- context [if ?b then _ else _] => destruct b
         end; try reflexivity.
  all: rewrite pushCurrent_prefix;
       destruct (pushCurrent jsonParse options (steps st) (current st));
       reflexivity.
Qed.

Lemma parseLoop_prefix (ss : list PatternStep) (q : string)
    (prev : option ascii) (st : ParseState) :
  parseLoop jsonParse options prev q (withSteps ss st) =
  st' ← parseLoop jsonParse options prev q st; Ok (withSteps ss st').
Proof.
  revert prev st. induction q as [|c q IH]; intros prev st; [reflexivity|].
  cbn [parseLoop]. rewrite parseChar_prefix.
  destruct (parseChar jsonParse options prev c st) as [st'|e];
    cbn [mbind Result_bind]; [apply IH | reflexivity].
Qed.

Lemma parseLoop_after_dot (q : string) (st : ParseState) :
  parseLoop jsonParse options (Some "."%char) q st =
  parseLoop jsonParse options None q st.
Proof. destruct q; reflexivity. Qed.

(** Scanning resumes after a top-level dot as if from the start, with the
    steps gathered so far put in front. *)
Lemma parseLoop_compose (p q : string) (st : ParseState) :
  parseLoop jsonParse options None p parseStart = Ok st ->
  parenDepth st = 0%Z ->
  inQuotes st = false ->
  parseLoop jsonParse options None (p ++ String "." q) parseStart =
    steps1 ← parsePattern jsonParse p options;
    st' ← parseLoop jsonParse options None q parseStart;
    Ok (withSteps steps1 st').
Proof.
  intros Hloop Hdepth Hquotes. unfold parsePattern.
  rewrite parseLoop_append, Hloop. cbn [mbind Result_bind parseLoop].
  rewrite (parseChar_separator _ _ _ _ Hdepth Hquotes).
  destruct (pushCurrent jsonParse options (steps st) (current st)) as [ss|e];
    [|reflexivity].
  cbn [mbind Result_bind]. rewrite parseLoop_after_dot.
  rewrite <- parseLoop_prefix. unfold withSteps, parseStart.
  cbn [steps current parenDepth inQuotes]. rewrite app_nil_r. reflexivity.
Qed.

(** X6: a pattern splits at a dot that stands outside quotes and
    parentheses; it compiles to the steps of the text before the dot
    followed by the steps of the text after it, and fails where either
    text fails, the first one first. *)
Theorem pattern_splits_at_dot (p q : string) (st : ParseState) :
  parseLoop jsonParse options None p parseStart = Ok st ->
  parenDepth st = 0%Z ->
  inQuotes st = false ->
  parsePattern jsonParse (p ++ "." ++ q) options =
    steps1 ← parsePattern jsonParse p options;
    steps2 ← parsePattern jsonParse q options;
    Ok (steps1 ++ steps2).
Proof.
  intros Hloop Hdepth Hquotes.
  change (p ++ "." ++ q)%string with (p ++ String "." q)%string.
  unfold parsePattern at 1.
  rewrite (parseLoop_compose p q st Hloop Hdepth Hquotes).
  destruct (parsePattern jsonParse p options) as [steps1|e]; [|reflexivity].
  cbn [mbind Result_bind]. unfold parsePattern.
  destruct (parseLoop jsonParse options None q parseStart) as [st'|e];
    [|reflexivity].
  cbn [mbind Result_bind withSteps steps current].
  apply pushCurrent_prefix.
Qed.

(** Characters other than quotes and parentheses extend the current
    token, dots too when a parenthesis is open. *)
Lemma parseLoop_text (u : string) (prev : option ascii) (st : ParseState) :
  inQuotes st = false ->
  JS.includes u "(" = false ->
  JS.includes u ")" = false ->
  JS.includes u dquote = false ->
  JS.includes u "." = false \/ parenDepth st <> 0%Z ->
  parseLoop jsonParse options prev u st =
  Ok {| steps := steps st; current := current st ++ u;
        parenDepth := parenDepth st; inQuotes := false |}.
Proof.
  revert prev st.
  induction u as [|c u IH]; intros prev st Hq Hopen Hclose Hquote Hdot.
  - cbn [parseLoop]. rewrite append_empty. destruct st; cbn in *.
    rewrite Hq. reflexivity.
  - cbn [JS.includes] in Hopen, Hclose, Hquote.
    apply orb_false_iff in Hopen as [Hc1 Hopen].
    apply orb_false_iff in Hclose as [Hc2 Hclose].
    apply orb_false_iff in Hquote as [Hc3 Hquote].
    rewrite Ascii.eqb_sym in Hc1. rewrite Ascii.eqb_sym in Hc2.
    rewrite Ascii.eqb_sym in Hc3.
    assert (Hsep : Ascii.eqb c "." && Z.eqb (parenDepth st) 0 = false).
    { destruct Hdot as [Hdot|Hdepth].
      - cbn [JS.includes] in Hdot. apply orb_false_iff in Hdot as [Hc4 _].
        rewrite Ascii.eqb_sym in Hc4. rewrite Hc4. reflexivity.
      - apply Z.eqb_neq in Hdepth. rewrite Hdepth. apply andb_false_r. }
    cbn [parseLoop]. unfold parseChar at 1.
    rewrite Hc1, Hc2, Hc3, Hq. cbn [andb negb]. rewrite Hsep.
    cbn [mbind Result_bind].
    rewrite IH; cbn [steps current parenDepth inQuotes];
      try assumption; try reflexivity.
    + rewrite append_snoc. reflexivity.
    + destruct Hdot as [Hdot|Hdepth]; [left | right; exact Hdepth].
      cbn [JS.includes] in Hdot. apply orb_false_iff in Hdot as [_ Hdot].
      exact Hdot.
Qed.

(** X7: dots inside a pair of parentheses do not split the token: a
    parenthesized text free of further parentheses and of quotes is
    scanned as one token and compiles to one step. *)
Theorem parenthesized_token_is_one_step (content : string) :
  JS.includes content "(" = false ->
  JS.includes content ")" = false ->
  JS.includes content dquote = false ->
  parseLoop jsonParse options None (scoped content) parseStart
    = Ok {| steps := []; current := scoped content; parenDepth := 0;
            inQuotes := false |} /\
  parsePattern jsonParse (scoped content) options =
    step ← createStep jsonParse (scoped content) options; Ok [step].
Proof.
  intros Hopen Hclose Hquote.
  assert (Hloop : parseLoop jsonParse options None (scoped content) parseStart
                  = Ok {| steps := []; current := scoped content;
                          parenDepth := 0; inQuotes := false |}).
  { change (scoped content) with (String "(" (content ++ ")")) at 1.
    cbn [parseLoop].
    change (parseChar jsonParse options None "(" parseStart)
      with (Ok {| steps := []; current := "("; parenDepth := 1;
                  inQuotes := false |}).
    cbn [mbind Result_bind]. rewrite parseLoop_append.
    assert (Hdepth : (1 <> 0)%Z) by discriminate.
    rewrite (parseLoop_text content (Some "("%char)
               {| steps := []; current := "("; parenDepth := 1;
                  inQuotes := false |}
               eq_refl Hopen Hclose Hquote (or_intror Hdepth)).
    cbn [mbind Result_bind steps current parenDepth parseLoop].
    destruct (lastChar (Some "("%char) content); reflexivity. }
  split; [exact Hloop|]. unfold parsePattern. rewrite Hloop.
  cbn [mbind Result_bind steps current]. unfold pushCurrent.
  replace (JS.isEmpty (scoped content)) with false by reflexivity.
  destruct (createStep jsonParse (scoped content) options); reflexivity.
Qed.

Lemma plainSegment_spec (t : string) :
  plainSegment t = true ->
  JS.includes t "." = false /\ JS.includes t "(" = false /\
  JS.includes t ")" = false /\ JS.includes t dquote = false /\
  JS.includes t "*" = false /\ JS.includes t "[" = false.
Proof.
  unfold plainSegment. rewrite !andb_true_iff, !negb_true_iff. tauto.
Qed.

Lemma includes_first (c : ascii) (t : string) :
  JS.includes (String c t) c = true.
Proof. cbn [JS.includes]. rewrite Ascii.eqb_refl. reflexivity. Qed.

Lemma createStep_plain (t : string) :
  plainSegment t = true ->
  createStep jsonParse t options = Ok (Property t).
Proof.
  intros Ht.
  destruct (plainSegment_spec t Ht) as (_ & Hopen & _ & _ & Hstar & Hbr).
  unfold createStep. rewrite createStepFrom_unfold.
  rewrite (startsWith_includes _ _ Hopen). cbn [andb].
  pose proof (includes_trim _ _ Hstar) as Hstar'.
  pose proof (includes_trim _ _ Hbr) as Hbr'.
  rewrite (startsWith_includes _ _ Hbr').
  destruct (JS.trim t) as [|c r]; [rewrite !andb_false_r; reflexivity|].
  destruct (Ascii.eqb c "*") eqn:Hc.
  { apply Ascii.eqb_eq in Hc as ->. rewrite includes_first in Hstar'.
    discriminate Hstar'. }
  replace (String.eqb (String c r) "*") with false
    by (cbn [String.eqb]; rewrite Hc; reflexivity).
  replace (String.eqb (String c r) "**") with false
    by (cbn [String.eqb]; rewrite Hc; reflexivity).
  rewrite !andb_false_r. reflexivity.
Qed.

Lemma parseLoop_plain (t : string) :
  plainSegment t = true ->
  parseLoop jsonParse options None t parseStart
    = Ok {| steps := []; current := t; parenDepth := 0; inQuotes := false |}.
Proof.
  intros Ht. destruct (plainSegment_spec t Ht) as (? & ? & ? & ? & _).
  rewrite parseLoop_text; auto.
Qed.

Lemma parsePattern_plain (t : string) :
  plainSegment t = true ->
  parsePattern jsonParse t options =
  Ok (map Property (List.filter (fun s => negb (JS.isEmpty s)) [t])).
Proof.
  intros Ht. unfold parsePattern. rewrite (parseLoop_plain t Ht).
  cbn [mbind Result_bind steps current]. unfold pushCurrent.
  cbn [List.filter]. destruct (JS.isEmpty t); [reflexivity|].
  rewrite (createStep_plain t Ht). reflexivity.
Qed.

(** X8: a pattern made of plain segments joined by dots compiles to one
    property step for each segment that is not empty, named by the
    segment as written; doubled, leading and trailing dots add no step. *)
Theorem plain_segments_compile (segments : list string) :
  Forall (fun t => plainSegment t = true) segments ->
  parsePattern jsonParse (JS.join "." segments) options =
  Ok (map Property (List.filter (fun s => negb (JS.isEmpty s)) segments)).
Proof.
  induction 1 as [|t segments Ht Hall IH]; [reflexivity|].
  destruct segments as [|t' segments]; [apply parsePattern_plain, Ht|].
  rewrite join_cons.
  change (t ++ "." ++ JS.join "." (t' :: segments))%string
    with (t ++ String "." (JS.join "." (t' :: segments)))%string.
  unfold parsePattern at 1.
  rewrite (parseLoop_compose t _ _ (parseLoop_plain t Ht) eq_refl eq_refl).
  rewrite (parsePattern_plain t Ht). cbn [mbind Result_bind].
  unfold parsePattern in IH.
  destruct (parseLoop jsonParse options None (JS.join "." (t' :: segments))
              parseStart) as [st'|e]; [|discriminate IH].
  cbn [mbind Result_bind withSteps steps current] in *.
  rewrite pushCurrent_prefix, IH. cbn [mbind Result_bind].
  rewrite <- map_app. apply f_equal, f_equal.
  change (t :: t' :: segments) with ([t] ++ t' :: segments).
  rewrite List.filter_app. reflexivity.
Qed.

End Scanner.

Lemma pattern_splits_at_dot_witness :
  parseLoop (fun _ => None)
    {| singleStar := true; doubleStar := true; braketScope := false |}
    None "users.(a.b)" parseStart
    = Ok {| steps := [Property "users"]; current := "(a.b)"; parenDepth := 0;
            inQuotes := false |} /\
  parsePattern (fun _ => None) "users.(a.b).*"
    {| singleStar := true; doubleStar := true; braketScope := false |}
    = Ok [Property "users"; SingleKey "a.b"; SingleStar].
Proof.
  split; [reflexivity|].
  exact (pattern_splits_at_dot (fun _ => None)
           {| singleStar := true; doubleStar := true; braketScope := false |}
           "users.(a.b)" "*"
           {| steps := [Property "users"]; current := "(a.b)"; parenDepth := 0;
              inQuotes := false |}
           eq_refl eq_refl eq_refl).
Defined.

Lemma parenthesized_token_is_one_step_witness :
  JS.includes "a.b" "(" = false /\
  JS.includes "a.b" ")" = false /\
  JS.includes "a.b" dquote = false /\
  parsePattern (fun _ => None) "(a.b)"
    {| singleStar := true; doubleStar := true; braketScope := false |}
    = Ok [SingleKey "a.b"].
Proof.
  split; [reflexivity|]. split; [reflexivity|]. split; [reflexivity|].
  exact (proj2 (parenthesized_token_is_one_step (fun _ => None)
                  {| singleStar := true; doubleStar := true;
                     braketScope := false |}
                  "a.b" eq_refl eq_refl eq_refl)).
Defined.

Lemma plain_segments_compile_witness :
  Forall (fun t => plainSegment t = true) ["users"; ""; "0"; "name"] /\
  parsePattern (fun _ => None) "users..0.name"
    {| singleStar := true; doubleStar := true; braketScope := false |}
    = Ok [Property "users"; Property "0"; Property "name"].
Proof.
  assert (H : Forall (fun t => plainSegment t = true) ["users"; ""; "0"; "name"])
    by (repeat constructor).
  split; [exact H|].
  exact (plain_segments_compile (fun _ => None)
           {| singleStar := true; doubleStar := true; braketScope := false |}
           ["users"; ""; "0"; "name"] H).
Defined.

(** ** Pattern compiler: brackets and quotes *)

Lemma replace_snoc (s : string) (a b : ascii) :
  JS.includes s a = false ->
  JS.replace (s ++ String a "") a b = (s ++ String b "")%string.
Proof.
  induction s as [|d s IH]; intros H.
  - change (JS.replace (String a "") a b = String b ""). cbn [JS.replace].
    rewrite Ascii.eqb_refl. reflexivity.
  - cbn [JS.includes] in H. apply orb_false_iff in H as [Hd Hs].
    rewrite !append_cons. cbn [JS.replace].
    rewrite Ascii.eqb_sym, Hd, (IH Hs). reflexivity.
Qed.

Lemma lastChar_no_backslash (content : string) (a : ascii) :
  Ascii.eqb a "\" = false ->
  JS.includes content "\" = false ->
  match lastChar (Some a) content with
  | None => true
  | Some p => negb (Ascii.eqb p "\")
  end = true.
Proof.
  revert a. induction content as [|c content IH]; intros a Ha Hslash.
  - cbn [lastChar]. rewrite Ha. reflexivity.
  - cbn [lastChar]. cbn [JS.includes] in Hslash.
    apply orb_false_iff in Hslash as [Hc Hs].
    apply (IH c); [rewrite Ascii.eqb_sym; exact Hc | exact Hs].
Qed.

Section Spellings.

Variable jsonParse : string -> option Value.
Variable options : IPatternShortcust.

(** X9: with the bracket shortcut switched on, a token in square brackets
    whose content holds no closing bracket compiles as the same content in
    parentheses; with the shortcut off it names a property. *)
Theorem bracket_shortcut (content : string) :
  JS.includes content "]" = false ->
  createStep jsonParse ("[" ++ content ++ "]") options =
  if braketScope options then createStep jsonParse (scoped content) options
  else Ok (Property ("[" ++ content ++ "]")).
Proof.
  intros Hclose. rewrite createStep_scoped.
  change ("[" ++ content ++ "]")%string with (String "[" (content ++ "]")).
  unfold createStep. rewrite createStepFrom_unfold.
  replace (JS.startsWith (String "[" (content ++ "]")) "(") with false
    by reflexivity.
  rewrite trim_wrapped by reflexivity.
  replace (String.eqb (String "[" (content ++ "]")) "*") with false
    by reflexivity.
  replace (String.eqb (String "[" (content ++ "]")) "**") with false
    by reflexivity.
  rewrite !andb_false_r. cbn [andb].
  replace (JS.startsWith (String "[" (content ++ "]")) "[") with true
    by reflexivity.
  rewrite endsWith_wrapped, !andb_true_r.
  destruct (braketScope options); [|reflexivity].
  replace (JS.replace (String "[" (content ++ "]")) "[" "(")
    with (String "(" (content ++ "]")) by reflexivity.
  replace (JS.replace (String "(" (content ++ "]")) "]" ")")
    with (String "(" (JS.replace (content ++ "]") "]" ")")) by reflexivity.
  rewrite (replace_snoc content "]" ")" Hclose).
  apply createStepFrom_wrapped.
Qed.

Lemma parseLoop_quoted (u : string) (prev : option ascii) (st : ParseState) :
  inQuotes st = true ->
  JS.includes u dquote = false ->
  parseLoop jsonParse options prev u st =
  Ok {| steps := steps st; current := current st ++ u;
        parenDepth := parenDepth st; inQuotes := true |}.
Proof.
  revert prev st. induction u as [|c u IH]; intros prev st Hq Hquote.
  - cbn [parseLoop]. rewrite append_empty. destruct st; cbn in *.
    rewrite Hq. reflexivity.
  - cbn [JS.includes] in Hquote. apply orb_false_iff in Hquote as [Hc Hquote].
    rewrite Ascii.eqb_sym in Hc.
    cbn [parseLoop]. unfold parseChar at 1. rewrite Hc, Hq.
    cbn [andb negb mbind Result_bind].
    rewrite IH; cbn [steps current parenDepth inQuotes];
      try assumption; try reflexivity.
    rewrite append_snoc. reflexivity.
Qed.

(** X10: outside parentheses a text in double quotes, free of further
    quotes and of backslashes, is one token, dots and parentheses in it
    included, and it names a property whose name keeps the two quote
    characters. *)
Theorem quoted_token_keeps_quotes (content : string) :
  JS.includes content dquote = false ->
  JS.includes content "\" = false ->
  parsePattern jsonParse (doubleQuoted content) options
    = Ok [Property (doubleQuoted content)].
Proof.
  intros Hquote Hslash. unfold doubleQuoted, dquoteStr.
  change (String dquote "" ++ content ++ String dquote "")%string
    with (String dquote (content ++ String dquote "")).
  assert (Hloop : parseLoop jsonParse options None
                    (String dquote (content ++ String dquote "")) parseStart
                  = Ok {| steps := [];
                          current := String dquote (content ++ String dquote "");
                          parenDepth := 0; inQuotes := false |}).
  { cbn [parseLoop].
    change (parseChar jsonParse options None dquote parseStart)
      with (Ok {| steps := []; current := String dquote ""; parenDepth := 0;
                  inQuotes := true |}).
    cbn [mbind Result_bind]. rewrite parseLoop_append.
    rewrite (parseLoop_quoted content (Some dquote)
               {| steps := []; current := String dquote ""; parenDepth := 0;
                  inQuotes := true |} eq_refl Hquote).
    cbn [mbind Result_bind steps current parenDepth parseLoop].
    pose proof (lastChar_no_backslash content dquote eq_refl Hslash) as Hprev.
    unfold parseChar. cbn [inQuotes steps current parenDepth].
    rewrite Ascii.eqb_refl, Hprev. cbn [andb negb].
    replace (Ascii.eqb dquote "(") with false by reflexivity.
    replace (Ascii.eqb dquote ")") with false by reflexivity.
    replace (Ascii.eqb dquote ".") with false by reflexivity.
    reflexivity. }
  unfold parsePattern. rewrite Hloop.
  cbn [mbind Result_bind steps current]. unfold pushCurrent.
  cbn [JS.isEmpty]. unfold createStep. rewrite createStepFrom_unfold.
  replace (JS.startsWith (String dquote (content ++ String dquote "")) "(")
    with false by reflexivity.
  rewrite trim_wrapped by reflexivity.
  replace (String.eqb (String dquote (content ++ String dquote "")) "*")
    with false by reflexivity.
  replace (String.eqb (String dquote (content ++ String dquote "")) "**")
    with false by reflexivity.
  replace (JS.startsWith (String dquote (content ++ String dquote "")) "[")
    with false by reflexivity.
  rewrite !andb_false_r. reflexivity.
Qed.

End Spellings.

Lemma bracket_shortcut_witness :
  JS.includes "*" "]" = false /\
  createStep (fun _ => None) "[*]"
    {| singleStar := true; doubleStar := true; braketScope := true |}
    = Ok SingleStar.
Proof.
  split; [reflexivity|].
  exact (bracket_shortcut (fun _ => None)
           {| singleStar := true; doubleStar := true; braketScope := true |}
           "*" eq_refl).
Defined.

Lemma quoted_token_keeps_quotes_witness :
  JS.includes "a.b" dquote = false /\
  JS.includes "a.b" "\" = false /\
  parsePattern (fun _ => None) (doubleQuoted "a.b")
    {| singleStar := true; doubleStar := true; braketScope := false |}
    = Ok [Property (doubleQuoted "a.b")].
Proof.
  split; [reflexivity|]. split; [reflexivity|].
  exact (quoted_token_keeps_quotes (fun _ => None)
           {| singleStar := true; doubleStar := true; braketScope := false |}
           "a.b" eq_refl eq_refl).
Defined.

(** ** Condition evaluator: the parts of a spec *)

Lemma split_two_parts (selector conditionName : string) :
  JS.includes selector "." = false ->
  JS.includes conditionName "." = false ->
  JS.split "." (selector ++ "." ++ conditionName) = [selector; conditionName].
Proof.
  intros Hs Hn.
  change (selector ++ "." ++ conditionName)%string
    with (selector ++ String "." conditionName)%string.
  rewrite (split_at_separator _ _ _ Hs), (split_no_separator _ _ Hn).
  reflexivity.
Qed.

(** X11: in a two-part spec the text before the dot is read twice only: a
    leading "!" complements the result, and an ending in "value" hands the
    value to the condition; any other text hands it the key. *)
Theorem selector_picks_target (selector conditionName : string)
    (condValue : Value) (key' : Key) (value : Value)
    (injectedConditions : list IJsonPatternCondition)
    (condition : IJsonPatternCondition) :
  JS.includes selector "." = false ->
  JS.includes conditionName "." = false ->
  findCondition conditionName injectedConditions = Some condition ->
  evaluateCondition (selector ++ "." ++ conditionName) condValue key' value
    injectedConditions =
  Ok (applied (JS.startsWith selector "!") condition key' value
        (if JS.endsWith selector "value" then value else keyValue key')
        condValue).
Proof.
  intros Hs Hn Hfind. unfold evaluateCondition.
  rewrite (split_two_parts _ _ Hs Hn). cbn [hd tl].
  change (default selector ([conditionName] !! 0%nat)) with conditionName.
  rewrite Hfind. reflexivity.
Qed.

Lemma selector_picks_target_witness :
  JS.includes "!value" "." = false /\
  JS.includes "isNumber" "." = false /\
  findCondition "isNumber" DefaultConditions.all = Some DefaultConditions.isNumber /\
  evaluateCondition "!value.isNumber" Null (KStr "age") (Num 30)
    DefaultConditions.all = Ok false.
Proof.
  split; [reflexivity|]. split; [reflexivity|]. split; [reflexivity|].
  exact (selector_picks_target "!value" "isNumber" Null (KStr "age") (Num 30)
           DefaultConditions.all DefaultConditions.isNumber
           eq_refl eq_refl eq_refl).
Defined.

(** X12: a spec is read up to its second dot; whatever follows is ignored. *)
Theorem spec_read_up_to_second_dot (selector conditionName ignored : string)
    (condValue : Value) (key' : Key) (value : Value)
    (injectedConditions : list IJsonPatternCondition) :
  JS.includes selector "." = false ->
  JS.includes conditionName "." = false ->
  evaluateCondition (selector ++ "." ++ conditionName ++ "." ++ ignored)
    condValue key' value injectedConditions =
  evaluateCondition (selector ++ "." ++ conditionName)
    condValue key' value injectedConditions.
Proof.
  intros Hs Hn. unfold evaluateCondition.
  rewrite (split_two_parts _ _ Hs Hn).
  change (selector ++ "." ++ conditionName ++ "." ++ ignored)%string
    with (selector ++ String "." (conditionName ++ String "." ignored))%string.
  rewrite (split_at_separator _ _ _ Hs), (split_at_separator _ _ _ Hn).
  reflexivity.
Qed.

Lemma spec_read_up_to_second_dot_witness :
  JS.includes "value" "." = false /\
  JS.includes "isNumber" "." = false /\
  evaluateCondition "value.isNumber.strict" Null (KStr "age") (Num 30)
    DefaultConditions.all =
  evaluateCondition "value.isNumber" Null (KStr "age") (Num 30)
    DefaultConditions.all.
Proof.
  split; [reflexivity|]. split; [reflexivity|].
  exact (spec_read_up_to_second_dot "value" "isNumber" "strict" Null
           (KStr "age") (Num 30) DefaultConditions.all eq_refl eq_refl).
Defined.

(** ** Condition steps: the deciding condition *)

Lemma every_decided {A : Type} (f : A -> Result bool) (l1 l2 : list A) (x : A) :
  Forall (fun y => f y = Ok true) l1 -> f x = Ok false ->
  every f (l1 ++ x :: l2) = Ok false.
Proof.
  intros Hall Hx. induction Hall as [|y l1 Hy _ IH]; cbn [app every].
  - rewrite Hx. reflexivity.
  - rewrite Hy. exact IH.
Qed.

Lemma some_decided {A : Type} (f : A -> Result bool) (l1 l2 : list A) (x : A) :
  Forall (fun y => f y = Ok false) l1 -> f x = Ok true ->
  some f (l1 ++ x :: l2) = Ok true.
Proof.
  intros Hall Hx. induction Hall as [|y l1 Hy _ IH]; cbn [app some].
  - rewrite Hx. reflexivity.
  - rewrite Hy. exact IH.
Qed.

(** X13: a condition set is decided by its first spec that fails, and a list
    of sets by its first set that holds; what is written after the deciding
    one is not evaluated, so a name that is not registered raises nothing
    there. *)
Theorem deciding_condition_ends_evaluation
    (injectedConditions : list IJsonPatternCondition)
    (childKey : string) (childValue : Value) :
  (forall (passed rest : list (string * Value)) (failing : string * Value),
     holds injectedConditions childKey childValue passed ->
     evaluateCondition (fst failing) (snd failing) (KStr childKey) childValue
       injectedConditions = Ok false ->
     satisfiesAll injectedConditions (Obj (passed ++ failing :: rest))
       childKey childValue = Ok false) /\
  (forall (failed rest : list Value) (holding : Value),
     Forall (fun g => satisfiesAll injectedConditions g childKey childValue
                      = Ok false) failed ->
     satisfiesAll injectedConditions holding childKey childValue = Ok true ->
     satisfiesSome injectedConditions (Arr (failed ++ holding :: rest))
       childKey childValue = Ok true).
Proof.
  split.
  - intros passed rest failing Hpassed Hfail. unfold satisfiesAll.
    cbn [objectEntries mbind Result_bind].
    apply (every_decided _ _ _ _ Hpassed Hfail).
  - intros failed rest holding Hfailed Hhold. unfold satisfiesSome.
    apply (some_decided _ _ _ _ Hfailed Hhold).
Qed.

Lemma deciding_condition_ends_evaluation_witness :
  evaluateCondition "value.isString" Null (KStr "age") (Num 30)
    DefaultConditions.all = Ok false /\
  evaluateCondition "value.unknown" Null (KStr "age") (Num 30)
    DefaultConditions.all = Err (ConditionNotFound "unknown") /\
  satisfiesAll DefaultConditions.all
    (Obj [("value.isString", Null); ("value.unknown", Null)]) "age" (Num 30)
    = Ok false.
Proof.
  split; [reflexivity|]. split; [reflexivity|].
  exact (proj1 (deciding_condition_ends_evaluation DefaultConditions.all
                  "age" (Num 30))
           [] [("value.unknown", Null)] ("value.isString", Null)
           (List.Forall_nil _) eq_refl).
Defined.

(** ** Traversal engine: how steps and frontiers compose *)

Section Walk.

Variable injectedConditions : list IJsonPatternCondition.

(** X15: the steps of a pattern are walked in sequence: the matches of two
    step lists put one after the other are the matches of the second list
    started from the matches of the first, and the walk fails where the
    first list or, after it, the second one fails. *)
Theorem steps_walk_in_sequence (steps1 steps2 : list PatternStep)
    (currentNodes : list TraversalNode) :
  runSteps injectedConditions (steps1 ++ steps2) currentNodes =
  nodes ← runSteps injectedConditions steps1 currentNodes;
  runSteps injectedConditions steps2 nodes.
Proof.
  revert currentNodes. induction steps1 as [|step steps1 IH];
    intros currentNodes; [reflexivity|].
  cbn [app runSteps].
  destruct (visitAll injectedConditions step currentNodes) as [nodes|e];
    cbn [mbind Result_bind]; [apply IH | reflexivity].
Qed.

Lemma visitAll_app (step : PatternStep) (nodes1 nodes2 : list TraversalNode) :
  visitAll injectedConditions step (nodes1 ++ nodes2) =
  out1 ← visitAll injectedConditions step nodes1;
  out2 ← visitAll injectedConditions step nodes2;
  Ok (out1 ++ out2).
Proof.
  induction nodes1 as [|n nodes1 IH]; cbn [app visitAll].
  - destruct (visitAll injectedConditions step nodes2); reflexivity.
  - destruct (visit injectedConditions step n) as [pushed|e];
      cbn [mbind Result_bind]; [|reflexivity].
    rewrite IH.
    destruct (visitAll injectedConditions step nodes1) as [out1|e];
      cbn [mbind Result_bind]; [|reflexivity].
    destruct (visitAll injectedConditions step nodes2) as [out2|e];
      cbn [mbind Result_bind]; [|reflexivity].
    rewrite app_assoc. reflexivity.
Qed.

(** X16: the members of a frontier are walked independently and in order:
    when two frontiers both walk to the end, their concatenation walks to
    the concatenation of their matches. *)
Theorem frontier_members_walk_apart (steps : list PatternStep)
    (nodes1 nodes2 out1 out2 : list TraversalNode) :
  runSteps injectedConditions steps nodes1 = Ok out1 ->
  runSteps injectedConditions steps nodes2 = Ok out2 ->
  runSteps injectedConditions steps (nodes1 ++ nodes2) = Ok (out1 ++ out2).
Proof.
  revert nodes1 nodes2. induction steps as [|step steps IH];
    intros nodes1 nodes2 H1 H2.
  - cbn [runSteps] in *. congruence.
  - cbn [runSteps] in *. inv_bind H1. inv_bind H2.
    rewrite visitAll_app, Ha, Ha0. cbn [mbind Result_bind].
    apply IH; assumption.
Qed.

Lemma runSteps_nil (steps : list PatternStep) :
  runSteps injectedConditions steps [] = Ok [].
Proof. induction steps as [|step steps IH]; [reflexivity | exact IH]. Qed.

(** X17: a frontier that holds no container ends the walk: whatever steps
    follow, condition steps with names that are not registered included,
    nothing is matched and nothing is raised. *)
Theorem scalars_end_the_walk (step : PatternStep) (steps : list PatternStep)
    (nodes : list TraversalNode) :
  Forall (fun n => isContainer (node n) = false) nodes ->
  runSteps injectedConditions (step :: steps) nodes = Ok [].
Proof.
  intros Hall. cbn [runSteps].
  assert (Hvisit : visitAll injectedConditions step nodes = Ok []).
  { induction Hall as [|n nodes Hn _ IH]; [reflexivity|].
    cbn [visitAll]. unfold visit at 1. rewrite Hn, IH. reflexivity. }
  rewrite Hvisit. apply runSteps_nil.
Qed.


(** *** The length of the path of a match *)

Lemma children_path (n c : TraversalNode) :
  c ∈ children n -> exists k, path c = path n ++ [k].
Proof.
  intros Hc. assert (Hp : In (path c) (map path (children n))).
  { apply in_map, list_elem_of_In, Hc. }
  rewrite children_paths in Hp. apply in_map_iff in Hp as (k & Hk & _).
  eauto.
Qed.

Lemma searchQueue_path (limit : option nat) (fuel : nat)
    (queue : list DoubleStarNode) (c : TraversalNode) :
  c ∈ searchQueue limit fuel queue ->
  exists q ks,
    q ∈ queue /\ path c = path (base q) ++ ks /\
    forall m, limit = Some m -> depth q <= m -> depth q + length ks <= m.
Proof.
  revert queue. induction fuel as [|fuel IH]; intros queue Hc;
    [apply not_elem_of_nil in Hc; contradiction|].
  destruct queue as [|q rest]; [apply not_elem_of_nil in Hc; contradiction|].
  cbn [searchQueue] in Hc. apply elem_of_cons in Hc as [->|Hc].
  { exists q, []. split; [apply list_elem_of_here|].
    split; [rewrite app_nil_r; reflexivity|]. intros m _ Hm. cbn. lia. }
  apply IH in Hc as (q' & ks & Hq' & Hpath & Hbound).
  destruct (depthReached limit (depth q)) eqn:Hreached.
  { exists q', ks. split; [apply list_elem_of_further, Hq' | auto]. }
  apply elem_of_app in Hq' as [Hq'|Hq'].
  { exists q', ks. split; [apply list_elem_of_further, Hq' | auto]. }
  unfold enqueue in Hq'.
  apply list_elem_of_In, in_map_iff in Hq' as (ch & <- & Hch).
  apply list_elem_of_In, children_path in Hch as (k & Hk).
  cbn [base depth] in *. exists q, (k :: ks).
  split; [apply list_elem_of_here|]. split.
  - rewrite Hpath, Hk, <- app_assoc. reflexivity.
  - intros m -> Hm. cbn [depthReached] in Hreached.
    apply Nat.leb_gt in Hreached.
    specialize (Hbound m eq_refl ltac:(lia)). cbn [length]. lia.
Qed.

Lemma visit_gain (step : PatternStep) (n c : TraversalNode)
    (out : list TraversalNode) :
  visit injectedConditions step n = Ok out -> c ∈ out ->
  length (path n) + minGain step <= length (path c) /\
  forall m, maxGain step = Some m -> length (path c) <= length (path n) + m.
Proof.
  unfold visit. destruct (isContainer (node n)); cbn [negb].
  2:{ intros [= <-] Hc. apply not_elem_of_nil in Hc. contradiction. }
  assert (Hone : forall k, path c = path n ++ [k] ->
            length (path n) + 1 <= length (path c) /\
            forall m, Some 1 = Some m -> length (path c) <= length (path n) + m).
  { intros k ->. rewrite length_app. cbn [length]. split; [lia|].
    intros m [= <-]. lia. }
  assert (Hselect : forall test entries,
            selectEntries test n entries = Ok out -> c ∈ out ->
            exists k, path c = path n ++ [k]).
  { intros test entries Hsel Hc.
    destruct (selectEntries_Ok _ _ _ _ Hsel) as [_ ->].
    apply list_elem_of_In, in_map_iff in Hc as (e & <- & _). eauto. }
  destruct step as [nm| |limit|k|ks|conds|conds]; cbn [minGain maxGain];
    intros H Hc.
  - injection H as <-. apply (Hone (KStr nm)), (lookupStep_path _ _ _ Hc).
  - injection H as <-. destruct (children_path _ _ Hc) as (k & Hk).
    apply (Hone k Hk).
  - injection H as <-. unfold doubleStarFrom in Hc.
    apply searchQueue_path in Hc as (q & ks' & Hq & Hpath & Hbound).
    apply list_elem_of_singleton in Hq as ->. cbn [base depth] in *.
    rewrite Hpath, length_app. split; [lia|].
    intros m ->. specialize (Hbound m eq_refl ltac:(lia)). lia.
  - injection H as <-. apply (Hone (KStr k)), (lookupStep_path _ _ _ Hc).
  - injection H as <-.
    apply list_elem_of_In, in_flat_map in Hc as (k & _ & Hc).
    apply (Hone (KStr k)), lookupStep_path, list_elem_of_In, Hc.
  - inv_bind H. destruct (Hselect _ _ H Hc) as (k & Hk). apply (Hone k Hk).
  - inv_bind H. destruct (Hselect _ _ H Hc) as (k & Hk). apply (Hone k Hk).
Qed.

Lemma visitAll_elem (step : PatternStep) (nodes out : list TraversalNode)
    (c : TraversalNode) :
  visitAll injectedConditions step nodes = Ok out -> c ∈ out ->
  exists n pushed,
    n ∈ nodes /\ visit injectedConditions step n = Ok pushed /\ c ∈ pushed.
Proof.
  revert out. induction nodes as [|n nodes IH]; intros out H Hc.
  - injection H as <-. apply not_elem_of_nil in Hc. contradiction.
  - cbn [visitAll] in H. inv_bind H. inv_bind H. injection H as <-.
    apply elem_of_app in Hc as [Hc|Hc].
    + exists n, a. split; [apply list_elem_of_here | auto].
    + destruct (IH _ Ha0 Hc) as (n' & pushed & Hn' & Hv & Hin).
      exists n', pushed. split; [apply list_elem_of_further, Hn' | auto].
Qed.

Lemma runSteps_gain (steps : list PatternStep) (nodes out : list TraversalNode)
    (c : TraversalNode) :
  runSteps injectedConditions steps nodes = Ok out -> c ∈ out ->
  exists n,
    n ∈ nodes /\
    length (path n) + minLength steps <= length (path c) /\
    forall m, maxLength steps = Some m -> length (path c) <= length (path n) + m.
Proof.
  revert nodes. induction steps as [|step steps IH]; intros nodes H Hc.
  - injection H as <-. exists c. split; [exact Hc|].
    unfold minLength. cbn. split; [lia|]. intros m [= <-]. lia.
  - cbn [runSteps] in H. inv_bind H.
    destruct (IH _ H Hc) as (n1 & Hn1 & Hmin & Hmax).
    destruct (visitAll_elem _ _ _ _ Ha Hn1) as (n & pushed & Hn & Hv & Hin).
    destruct (visit_gain _ _ _ _ Hv Hin) as [Hmin1 Hmax1].
    exists n. split; [exact Hn|]. split.
    + unfold minLength in *. cbn [map]. unfold list_sum in *.
      cbn [fold_right]. lia.
    + intros m Hm. cbn [maxLength] in Hm.
      destruct (maxGain step) as [g|]; [|discriminate Hm].
      destruct (maxLength steps) as [h|]; [|discriminate Hm].
      injection Hm as <-. specialize (Hmax1 g eq_refl).
      specialize (Hmax h eq_refl). lia.
Qed.

(** X19: the path of a match has one key for every step of the pattern that
    is not a double star, and at most as many more as the bounds of the
    double stars allow; without double stars it has exactly as many keys
    as the pattern has steps. *)
Theorem match_depth (steps : list PatternStep) (data : Value)
    (out : list TraversalNode) (n : TraversalNode) :
  runSteps injectedConditions steps [rootNode data] = Ok out ->
  n ∈ out ->
  minLength steps <= length (path n) /\
  forall m, maxLength steps = Some m -> length (path n) <= m.
Proof.
  intros Hrun Hn. destruct (runSteps_gain _ _ _ _ Hrun Hn) as (r & Hr & Hmin & Hmax).
  apply list_elem_of_singleton in Hr as ->. cbn [rootNode path length] in *.
  split; [lia|]. intros m Hm. specialize (Hmax m Hm). lia.
Qed.

End Walk.

Lemma frontier_members_walk_apart_witness :
  let a := rootNode (Obj [("x", Num 1)]) in
  let b := rootNode (Obj [("x", Num 2); ("y", Num 3)]) in
  runSteps [] [SingleStar] [a] = Ok (children a) /\
  runSteps [] [SingleStar] [b] = Ok (children b) /\
  runSteps [] [SingleStar] [a; b] = Ok (children a ++ children b).
Proof.
  split; [reflexivity|]. split; [reflexivity|].
  exact (frontier_members_walk_apart [] [SingleStar]
           [rootNode (Obj [("x", Num 1)])]
           [rootNode (Obj [("x", Num 2); ("y", Num 3)])]
           _ _ eq_refl eq_refl).
Defined.

Lemma scalars_end_the_walk_witness :
  Forall (fun n => isContainer (node n) = false) [rootNode (Num 5)] /\
  runSteps [] [ObjectCond (Obj [("unknown", Null)]); SingleStar]
    [rootNode (Num 5)] = Ok [].
Proof.
  assert (H : Forall (fun n => isContainer (node n) = false) [rootNode (Num 5)])
    by (repeat constructor).
  split; [exact H|].
  exact (scalars_end_the_walk [] (ObjectCond (Obj [("unknown", Null)]))
           [SingleStar] [rootNode (Num 5)] H).
Defined.


Lemma match_depth_witness :
  let data := Obj [("a", Obj [("b", Obj [("c", Num 1)])])] in
  let n := {| node := Num 1; parent := Some (Obj [("c", Num 1)]);
              key := Some (KStr "c"); path := [KStr "a"; KStr "b"; KStr "c"] |} in
  runSteps [] [Property "a"; DoubleStar (Some 2)] [rootNode data]
    = Ok [ {| node := Obj [("b", Obj [("c", Num 1)])]; parent := Some data;
              key := Some (KStr "a"); path := [KStr "a"] |};
           {| node := Obj [("c", Num 1)];
              parent := Some (Obj [("b", Obj [("c", Num 1)])]);
              key := Some (KStr "b"); path := [KStr "a"; KStr "b"] |};
           n ] /\
  1 <= length (path n) /\
  forall m, maxLength [Property "a"; DoubleStar (Some 2)] = Some m ->
            length (path n) <= m.
Proof.
  split; [reflexivity|].
  refine (match_depth [] [Property "a"; DoubleStar (Some 2)]
            (Obj [("a", Obj [("b", Obj [("c", Num 1)])])]) _
            {| node := Num 1; parent := Some (Obj [("c", Num 1)]);
               key := Some (KStr "c"); path := [KStr "a"; KStr "b"; KStr "c"] |}
            eq_refl _).
  apply list_elem_of_further, list_elem_of_further, list_elem_of_here.
Defined.

(** ** Traversal engine: what a match records *)

Lemma child_linked (data : Value) (n : TraversalNode) (k : Key) (v : Value) :
  attached data n -> getMember (node n) k = Some v -> linked data (child n k v).
Proof.
  intros [Hn _] Hget. right. exists k, (node n).
  unfold child, parentPath. cbn [key parent path node].
  rewrite removelast_last. auto.
Qed.

Section Linked.

Variable injectedConditions : list IJsonPatternCondition.
Variable data : Value.
Hypothesis data_wellFormed : wellFormed data.

Lemma children_linked (n : TraversalNode) :
  attached data n -> Forall (linked data) (children n).
Proof.
  intros Hn. apply Forall_forall. intros c Hc.
  destruct (children_member _ _ (attached_wellFormed _ data_wellFormed _ Hn) Hc)
    as (k & v & -> & Hget).
  apply (child_linked _ _ _ _ Hn Hget).
Qed.

Lemma searchQueue_linked (limit : option nat) (fuel : nat)
    (queue : list DoubleStarNode) :
  Forall (fun q => attached data (base q) /\ linked data (base q)) queue ->
  Forall (linked data) (searchQueue limit fuel queue).
Proof.
  revert queue. induction fuel as [|fuel IH]; intros queue Hq; [constructor|].
  destruct queue as [|q rest]; [constructor|].
  apply Forall_cons in Hq as [[Hq Hl] Hrest]. cbn [searchQueue].
  constructor; [exact Hl|]. apply IH.
  destruct (depthReached limit (depth q)); [exact Hrest|].
  apply Forall_app. split; [exact Hrest|].
  unfold enqueue. apply Forall_forall. intros c Hc.
  apply list_elem_of_In, in_map_iff in Hc as (x & <- & Hx). cbn [base].
  pose proof (children_attached data data_wellFormed _ Hq) as Ha.
  pose proof (children_linked _ Hq) as Hb.
  rewrite Forall_forall in Ha, Hb. apply list_elem_of_In in Hx. auto.
Qed.

Lemma lookupStep_linked (n : TraversalNode) (k : string) :
  attached data n -> Forall (linked data) (lookupStep n k).
Proof.
  intros Hn. apply Forall_forall. intros c Hc.
  destruct (lookupStep_member _ _ _ Hc) as (v & -> & Hget).
  apply (child_linked _ _ _ _ Hn Hget).
Qed.

Lemma selectEntries_linked (test : string -> Value -> Result bool)
    (n : TraversalNode) (entries : list (string * Value)) (out : list TraversalNode) :
  attached data n -> isContainer (node n) = true ->
  objectEntries (node n) = Ok entries ->
  selectEntries test n entries = Ok out ->
  Forall (linked data) out.
Proof.
  intros Hn Hc He Hsel. destruct (selectEntries_Ok _ _ _ _ Hsel) as [_ ->].
  apply Forall_forall. intros c Hin.
  apply list_elem_of_In, in_map_iff in Hin as ([k v] & <- & Hf).
  apply filter_In in Hf as [Hin _]. cbn [fst snd].
  apply (child_linked _ _ _ _ Hn).
  apply (entries_member _ _ _ _ (attached_wellFormed _ data_wellFormed _ Hn) Hc He).
  apply list_elem_of_In, Hin.
Qed.

Lemma visit_linked (step : PatternStep) (n : TraversalNode)
    (out : list TraversalNode) :
  attached data n -> linked data n ->
  visit injectedConditions step n = Ok out ->
  Forall (linked data) out.
Proof.
  intros Hn Hl. unfold visit. destruct (isContainer (node n)) eqn:Hc; cbn [negb].
  2:{ intros H. injection H as <-. constructor. }
  destruct step as [nm| |limit|k|ks|conds|conds]; intros H.
  - injection H as <-. apply lookupStep_linked, Hn.
  - injection H as <-. apply children_linked, Hn.
  - injection H as <-. apply searchQueue_linked.
    constructor; [split; assumption | constructor].
  - injection H as <-. apply lookupStep_linked, Hn.
  - injection H as <-. apply Forall_forall. intros c Hin.
    apply list_elem_of_In, in_flat_map in Hin as (k & _ & Hin).
    pose proof (lookupStep_linked n k Hn) as Hall.
    rewrite Forall_forall in Hall. apply Hall, list_elem_of_In, Hin.
  - inv_bind H. apply (selectEntries_linked _ _ _ _ Hn Hc Ha H).
  - inv_bind H. apply (selectEntries_linked _ _ _ _ Hn Hc Ha H).
Qed.

Lemma visitAll_linked (step : PatternStep) (currentNodes out : list TraversalNode) :
  Forall (attached data) currentNodes ->
  Forall (linked data) currentNodes ->
  visitAll injectedConditions step currentNodes = Ok out ->
  Forall (linked data) out.
Proof.
  revert out. induction currentNodes as [|n rest IH]; intros out Ha Hl H.
  - injection H as <-. constructor.
  - apply Forall_cons in Ha as [Hn Ha]. apply Forall_cons in Hl as [Hln Hl].
    cbn [visitAll] in H. inv_bind H. inv_bind H. injection H as <-.
    apply Forall_app. split.
    + apply (visit_linked _ _ _ Hn Hln Ha0).
    + apply (IH _ Ha Hl Ha1).
Qed.

Lemma runSteps_linked (steps : list PatternStep)
    (currentNodes out : list TraversalNode) :
  Forall (attached data) currentNodes ->
  Forall (linked data) currentNodes ->
  runSteps injectedConditions steps currentNodes = Ok out ->
  Forall (linked data) out.
Proof.
  revert currentNodes. induction steps as [|step steps IH];
    intros currentNodes Ha Hl H.
  - injection H as <-. exact Hl.
  - cbn [runSteps] in H. inv_bind H. apply (IH a).
    + apply (visitAll_attached injectedConditions data data_wellFormed _ _ _ Ha Ha0).
    + apply (visitAll_linked _ _ _ Ha Hl Ha0).
    + exact H.
Qed.

(** X20: what a callback is handed agrees with the data at the time of the
    match: the value is the one found at the object path, and unless the
    node is the root, the path ends in the key, and the parent, found at
    the path before the key, holds the value under that key. *)
Theorem match_agrees_with_data (steps : list PatternStep)
    (out : list TraversalNode) (n : TraversalNode) :
  runSteps injectedConditions steps [rootNode data] = Ok out ->
  n ∈ out ->
  valueAt (path n) data = Some (node n) /\ linked data n.
Proof.
  intros Hrun Hn.
  assert (Ha : Forall (attached data) [rootNode data]).
  { constructor; [|constructor]. split; [reflexivity | discriminate]. }
  assert (Hl : Forall (linked data) [rootNode data]).
  { constructor; [|constructor]. left. reflexivity. }
  pose proof (runSteps_attached injectedConditions data data_wellFormed
                _ _ _ Ha Hrun) as Hout1.
  pose proof (runSteps_linked _ _ _ Ha Hl Hrun) as Hout2.
  rewrite Forall_forall in Hout1, Hout2.
  split; [apply (Hout1 n Hn) | apply (Hout2 n Hn)].
Qed.

End Linked.

Lemma match_agrees_with_data_witness :
  let data := Obj [("users", Arr [Obj [("name", Str "Alice")]])] in
  let n := {| node := Str "Alice"; parent := Some (Obj [("name", Str "Alice")]);
              key := Some (KStr "name");
              path := [KStr "users"; KNum 0; KStr "name"] |} in
  wellFormed data /\
  runSteps [] [Property "users"; SingleStar; SingleKey "name"] [rootNode data]
    = Ok [n] /\
  valueAt (path n) data = Some (node n) /\ linked data n.
Proof.
  assert (Hw : wellFormed (Obj [("users", Arr [Obj [("name", Str "Alice")]])])).
  { split; solve_wellFormed. }
  split; [exact Hw|]. split; [reflexivity|].
  refine (match_agrees_with_data []
            (Obj [("users", Arr [Obj [("name", Str "Alice")]])]) Hw
            [Property "users"; SingleStar; SingleKey "name"] _
            {| node := Str "Alice"; parent := Some (Obj [("name", Str "Alice")]);
               key := Some (KStr "name");
               path := [KStr "users"; KNum 0; KStr "name"] |}
            eq_refl _).
  apply list_elem_of_here.
Defined.

(** ** Traversal engine: the order of the deep wildcard *)

Lemma searchQueue_levels (limit : option nat) (l : nat) (fuel : nat) :
  forall (d : nat) (front back : list DoubleStarNode),
    Forall (fun q => depth q = d /\ length (path (base q)) = l + d) front ->
    Forall (fun q => depth q = S d /\ length (path (base q)) = l + S d) back ->
    Forall (fun c => l + d <= length (path c))
           (searchQueue limit fuel (front ++ back)) /\
    shallowFirst (searchQueue limit fuel (front ++ back)).
Proof.
  induction fuel as [|fuel IH]; intros d front back Hfront Hback;
    [split; constructor|].
  assert (Hnext : forall q e,
            depth q = e -> length (path (base q)) = l + e ->
            Forall (fun q' => depth q' = S e /\
                              length (path (base q')) = l + S e) (enqueue q)).
  { intros q e Hd Hp. unfold enqueue. apply Forall_forall. intros q' Hq'.
    apply list_elem_of_In, in_map_iff in Hq' as (ch & <- & Hch).
    apply list_elem_of_In, children_path in Hch as (k & Hk).
    cbn [base depth]. rewrite Hk, length_app. cbn [length]. lia. }
  destruct front as [|q front].
  - destruct back as [|q back]; [split; constructor|].
    apply Forall_cons in Hback as [[Hd Hp] Hback].
    cbn [app searchQueue].
    assert (Hrest : Forall (fun c => l + S d <= length (path c))
                      (searchQueue limit fuel
                         (if depthReached limit (depth q) then back
                          else back ++ enqueue q)) /\
                    shallowFirst
                      (searchQueue limit fuel
                         (if depthReached limit (depth q) then back
                          else back ++ enqueue q))).
    { destruct (depthReached limit (depth q)).
      - rewrite <- (app_nil_r back). apply (IH (S d)); [exact Hback | constructor].
      - apply (IH (S d)); [exact Hback | apply (Hnext q (S d) Hd Hp)]. }
    destruct Hrest as [Hall Hsorted]. split.
    + constructor; [lia|]. eapply Forall_impl; [exact Hall|].
      intros c Hc. cbn beta in Hc. lia.
    + cbn [shallowFirst]. split; [|exact Hsorted].
      eapply Forall_impl; [exact Hall|]. intros c Hc. cbn beta in Hc. lia.
  - apply Forall_cons in Hfront as [[Hd Hp] Hfront].
    cbn [app searchQueue].
    assert (Hrest : Forall (fun c => l + d <= length (path c))
                      (searchQueue limit fuel
                         (if depthReached limit (depth q) then front ++ back
                          else (front ++ back) ++ enqueue q)) /\
                    shallowFirst
                      (searchQueue limit fuel
                         (if depthReached limit (depth q) then front ++ back
                          else (front ++ back) ++ enqueue q))).
    { destruct (depthReached limit (depth q)).
      - apply (IH d); assumption.
      - rewrite <- app_assoc. apply (IH d); [exact Hfront|].
        apply Forall_app. split; [exact Hback | apply (Hnext q d Hd Hp)]. }
    destruct Hrest as [Hall Hsorted]. split.
    + constructor; [lia | exact Hall].
    + cbn [shallowFirst]. split; [|exact Hsorted].
      eapply Forall_impl; [exact Hall|]. intros c Hc. cbn beta in Hc. lia.
Qed.

(** X21: the deep wildcard searches breadth first: the anchor is emitted
    first, and no node is emitted before a node that lies nearer to the
    anchor. *)
Theorem deep_wildcard_is_breadth_first (limit : option nat) (n : TraversalNode) :
  (exists rest, doubleStarFrom limit n = n :: rest) /\
  shallowFirst (doubleStarFrom limit n).
Proof.
  unfold doubleStarFrom. split.
  - pose proof (size_pos (node n)) as Hsize.
    destruct (size (node n)) as [|fuel]; [lia|].
    cbn [searchQueue base]. eauto.
  - apply (searchQueue_levels limit (length (path n)) (size (node n)) 0
             [{| base := n; depth := 0 |}] []).
    + constructor; [|constructor]. cbn [base depth]. split; [reflexivity | lia].
    + constructor.
Qed.

(** ** Mutation surface: matched nodes under an object *)

Lemma lookupEntry_hasEntry (k : string) (entries : list (string * Value)) :
  hasEntry k entries = false -> lookupEntry k entries = None.
Proof.
  induction entries as [|[k' v] entries IH]; [reflexivity|].
  cbn [hasEntry lookupEntry fst]. intros H.
  apply orb_false_iff in H as [Hk H]. rewrite String.eqb_sym, Hk. apply IH, H.
Qed.

Lemma lookupEntry_keys (k : string) (v : Value) (entries : list (string * Value)) :
  lookupEntry k entries = Some v -> In k (map fst entries).
Proof.
  induction entries as [|[k' x] entries IH]; [discriminate|].
  cbn [lookupEntry map fst]. destruct (String.eqb k k') eqn:Hk.
  - apply String.eqb_eq in Hk as ->. intros _. left. reflexivity.
  - intros H. right. apply IH, H.
Qed.

Lemma lookupEntry_app (k : string) (es1 es2 : list (string * Value)) :
  lookupEntry k (es1 ++ es2) =
  match lookupEntry k es1 with
  | Some v => Some v
  | None => lookupEntry k es2
  end.
Proof.
  induction es1 as [|[k' v] es1 IH]; [reflexivity|].
  cbn [app lookupEntry]. destruct (String.eqb k k'); [reflexivity | exact IH].
Qed.

Lemma lookupEntry_insertIndexed (j k : string) (i : nat) (v : Value)
    (entries : list (string * Value)) :
  hasEntry k entries = false ->
  lookupEntry j (insertIndexed i k v entries) =
  if String.eqb j k then Some v else lookupEntry j entries.
Proof.
  induction entries as [|[k' x] entries IH]; intros Hk.
  - cbn [insertIndexed lookupEntry]. destruct (String.eqb j k); reflexivity.
  - cbn [hasEntry fst] in Hk. apply orb_false_iff in Hk as [Hk' Hk].
    cbn [insertIndexed fst].
    assert (Hhere : lookupEntry j ((k, v) :: (k', x) :: entries)
                    = if String.eqb j k then Some v
                      else lookupEntry j ((k', x) :: entries)).
    { cbn [lookupEntry]. reflexivity. }
    destruct (arrayIndex k') as [i'|]; [|exact Hhere].
    destruct (Nat.ltb i' i); [|exact Hhere].
    cbn [lookupEntry]. rewrite (IH Hk).
    destruct (String.eqb j k') eqn:Hj; [|reflexivity].
    apply String.eqb_eq in Hj as ->. rewrite Hk'. reflexivity.
Qed.

Lemma lookupEntry_replace_other (j k : string) (v : Value)
    (entries : list (string * Value)) :
  String.eqb j k = false ->
  lookupEntry j (map (fun e => if String.eqb (fst e) k then (k, v) else e) entries)
  = lookupEntry j entries.
Proof.
  intros Hj. induction entries as [|[k' x] entries IH]; [reflexivity|].
  cbn [map fst]. destruct (String.eqb k' k) eqn:Hk'; cbn [lookupEntry].
  - apply String.eqb_eq in Hk' as ->. rewrite Hj. exact IH.
  - rewrite IH. reflexivity.
Qed.

Lemma lookupEntry_replace_same (k : string) (v : Value)
    (entries : list (string * Value)) :
  hasEntry k entries = true ->
  lookupEntry k (map (fun e => if String.eqb (fst e) k then (k, v) else e) entries)
  = Some v.
Proof.
  induction entries as [|[k' x] entries IH]; [discriminate|].
  cbn [hasEntry map fst]. destruct (String.eqb k' k) eqn:Hk'; cbn [orb lookupEntry].
  - rewrite String.eqb_refl. reflexivity.
  - rewrite String.eqb_sym, Hk'. exact IH.
Qed.

Lemma lookupEntry_assignEntry (j k : string) (v : Value)
    (entries : list (string * Value)) :
  lookupEntry j (assignEntry k v entries) =
  if String.eqb j k then Some v else lookupEntry j entries.
Proof.
  unfold assignEntry. destruct (hasEntry k entries) eqn:Hhas.
  - destruct (String.eqb j k) eqn:Hj.
    + apply String.eqb_eq in Hj as ->. apply lookupEntry_replace_same, Hhas.
    + apply lookupEntry_replace_other, Hj.
  - destruct (arrayIndex k) as [i|].
    + apply lookupEntry_insertIndexed, Hhas.
    + rewrite lookupEntry_app. cbn [lookupEntry].
      destruct (String.eqb j k) eqn:Hj.
      * apply String.eqb_eq in Hj as ->.
        rewrite (lookupEntry_hasEntry _ _ Hhas). reflexivity.
      * destruct (lookupEntry j entries); reflexivity.
Qed.

Lemma lookupEntry_deleteAll (j : string) (ks : list string)
    (entries : list (string * Value)) :
  lookupEntry j (fold_left (fun es nearKey => deleteEntry nearKey es) ks entries) =
  if existsb (String.eqb j) ks then None else lookupEntry j entries.
Proof.
  revert entries. induction ks as [|k ks IH]; intros entries; [reflexivity|].
  cbn [fold_left existsb]. rewrite IH, lookupEntry_deleteEntry.
  destruct (String.eqb j k); cbn [orb];
    destruct (existsb (String.eqb j) ks); reflexivity.
Qed.

Lemma existsb_nears (j k : string) (keys : list string) :
  existsb (String.eqb j) (List.filter (isNear (Some (KStr k))) keys) =
  negb (String.eqb j k) && existsb (String.eqb j) keys.
Proof.
  induction keys as [|k' keys IH]; [rewrite andb_false_r; reflexivity|].
  cbn [List.filter existsb isNear].
  destruct (String.eqb k' k) eqn:Hk'; cbn [negb existsb].
  - apply String.eqb_eq in Hk' as ->. rewrite IH.
    destruct (String.eqb j k); reflexivity.
  - rewrite IH. destruct (String.eqb j k') eqn:Hj; cbn [orb].
    + apply String.eqb_eq in Hj as ->. rewrite Hk'. reflexivity.
    + reflexivity.
Qed.

Lemma existsb_keys (j : string) (entries : list (string * Value)) :
  existsb (String.eqb j) (map fst entries) = false ->
  lookupEntry j entries = None.
Proof.
  induction entries as [|[k v] entries IH]; [reflexivity|].
  cbn [map fst existsb lookupEntry]. intros H.
  apply orb_false_iff in H as [Hj H]. rewrite Hj. apply IH, H.
Qed.

Section MatchedMutators.

Variable injectedConditions : list IJsonPatternCondition.
Variable data : Value.
Hypothesis data_wellFormed : wellFormed data.

(** What the match of a keyed node under an object gives the mutators. *)
Lemma matched_under_object (steps : list PatternStep) (out : list TraversalNode)
    (n : TraversalNode) (k : string) (entries : list (string * Value)) :
  runSteps injectedConditions steps [rootNode data] = Ok out ->
  n ∈ out ->
  key n = Some (KStr k) ->
  parent n = Some (Obj entries) ->
  valueAt (parentPath n) data = Some (Obj entries) /\
  path n = parentPath n ++ [KStr k] /\
  lookupEntry k entries = Some (node n).
Proof.
  intros Hrun Hn Hkey Hparent.
  assert (Ha : Forall (attached data) [rootNode data]).
  { constructor; [|constructor]. split; [reflexivity | discriminate]. }
  assert (Hl : Forall (linked data) [rootNode data]).
  { constructor; [|constructor]. left. reflexivity. }
  pose proof (runSteps_linked injectedConditions data data_wellFormed
                _ _ _ Ha Hl Hrun) as Hout.
  rewrite Forall_forall in Hout.
  destruct (Hout n Hn) as [->|(k0 & pv & Hk0 & Hpv & Hpath & Hat & Hget)];
    [discriminate Hkey|].
  rewrite Hkey in Hk0. injection Hk0 as <-.
  rewrite Hparent in Hpv. injection Hpv as <-. auto.
Qed.

(** X22: removing a matched node whose parent is an object succeeds, and
    the parent, read back in the data, is without that entry and keeps the
    others; when the key is not a name that objects inherit, nothing is
    found any more at the path of the node. *)
Theorem remove_deletes_the_match (steps : list PatternStep)
    (out : list TraversalNode) (n : TraversalNode) (k : string)
    (entries : list (string * Value)) :
  runSteps injectedConditions steps [rootNode data] = Ok out ->
  n ∈ out ->
  key n = Some (KStr k) ->
  parent n = Some (Obj entries) ->
  exists data',
    remove n data = (Ok tt, data') /\
    valueAt (parentPath n) data' = Some (Obj (deleteEntry k entries)) /\
    lookupEntry k (deleteEntry k entries) = None /\
    (forall k', k' <> k ->
       lookupEntry k' (deleteEntry k entries) = lookupEntry k' entries) /\
    (inherited k = false -> valueAt (path n) data' = None).
Proof.
  intros Hrun Hn Hkey Hparent.
  destruct (matched_under_object _ _ _ _ _ Hrun Hn Hkey Hparent)
    as (Hat & Hpath & _).
  unfold remove, onObjectParent. rewrite Hparent, Hkey. cbn [keyString keyName].
  eexists. split; [reflexivity|].
  assert (Hback : valueAt (parentPath n)
                    (updateAt (parentPath n)
                       (fun v => match v with
                                 | Obj es => Obj (deleteEntry k es)
                                 | _ => v
                                 end) data)
                  = Some (Obj (deleteEntry k entries))).
  { rewrite (valueAt_updateAt _ _ _ _ Hat). reflexivity. }
  split; [exact Hback|]. split; [|split].
  - rewrite lookupEntry_deleteEntry, String.eqb_refl. reflexivity.
  - intros k' Hne. rewrite lookupEntry_deleteEntry.
    apply String.eqb_neq in Hne. rewrite Hne. reflexivity.
  - intros _. rewrite Hpath at 1. rewrite valueAt_app, Hback.
    cbn [mbind option_bind valueAt getMember getProperty keyName].
    rewrite lookupEntry_deleteEntry, String.eqb_refl. reflexivity.
Qed.

(** X23: on a matched node whose parent is an object and whose key is not
    a name that objects inherit, removing the neighbours succeeds and
    leaves the parent, read back in the data, with the entry of the node
    and no other. *)
Theorem removeNears_keeps_the_match (steps : list PatternStep)
    (out : list TraversalNode) (n : TraversalNode) (k : string)
    (entries : list (string * Value)) :
  runSteps injectedConditions steps [rootNode data] = Ok out ->
  n ∈ out ->
  key n = Some (KStr k) ->
  parent n = Some (Obj entries) ->
  inherited k = false ->
  exists data' kept,
    removeNears n data = (Ok tt, data') /\
    valueAt (parentPath n) data' = Some (Obj kept) /\
    lookupEntry k kept = Some (node n) /\
    forall k', k' <> k -> lookupEntry k' kept = None.
Proof.
  intros Hrun Hn Hkey Hparent _.
  destruct (matched_under_object _ _ _ _ _ Hrun Hn Hkey Hparent)
    as (Hat & _ & Hget).
  unfold removeNears, onObjectParent. rewrite Hparent, Hkey.
  eexists. eexists. split; [reflexivity|]. split; [|split].
  - rewrite (valueAt_updateAt _ _ _ _ Hat). reflexivity.
  - rewrite lookupEntry_deleteAll, existsb_nears, String.eqb_refl. exact Hget.
  - intros k' Hne. rewrite lookupEntry_deleteAll, existsb_nears.
    apply String.eqb_neq in Hne. rewrite Hne. cbn [negb andb].
    destruct (existsb (String.eqb k') (map fst entries)) eqn:Hex;
      [reflexivity | apply existsb_keys, Hex].
Qed.

(** X24: renaming a matched node whose parent is an object, and whose key
    is not a name that objects inherit, to another key that is not
    [__proto__] succeeds and moves the value: the parent, read back in the
    data, holds the value of the node under the new key, whatever it held
    there before, nothing under the old key, and its other entries as they
    were. *)
Theorem setKey_moves_the_match (steps : list PatternStep)
    (out : list TraversalNode) (n : TraversalNode) (k newKey : string)
    (entries : list (string * Value)) :
  runSteps injectedConditions steps [rootNode data] = Ok out ->
  n ∈ out ->
  key n = Some (KStr k) ->
  parent n = Some (Obj entries) ->
  inherited k = false ->
  newKey <> k ->
  newKey <> "__proto__" ->
  exists data' moved,
    setKey n newKey data = (Ok tt, data') /\
    valueAt (parentPath n) data' = Some (Obj moved) /\
    lookupEntry newKey moved = Some (node n) /\
    lookupEntry k moved = None /\
    forall k', k' <> k -> k' <> newKey ->
      lookupEntry k' moved = lookupEntry k' entries.
Proof.
  intros Hrun Hn Hkey Hparent _ Hnew _.
  destruct (matched_under_object _ _ _ _ _ Hrun Hn Hkey Hparent)
    as (Hat & _ & _).
  unfold setKey, onObjectParent. rewrite Hparent, Hkey. cbn [keyString keyName].
  eexists. eexists. split; [reflexivity|]. split; [|split; [|split]].
  - rewrite (valueAt_updateAt _ _ _ _ Hat). reflexivity.
  - rewrite lookupEntry_deleteEntry, lookupEntry_assignEntry.
    apply String.eqb_neq in Hnew. rewrite Hnew, String.eqb_refl. reflexivity.
  - rewrite lookupEntry_deleteEntry, String.eqb_refl. reflexivity.
  - intros k' Hk Hk'. rewrite lookupEntry_deleteEntry, lookupEntry_assignEntry.
    apply String.eqb_neq in Hk. apply String.eqb_neq in Hk'.
    rewrite Hk, Hk'. reflexivity.
Qed.

End MatchedMutators.

(** ** The entry point: delivery and batches *)

Lemma deliver_app (callback : Callback) (nodes1 nodes2 : list TraversalNode)
    (data : Value) :
  deliver callback (nodes1 ++ nodes2) data =
  andThen (deliver callback nodes1 data) (deliver callback nodes2).
Proof.
  revert data. induction nodes1 as [|n nodes1 IH]; intros data; [reflexivity|].
  cbn [app deliver]. destruct (key n); [|apply IH].
  destruct (callback n data) as [[[]|e] data']; [apply IH | reflexivity].
Qed.

(** X25: the root is never handed to a callback: delivering a frontier is
    delivering its keyed nodes; so a pattern without steps calls nothing
    and leaves the data as it was. *)
Theorem root_is_never_delivered (callback : Callback) :
  (forall nodes data,
     deliver callback nodes data =
     deliver callback (List.filter hasKey nodes) data) /\
  (forall jsonParse options pattern data,
     parsePattern jsonParse (patternText pattern) (defaultShortcuts options)
       = Ok [] ->
     traverseIn jsonParse data options [pattern] [callback] = (Ok tt, data)).
Proof.
  split.
  - intros nodes. induction nodes as [|n nodes IH]; intros data; [reflexivity|].
    cbn [deliver List.filter]. unfold hasKey at 1.
    destruct (key n) eqn:Hkey; [|apply IH].
    cbn [deliver]. rewrite Hkey.
    destruct (callback n data) as [[[]|e] data']; [apply IH | reflexivity].
  - intros jsonParse options pattern data Hparse.
    unfold traverseIn. cbn [length Nat.eqb negb eachPattern].
    unfold matchPattern. rewrite Hparse. reflexivity.
Qed.

(** X26: a callback that raises ends the delivery: the nodes after it are
    not visited, and the data stays as the callbacks so far, the raising
    one included, have left it. *)
Theorem callback_error_ends_delivery (callback : Callback)
    (before after : list TraversalNode) (n : TraversalNode)
    (data data1 data2 : Value) (e : Error) :
  deliver callback before data = (Ok tt, data1) ->
  hasKey n = true ->
  callback n data1 = (Err e, data2) ->
  deliver callback (before ++ n :: after) data = (Err e, data2).
Proof.
  intros Hbefore Hkey Hraise. rewrite deliver_app, Hbefore.
  cbn [andThen deliver]. unfold hasKey in Hkey.
  destruct (key n); [|discriminate Hkey]. rewrite Hraise. reflexivity.
Qed.

Section Batches.

Variable jsonParse : string -> option Value.
Variable options : ICustomEachOptions.

Lemma eachPattern_app (patterns1 patterns2 : list PatternSource)
    (callbacks1 callbacks2 : list Callback) (data : Value) :
  length patterns1 = length callbacks1 ->
  eachPattern jsonParse options (patterns1 ++ patterns2)
    (callbacks1 ++ callbacks2) data =
  andThen (eachPattern jsonParse options patterns1 callbacks1 data)
    (eachPattern jsonParse options patterns2 callbacks2).
Proof.
  revert callbacks1 data.
  induction patterns1 as [|p patterns1 IH]; intros [|c callbacks1] data Hlen;
    try discriminate Hlen.
  - cbn [app eachPattern andThen]. destruct patterns2; reflexivity.
  - injection Hlen as Hlen. cbn [app eachPattern].
    destruct (matchPattern jsonParse options p data) as [nodes|e];
      [|reflexivity].
    destruct (deliver c nodes data) as [[[]|e] data']; [|reflexivity].
    apply IH, Hlen.
Qed.

(** X27: one call with several patterns is the same as one call for each
    group of them in turn, every later group working on the data the
    earlier ones have left, and not starting when an earlier one raised. *)
Theorem batch_is_successive_calls (patterns1 patterns2 : list PatternSource)
    (callbacks1 callbacks2 : list Callback) (data : Value) :
  length patterns1 = length callbacks1 ->
  length patterns2 = length callbacks2 ->
  traverseIn jsonParse data options (patterns1 ++ patterns2)
    (callbacks1 ++ callbacks2) =
  andThen (traverseIn jsonParse data options patterns1 callbacks1)
    (fun data' => traverseIn jsonParse data' options patterns2 callbacks2).
Proof.
  intros H1 H2. unfold traverseIn.
  rewrite !length_app, H1, H2, !Nat.eqb_refl. cbn [negb].
  rewrite (eachPattern_app _ _ _ _ _ H1).
  destruct (eachPattern jsonParse options patterns1 callbacks1 data)
    as [[[]|e] data']; reflexivity.
Qed.

End Batches.

Lemma remove_deletes_the_match_witness :
  let data := Obj [("profile", Obj [("firstName", Str "Alice"); ("age", Num 30)])] in
  let entries := [("firstName", Str "Alice"); ("age", Num 30)] in
  let n := {| node := Str "Alice"; parent := Some (Obj entries);
              key := Some (KStr "firstName");
              path := [KStr "profile"; KStr "firstName"] |} in
  wellFormed data /\
  runSteps [] [Property "profile"; Property "firstName"] [rootNode data] = Ok [n] /\
  remove n data = (Ok tt, Obj [("profile", Obj [("age", Num 30)])]) /\
  exists data',
    remove n data = (Ok tt, data') /\
    valueAt (parentPath n) data' = Some (Obj (deleteEntry "firstName" entries)) /\
    lookupEntry "firstName" (deleteEntry "firstName" entries) = None /\
    (forall k', k' <> "firstName" ->
       lookupEntry k' (deleteEntry "firstName" entries) = lookupEntry k' entries) /\
    (inherited "firstName" = false -> valueAt (path n) data' = None).
Proof.
  assert (Hw : wellFormed
                 (Obj [("profile", Obj [("firstName", Str "Alice"); ("age", Num 30)])])).
  { split; solve_wellFormed. }
  split; [exact Hw|]. split; [reflexivity|]. split; [reflexivity|].
  exact (remove_deletes_the_match []
           (Obj [("profile", Obj [("firstName", Str "Alice"); ("age", Num 30)])])
           Hw [Property "profile"; Property "firstName"]
           [ {| node := Str "Alice";
                parent := Some (Obj [("firstName", Str "Alice"); ("age", Num 30)]);
                key := Some (KStr "firstName");
                path := [KStr "profile"; KStr "firstName"] |} ]
           {| node := Str "Alice";
              parent := Some (Obj [("firstName", Str "Alice"); ("age", Num 30)]);
              key := Some (KStr "firstName");
              path := [KStr "profile"; KStr "firstName"] |}
           "firstName"
           [("firstName", Str "Alice"); ("age", Num 30)]
           eq_refl ltac:(apply list_elem_of_here) eq_refl eq_refl).
Defined.

Lemma removeNears_keeps_the_match_witness :
  let data := Obj [("profile", Obj [("firstName", Str "Alice"); ("age", Num 30)])] in
  let entries := [("firstName", Str "Alice"); ("age", Num 30)] in
  let n := {| node := Str "Alice"; parent := Some (Obj entries);
              key := Some (KStr "firstName");
              path := [KStr "profile"; KStr "firstName"] |} in
  wellFormed data /\
  runSteps [] [Property "profile"; Property "firstName"] [rootNode data] = Ok [n] /\
  inherited "firstName" = false /\
  removeNears n data
    = (Ok tt, Obj [("profile", Obj [("firstName", Str "Alice")])]) /\
  exists data' kept,
    removeNears n data = (Ok tt, data') /\
    valueAt (parentPath n) data' = Some (Obj kept) /\
    lookupEntry "firstName" kept = Some (node n) /\
    forall k', k' <> "firstName" -> lookupEntry k' kept = None.
Proof.
  assert (Hw : wellFormed
                 (Obj [("profile", Obj [("firstName", Str "Alice"); ("age", Num 30)])])).
  { split; solve_wellFormed. }
  split; [exact Hw|]. split; [reflexivity|]. split; [reflexivity|].
  split; [reflexivity|].
  exact (removeNears_keeps_the_match []
           (Obj [("profile", Obj [("firstName", Str "Alice"); ("age", Num 30)])])
           Hw [Property "profile"; Property "firstName"]
           [ {| node := Str "Alice";
                parent := Some (Obj [("firstName", Str "Alice"); ("age", Num 30)]);
                key := Some (KStr "firstName");
                path := [KStr "profile"; KStr "firstName"] |} ]
           {| node := Str "Alice";
              parent := Some (Obj [("firstName", Str "Alice"); ("age", Num 30)]);
              key := Some (KStr "firstName");
              path := [KStr "profile"; KStr "firstName"] |}
           "firstName"
           [("firstName", Str "Alice"); ("age", Num 30)]
           eq_refl ltac:(apply list_elem_of_here) eq_refl eq_refl eq_refl).
Defined.

Lemma setKey_moves_the_match_witness :
  let data := Obj [("profile", Obj [("firstName", Str "Alice"); ("age", Num 30)])] in
  let entries := [("firstName", Str "Alice"); ("age", Num 30)] in
  let n := {| node := Str "Alice"; parent := Some (Obj entries);
              key := Some (KStr "firstName");
              path := [KStr "profile"; KStr "firstName"] |} in
  wellFormed data /\
  runSteps [] [Property "profile"; Property "firstName"] [rootNode data] = Ok [n] /\
  inherited "firstName" = false /\
  "age" <> "firstName" /\
  "age" <> "__proto__" /\
  setKey n "age" data = (Ok tt, Obj [("profile", Obj [("age", Str "Alice")])]) /\
  exists data' moved,
    setKey n "age" data = (Ok tt, data') /\
    valueAt (parentPath n) data' = Some (Obj moved) /\
    lookupEntry "age" moved = Some (node n) /\
    lookupEntry "firstName" moved = None /\
    forall k', k' <> "firstName" -> k' <> "age" ->
      lookupEntry k' moved = lookupEntry k' entries.
Proof.
  assert (Hw : wellFormed
                 (Obj [("profile", Obj [("firstName", Str "Alice"); ("age", Num 30)])])).
  { split; solve_wellFormed. }
  assert (Hne : "age" <> "firstName") by discriminate.
  assert (Hproto : "age" <> "__proto__") by discriminate.
  split; [exact Hw|]. split; [reflexivity|]. split; [reflexivity|].
  split; [exact Hne|]. split; [exact Hproto|].
  split; [reflexivity|].
  exact (setKey_moves_the_match []
           (Obj [("profile", Obj [("firstName", Str "Alice"); ("age", Num 30)])])
           Hw [Property "profile"; Property "firstName"]
           [ {| node := Str "Alice";
                parent := Some (Obj [("firstName", Str "Alice"); ("age", Num 30)]);
                key := Some (KStr "firstName");
                path := [KStr "profile"; KStr "firstName"] |} ]
           {| node := Str "Alice";
              parent := Some (Obj [("firstName", Str "Alice"); ("age", Num 30)]);
              key := Some (KStr "firstName");
              path := [KStr "profile"; KStr "firstName"] |}
           "firstName" "age"
           [("firstName", Str "Alice"); ("age", Num 30)]
           eq_refl ltac:(apply list_elem_of_here) eq_refl eq_refl eq_refl Hne
           Hproto).
Defined.

Lemma callback_error_ends_delivery_witness :
  let data := Obj [("a", Num 1); ("items", Arr [Num 7]); ("b", Num 2)] in
  let a := child (rootNode data) (KStr "a") (Num 1) in
  let item := child (child (rootNode data) (KStr "items") (Arr [Num 7]))
                (KNum 0) (Num 7) in
  let b := child (rootNode data) (KStr "b") (Num 2) in
  deliver remove [a] data
    = (Ok tt, Obj [("items", Arr [Num 7]); ("b", Num 2)]) /\
  hasKey item = true /\
  remove item (Obj [("items", Arr [Num 7]); ("b", Num 2)])
    = (Err CannotRename, Obj [("items", Arr [Num 7]); ("b", Num 2)]) /\
  deliver remove [a; item; b] data
    = (Err CannotRename, Obj [("items", Arr [Num 7]); ("b", Num 2)]).
Proof.
  split; [reflexivity|]. split; [reflexivity|]. split; [reflexivity|].
  exact (callback_error_ends_delivery remove
           [child (rootNode (Obj [("a", Num 1); ("items", Arr [Num 7]); ("b", Num 2)]))
              (KStr "a") (Num 1)]
           [child (rootNode (Obj [("a", Num 1); ("items", Arr [Num 7]); ("b", Num 2)]))
              (KStr "b") (Num 2)]
           (child (child (rootNode (Obj [("a", Num 1); ("items", Arr [Num 7]);
                                         ("b", Num 2)]))
                     (KStr "items") (Arr [Num 7]))
              (KNum 0) (Num 7))
           (Obj [("a", Num 1); ("items", Arr [Num 7]); ("b", Num 2)])
           (Obj [("items", Arr [Num 7]); ("b", Num 2)])
           (Obj [("items", Arr [Num 7]); ("b", Num 2)])
           CannotRename eq_refl eq_refl eq_refl).
Defined.

Lemma batch_is_successive_calls_witness :
  let options := {| injectedConditions := []; shortcuts := None |} in
  let data := Obj [("a", Num 1); ("b", Num 2); ("c", Num 3)] in
  length [PatternString "a"] = length [remove] /\
  length [PatternString "*"] = length [fun n => setKey n "kept"] /\
  traverseIn (fun _ => None) data options [PatternString "a"] [remove]
    = (Ok tt, Obj [("b", Num 2); ("c", Num 3)]) /\
  traverseIn (fun _ => None) data options
    [PatternString "a"; PatternString "*"] [remove; fun n => setKey n "kept"]
    = traverseIn (fun _ => None) (Obj [("b", Num 2); ("c", Num 3)]) options
        [PatternString "*"] [fun n => setKey n "kept"].
Proof.
  split; [reflexivity|]. split; [reflexivity|]. split; [reflexivity|].
  exact (batch_is_successive_calls (fun _ => None)
           {| injectedConditions := []; shortcuts := None |}
           [PatternString "a"] [PatternString "*"]
           [remove] [fun n => setKey n "kept"]
           (Obj [("a", Num 1); ("b", Num 2); ("c", Num 3)]) eq_refl eq_refl).
Defined.
